(** * The interactive globe view of the travel log

    A shallow embedding of [src/components/WorldMap.tsx]: the geometry
    loader, the auto-framing camera ([autoCenter]), the pointer / touch /
    wheel gesture handlers, the effects that report zooming and re-frame
    the map, the route and marker renderers ([renderRoutes],
    [renderPoints]) and the word-cloud computation ([wordCloudElements]).

    Conventions of the embedding.
    - A JavaScript number is an exact rational ([Q]); rounding, NaN and the
      infinities of binary64 are not modelled.  Numeric literals of the
      source are written as they are ([1.1], [0.25], [4000]).
    - Counters ([count++]) are integers ([Z]); they start at [0] or [-1].
    - A plain object used as a dictionary is the list of its own properties
      in creation order, with the enumeration order and the prototype chain
      of the language (module [Obj]).
    - Functions of the platform and of the libraries [d3-geo] and the DOM
      that the component calls but does not define are the fields of the
      classes [Externals] and [DOM].
    - React state ([useState]) and refs ([useRef]) of one component
      instance are the fields of the record [State]; a handler maps the
      state before the event to the state after it, together with the
      trace of the calls it made on the event and on the host. *)

From Stdlib Require Import QArith Qminmax Qround Qabs Lqa Ascii Sorted.
From stdpp Require Import base option list strings pretty.

Local Open Scope Q_scope.

(** ** Numbers *)

(** [Math.PI], the binary64 number nearest to pi. *)
Definition Math_PI : Q := 884279719003555 # 281474976710656.

(** [x < y] on numbers, as a boolean. *)
Definition Qltb (x y : Q) : bool := negb (Qle_bool y x).

Definition Math_max (x y : Q) : Q := Qmax x y.
Definition Math_min (x y : Q) : Q := Qmin x y.
Definition Math_floor (x : Q) : Q := inject_Z (Qfloor x).

(** ** Exceptions *)

Inductive Outcome (A : Type) : Type :=
| Returned (a : A)
| Thrown (err : string).
Arguments Returned {A} a.
Arguments Thrown {A} err.

Definition obind {A B} (m : Outcome A) (k : A -> Outcome B) : Outcome B :=
  match m with
  | Returned a => k a
  | Thrown err => Thrown err
  end.

(** [try { m } catch (e) {}] *)
Definition try_catch (m : Outcome unit) : Outcome unit := Returned tt.

Notation "'do' x <- m 'in' k" := (obind m (fun x => k))
  (at level 10, x name, m at level 100, k at level 200, only parsing).

(** ** Plain objects used as dictionaries *)

Module Obj.

(** The own property names of [Object.prototype]: a lookup [o[k]] on a
    plain object that has no own property [k] finds these, and what it
    finds (a function, or the prototype itself for [__proto__]) is
    truthy. *)
Definition proto_keys : list string :=
  ["constructor"; "__defineGetter__"; "__defineSetter__";
   "hasOwnProperty"; "__lookupGetter__"; "__lookupSetter__";
   "isPrototypeOf"; "propertyIsEnumerable"; "toString"; "valueOf";
   "__proto__"; "toLocaleString"]%string.

Definition digit_of (a : ascii) : option N :=
  let n := N_of_ascii a in
  if ((48 <=? n) && (n <=? 57))%N then Some (n - 48)%N else None.

Fixpoint digits_value (acc : N) (s : string) : option N :=
  match s with
  | EmptyString => Some acc
  | String a s' =>
      match digit_of a with
      | Some d => digits_value (10 * acc + d)%N s'
      | None => None
      end
  end.

(** A property name is an array index when it is the canonical decimal
    writing of an integer in [0, 2^32 - 2]. *)
Definition array_index (k : string) : option N :=
  match k with
  | EmptyString => None
  | String "0"%char EmptyString => Some 0%N
  | String "0"%char _ => None
  | _ =>
      match digits_value 0 k with
      | Some n => if (n <? 2 ^ 32 - 1)%N then Some n else None
      | None => None
      end
  end.

(** A name is ordinary when an object stores it like any other string:
    in creation order, and with nothing inherited under that name. *)
Definition ordinary (k : string) : Prop :=
  array_index k = None /\ k ∉ proto_keys.

Section Dict.
Context {V : Type}.

(** Own properties, oldest first. *)
Definition t := list (string * V).

Definition empty : t := [].

Fixpoint get_own (o : t) (k : string) : option V :=
  match o with
  | [] => None
  | (k', v) :: o' => if String.eqb k' k then Some v else get_own o' k
  end.

(** The result of reading [o[k]]. *)
Inductive Lookup : Type :=
| Own (v : V)
| Inherited
| Undefined.

Definition get (o : t) (k : string) : Lookup :=
  match get_own o k with
  | Some v => Own v
  | None => if bool_decide (k ∈ proto_keys) then Inherited else Undefined
  end.

(** [!o[k]]: own values are objects, inherited ones are functions or
    objects, so only an absent property is falsy. *)
Definition absent (o : t) (k : string) : bool :=
  match get o k with
  | Undefined => true
  | _ => false
  end.

(** [o[k] = v]: an existing own property keeps its place, a new one
    goes last. *)
Fixpoint set (o : t) (k : string) (v : V) : t :=
  match o with
  | [] => [(k, v)]
  | (k', v') :: o' =>
      if String.eqb k' k then (k', v) :: o' else (k', v') :: set o' k v
  end.

Fixpoint insert_index (x : N * V) (l : list (N * V)) : list (N * V) :=
  match l with
  | [] => [x]
  | y :: l' => if (x.1 <=? y.1)%N then x :: l else y :: insert_index x l'
  end.

Definition index_props (o : t) : list (N * V) :=
  omap (fun kv => match array_index kv.1 with
                  | Some n => Some (n, kv.2)
                  | None => None
                  end) o.

Definition string_props (o : t) : t :=
  filter (fun kv => array_index kv.1 = None) (o : list (string * V)).

(** [Object.values(o)]: the array-index properties in ascending numeric
    order, then the others in creation order. *)
Definition values (o : t) : list V :=
  (snd <$> foldr insert_index [] (index_props o))
    ++ (snd <$> string_props o).
End Dict.
Arguments t : clear implicits.
Arguments Lookup : clear implicits.

End Obj.

(** ** The data model ([src/types.ts]) *)

Record Coordinates := { lat : Q; lng : Q }.

(** [LocationData]; the fields the globe never reads ([name_zh],
    [name_pinyin], [code]) are left out. *)
Record LocationData := {
  name : string;
  coords : Coordinates;
  country : option string;
  state : option string;
  city : option string
}.

(** [Trip]; of its fields the globe reads [id], [origin] and
    [destination]. *)
Record Trip := {
  id : string;
  origin : LocationData;
  destination : LocationData
}.

(** The [viewMode] prop: ['routes' | 'visited']. *)
Inductive ViewMode := routes | visited.

Record Dimensions := { width : Q; height : Q }.

(** A geographic point [[lng, lat]], a screen point [[x, y]]. *)
Definition Point : Type := Q * Q.

(** What [d3.geoOrthographic()...] builds: the forward projection and its
    inverse, each of which may answer [null]. *)
Record Projection := {
  project : Point -> option Point;
  invert : Point -> option Point
}.

(** ** What the component takes from its platform *)

Class Externals := {
  Math_hypot : Q -> Q -> Q;
  Math_sqrt : Q -> Q;
  Math_log : Q -> Q;
  Math_sin : Q -> Q;
  (** [d3.geoDistance(a, b)]: the great-circle distance in radians. *)
  geoDistance : Point -> Point -> Q;
  (** [d3.geoInterpolate(a, b)(t)] *)
  geoInterpolate : Point -> Point -> Q -> Point;
  (** [d3.geoOrthographic().fitSize(size, sphere).rotate([r0, r1, 0])
      .scale(k).precision(0.1)] *)
  geoOrthographic : Dimensions -> Point -> Q -> Projection
}.

Class DOM := {
  Element : Type;
  hasPointerCapture : Element -> nat -> bool;
  setPointerCapture : Element -> nat -> Outcome unit;
  releasePointerCapture : Element -> nat -> Outcome unit
}.

(** ** Props *)

Record Props := {
  trips : list Trip;
  highlightTrip : option Trip;
  viewMode : ViewMode;
  interactionEnabled : bool;
  (** whether the host passed an [onZoomChange] callback *)
  onZoomChange : bool;
  enableWordCloud : bool;
  hideBackground : bool
}.

(** ** The auto-framing camera ([autoCenter]) *)

Definition minSpanRad : Q := 0.001.

(** [interactionEnabled ? 1.5 : 1.8] *)
Definition paddingFactor (interactive : bool) : Q :=
  if interactive then 1.5 else 1.8.

(** [Math.max(distanceRad * paddingFactor, minSpanRad)] *)
Definition targetSpan (distanceRad : Q) (interactive : bool) : Q :=
  Math_max (distanceRad * paddingFactor interactive) minSpanRad.

(** [Math.min(Math.max(Math.PI / targetSpan, 1), 4000)] *)
Definition autoZoom (distanceRad : Q) (interactive : bool) : Q :=
  Math_min (Math_max (Math_PI / targetSpan distanceRad interactive) 1) 4000.

(** An entry of [locCounts]. *)
Record LocCount := { lc_count : Z; lc_coords : Point }.

Definition point_of (l : LocationData) : Point :=
  (lng (coords l), lat (coords l)).

(** [if (!locCounts[n]) locCounts[n] = { count: 0, coords }; locCounts[n].count++]
    for the location [l] named [n].  When [n] names a member of
    [Object.prototype] the test finds that member, nothing is stored, and
    the increment lands on the member, not on [locCounts]. *)
Definition countLocation (locCounts : Obj.t LocCount) (l : LocationData)
  : Obj.t LocCount :=
  let locCounts1 :=
    if Obj.absent locCounts (name l)
    then Obj.set locCounts (name l) {| lc_count := 0; lc_coords := point_of l |}
    else locCounts in
  match Obj.get locCounts1 (name l) with
  | Obj.Own lc =>
      Obj.set locCounts1 (name l)
        {| lc_count := lc_count lc + 1; lc_coords := lc_coords lc |}
  | _ => locCounts1
  end.

(** The body of [trips.forEach(t => ...)]: origin first, then destination. *)
Definition countTrip (locCounts : Obj.t LocCount) (t : Trip) : Obj.t LocCount :=
  countLocation (countLocation locCounts (origin t)) (destination t).

Definition locCounts_of (ts : list Trip) : Obj.t LocCount :=
  fold_left countTrip ts Obj.empty.

Definition topLoc_init : LocCount := {| lc_count := -1; lc_coords := (0, 0) |}.

(** [if (lc.count > topLoc.count) topLoc = lc] *)
Definition betterLoc (topLoc lc : LocCount) : LocCount :=
  if (lc_count topLoc <? lc_count lc)%Z then lc else topLoc.

Definition topLoc_of (locCounts : Obj.t LocCount) : LocCount :=
  fold_left betterLoc (Obj.values locCounts) topLoc_init.

Definition fallbackRotation : Point := (-105, -35).

Section Camera.
Context {ext : Externals}.

(** [targetRotation] and [targetZoom] as [autoCenter] computes them from
    the props. *)
Definition autoCenter_target (p : Props) : Point * Q :=
  match highlightTrip p with
  | Some ht =>
      let p1 := point_of (origin ht) in
      let p2 := point_of (destination ht) in
      let center := geoInterpolate p1 p2 0.5 in
      let distanceRad := geoDistance p1 p2 in
      ((- center.1, - center.2), autoZoom distanceRad (interactionEnabled p))
  | None =>
      if (0 <? length (trips p))%nat then
        let topLoc := topLoc_of (locCounts_of (trips p)) in
        if (0 <? lc_count topLoc)%Z
        then ((- (lc_coords topLoc).1, - (lc_coords topLoc).2), 1)
        else (fallbackRotation, 1)
      else (fallbackRotation, 1)
  end.
End Camera.

(** ** The gesture controller *)

(** The calls a handler makes on its event and on the host, in order. *)
Inductive Call :=
| StopPropagation
| SetPointerCapture (pointerId : nat)
| ReleasePointerCapture (pointerId : nat)
| OnZoomChange (isZoomed : bool).

Global Instance Call_eq_dec : EqDecision Call.
Proof. solve_decision. Defined.

(** [Math.min(z * 1.05, 4000)]: the pinch step when the fingers move apart. *)
Definition pinchSpread (z : Q) : Q := Math_min (z * 1.05) 4000.
(** [Math.max(z * 0.95, 1)]: the pinch step when the fingers close in. *)
Definition pinchClose (z : Q) : Q := Math_max (z * 0.95) 1.
(** [Math.min(z * scaleFactor, 4000)] with [scaleFactor = 1.1] *)
Definition wheelUp (z : Q) : Q := Math_min (z * 1.1) 4000.
(** [Math.max(z / scaleFactor, 1)] *)
Definition wheelDown (z : Q) : Q := Math_max (z / 1.1) 1.
(** [zoomIn]: [Math.min(z * 1.5, 4000)] *)
Definition zoomIn (z : Q) : Q := Math_min (z * 1.5) 4000.

(** [y < innerHeight * 0.25 || y > innerHeight * 0.75] *)
Definition isNavZone (innerHeight y : Q) : bool :=
  Qltb y (innerHeight * 0.25) || Qltb (innerHeight * 0.75) y.

Section Gesture.
Context {ext : Externals} {dom : DOM}.

Record PointerEvent := {
  pointerId : nat;
  clientX : Q;
  clientY : Q;
  target : Element
}.

Record Touch := { touch_clientY : Q }.
Record TouchEvent := { touches : list Touch }.
Record WheelEvent := { deltaY : Q }.

(** The state ([useState]) and the refs ([useRef]) of one instance. *)
Record State := {
  rotation : Point;
  zoom : Q;
  isDragging : bool;
  dimensions : Dimensions;
  (** [defaultState.current]: [(zoom, rotation)] or [null] *)
  defaultState : option (Q * Point);
  lastPos : option Point;
  evCache : list PointerEvent;
  prevDiff : Q
}.

Definition initialState : State :=
  {| rotation := (0, 0); zoom := 1; isDragging := false;
     dimensions := {| width := 800; height := 400 |};
     defaultState := None; lastPos := None; evCache := []; prevDiff := -1 |}.

Definition with_rotation (r : Point) (s : State) : State :=
  {| rotation := r; zoom := zoom s; isDragging := isDragging s;
     dimensions := dimensions s; defaultState := defaultState s;
     lastPos := lastPos s; evCache := evCache s; prevDiff := prevDiff s |}.
Definition with_zoom (z : Q) (s : State) : State :=
  {| rotation := rotation s; zoom := z; isDragging := isDragging s;
     dimensions := dimensions s; defaultState := defaultState s;
     lastPos := lastPos s; evCache := evCache s; prevDiff := prevDiff s |}.
Definition with_isDragging (b : bool) (s : State) : State :=
  {| rotation := rotation s; zoom := zoom s; isDragging := b;
     dimensions := dimensions s; defaultState := defaultState s;
     lastPos := lastPos s; evCache := evCache s; prevDiff := prevDiff s |}.
Definition with_dimensions (d : Dimensions) (s : State) : State :=
  {| rotation := rotation s; zoom := zoom s; isDragging := isDragging s;
     dimensions := d; defaultState := defaultState s;
     lastPos := lastPos s; evCache := evCache s; prevDiff := prevDiff s |}.
Definition with_defaultState (d : option (Q * Point)) (s : State) : State :=
  {| rotation := rotation s; zoom := zoom s; isDragging := isDragging s;
     dimensions := dimensions s; defaultState := d;
     lastPos := lastPos s; evCache := evCache s; prevDiff := prevDiff s |}.
Definition with_lastPos (l : option Point) (s : State) : State :=
  {| rotation := rotation s; zoom := zoom s; isDragging := isDragging s;
     dimensions := dimensions s; defaultState := defaultState s;
     lastPos := l; evCache := evCache s; prevDiff := prevDiff s |}.
Definition with_evCache (c : list PointerEvent) (s : State) : State :=
  {| rotation := rotation s; zoom := zoom s; isDragging := isDragging s;
     dimensions := dimensions s; defaultState := defaultState s;
     lastPos := lastPos s; evCache := c; prevDiff := prevDiff s |}.
Definition with_prevDiff (d : Q) (s : State) : State :=
  {| rotation := rotation s; zoom := zoom s; isDragging := isDragging s;
     dimensions := dimensions s; defaultState := defaultState s;
     lastPos := lastPos s; evCache := evCache s; prevDiff := d |}.

(** [autoCenter]: frame the camera, remember the frame as the default,
    tell the host the view is not zoomed. *)
Definition autoCenter (p : Props) (s : State) : State * list Call :=
  let '(targetRotation, targetZoom) := autoCenter_target p in
  (with_defaultState (Some (targetZoom, targetRotation))
     (with_zoom targetZoom (with_rotation targetRotation s)),
   if onZoomChange p then [OnZoomChange false] else []).

(** [zoom > 1.1] *)
Definition isZoomedIn (s : State) : bool := Qltb 1.1 (zoom s).

(** [findIndex(cachedEv => cachedEv.pointerId === e.pointerId)] *)
Definition findIndex (e : PointerEvent) (cache : list PointerEvent)
  : option nat :=
  fst <$> list_find (fun cachedEv => pointerId cachedEv = pointerId e) cache.

Definition handleTouchGatekeeper (p : Props) (innerHeight : Q) (s : State)
    (e : TouchEvent) : Outcome (State * list Call) :=
  if negb (interactionEnabled p) then Returned (s, [])
  else
    match touches e !! 0%nat with
    | None => Thrown "TypeError"
    | Some t0 =>
        let touchY := touch_clientY t0 in
        let isTopZone := Qltb touchY (innerHeight * 0.25) in
        let isBottomZone := Qltb (innerHeight * 0.75) touchY in
        let isNavZone := isTopZone || isBottomZone in
        if isZoomedIn s || negb isNavZone
        then Returned (s, [StopPropagation])
        else Returned (s, [])
    end.

Definition handlePointerDown (p : Props) (innerHeight : Q) (s : State)
    (e : PointerEvent) : Outcome (State * list Call) :=
  if negb (interactionEnabled p) then Returned (s, [])
  else if negb (isZoomedIn s) && isNavZone innerHeight (clientY e)
          && negb (bool_decide (is_Some (highlightTrip p)))
  then Returned (s, [])
  else
    let cache := evCache s ++ [e] in
    let s1 := with_evCache cache s in
    let s2 :=
      if (length cache =? 1)%nat
      then with_lastPos (Some (clientX e, clientY e)) (with_isDragging true s1)
      else s1 in
    do _ <- try_catch (setPointerCapture (target e) (pointerId e)) in
    Returned (s2, [StopPropagation; SetPointerCapture (pointerId e)]).

Definition handlePointerMove (p : Props) (s : State) (e : PointerEvent)
    : Outcome (State * list Call) :=
  if negb (interactionEnabled p) then Returned (s, [])
  else
    let calls :=
      if bool_decide (is_Some (findIndex e (evCache s)))
      then [StopPropagation] else [] in
    let cache :=
      match findIndex e (evCache s) with
      | Some index => <[index := e]> (evCache s)
      | None => evCache s
      end in
    let s1 := with_evCache cache s in
    match cache with
    | [ev0; ev1] =>
        (* pinch zoom *)
        let curDiff :=
          Math_hypot (clientX ev0 - clientX ev1) (clientY ev0 - clientY ev1) in
        let s2 :=
          if Qltb 0 (prevDiff s) then
            if Qltb (prevDiff s) curDiff then with_zoom (pinchSpread (zoom s)) s1
            else if Qltb curDiff (prevDiff s) then with_zoom (pinchClose (zoom s)) s1
            else s1
          else s1 in
        Returned (with_prevDiff curDiff s2, calls)
    | [_] =>
        (* drag rotate *)
        match isDragging s, lastPos s with
        | true, Some (x, y) =>
            let dx := clientX e - x in
            let dy := clientY e - y in
            let sensitivity := 0.25 / Math_sqrt (zoom s) in
            let r := rotation s in
            Returned
              (with_lastPos (Some (clientX e, clientY e))
                 (with_rotation (r.1 + dx * sensitivity, r.2 - dy * sensitivity) s1),
               calls)
        | _, _ => Returned (s1, calls)
        end
    | _ => Returned (s1, calls)
    end.

Definition handlePointerUp (p : Props) (s : State) (e : PointerEvent)
    : Outcome (State * list Call) :=
  if negb (interactionEnabled p) then Returned (s, [])
  else
    let cache :=
      match findIndex e (evCache s) with
      | Some index => delete index (evCache s)
      | None => evCache s
      end in
    let s1 := with_evCache cache s in
    let s2 := if (length cache <? 2)%nat then with_prevDiff (-1) s1 else s1 in
    let s3 :=
      if (length cache =? 0)%nat
      then with_lastPos None (with_isDragging false s2)
      else s2 in
    if hasPointerCapture (target e) (pointerId e) then
      do _ <- try_catch (releasePointerCapture (target e) (pointerId e)) in
      Returned (s3, [ReleasePointerCapture (pointerId e)])
    else Returned (s3, []).

Definition handleWheel (p : Props) (s : State) (e : WheelEvent)
    : Outcome (State * list Call) :=
  if negb (interactionEnabled p) then Returned (s, [])
  else
    Returned
      (if Qltb (deltaY e) 0 then with_zoom (wheelUp (zoom s)) s
       else with_zoom (wheelDown (zoom s)) s,
       [StopPropagation]).

Definition handleDoubleClick (p : Props) (s : State)
    : Outcome (State * list Call) :=
  if negb (interactionEnabled p) then Returned (s, [])
  else Returned (with_zoom (zoomIn (zoom s)) s, [StopPropagation]).

(** What can happen to a mounted instance.  [onPointerLeave] is bound to
    [handlePointerUp], [onTouchStart] and [onTouchMove] to the gatekeeper;
    [AutoCenter] is a call of [autoCenter], by [resetView] or because the
    key of (trip ids, highlight id, view mode) changed; [Resize] is the
    resize observer. *)
Inductive Event :=
| PointerDown (e : PointerEvent)
| PointerMove (e : PointerEvent)
| PointerUp (e : PointerEvent)
| PointerLeave (e : PointerEvent)
| Wheel (e : WheelEvent)
| DoubleClick
| TouchStart (e : TouchEvent)
| TouchMove (e : TouchEvent)
| AutoCenter
| Resize (d : Dimensions).

Definition handle (p : Props) (innerHeight : Q) (s : State) (ev : Event)
    : Outcome (State * list Call) :=
  match ev with
  | PointerDown e => handlePointerDown p innerHeight s e
  | PointerMove e => handlePointerMove p s e
  | PointerUp e | PointerLeave e => handlePointerUp p s e
  | Wheel e => handleWheel p s e
  | DoubleClick => handleDoubleClick p s
  | TouchStart e | TouchMove e => handleTouchGatekeeper p innerHeight s e
  | AutoCenter => Returned (autoCenter p s)
  | Resize d => Returned (with_dimensions d s, [])
  end.

(** The state after an event; a handler that throws has changed nothing
    before it threw. *)
Definition step (p : Props) (innerHeight : Q) (s : State) (ev : Event)
    : State :=
  match handle p innerHeight s ev with
  | Returned (s', _) => s'
  | Thrown _ => s
  end.

(** The states an instance can be in: the props and the window height
    may differ from one event to the next. *)
Inductive reachable : State -> Prop :=
| reachable_init : reachable initialState
| reachable_step p innerHeight s ev :
    reachable s -> reachable (step p innerHeight s ev).

(** A run of events, each under the props and the window height of its
    moment. *)
Definition run (s : State) (evs : list (Props * Q * Event)) : State :=
  fold_left (fun s x => step x.1.1 x.1.2 s x.2) evs s.

End Gesture.

(** ** The scene renderer *)

(** The React key of a marker: ['origin'], ['dest'], or [`dest-${i}`] for
    the destination of the trip at index [i]. *)
Inductive MarkerKey :=
| key_origin
| key_dest
| key_dest_at (i : nat).

Record Marker := {
  cx : Q;
  cy : Q;
  r : Q;
  fill : string;
  key : MarkerKey
}.

(** The kind of a word-cloud entry. *)
Inductive WordType := country_word | province_word | city_word.

(** An entry of [counts]. *)
Record WordCount := { wc_type : WordType; wc_count : Z; wc_text : string }.

(** An element of the word cloud; [left] and [top] are percentages and
    [fontSize] is in rem. *)
Record WordCloudElement := {
  wce_key : string;
  wce_text : string;
  wce_left : Q;
  wce_top : Q;
  wce_fontSize : Q;
  wce_colorClass : string
}.

(** Truthiness of an optional string: neither [undefined] nor [""]. *)
Definition truthy (x : option string) : bool :=
  match x with
  | Some s => negb (String.eqb s "")
  | None => false
  end.

(** [a || b] *)
Definition js_or (a b : option string) : option string :=
  if truthy a then a else b.

(** [if (!counts[key]) counts[key] = { type, count: 0, text }; counts[key].count++] *)
Definition countWord (counts : Obj.t WordCount) (k : string) (ty : WordType)
    (text : string) : Obj.t WordCount :=
  let counts1 :=
    if Obj.absent counts k
    then Obj.set counts k {| wc_type := ty; wc_count := 0; wc_text := text |}
    else counts in
  match Obj.get counts1 k with
  | Obj.Own wc =>
      Obj.set counts1 k
        {| wc_type := wc_type wc; wc_count := wc_count wc + 1;
           wc_text := wc_text wc |}
  | _ => counts1
  end.

(** [if (x) { const key = `${prefix}${x}`; ... }] *)
Definition countIfTruthy (counts : Obj.t WordCount) (prefix : string)
    (ty : WordType) (x : option string) : Obj.t WordCount :=
  match x with
  | Some text =>
      if truthy x then countWord counts (prefix +:+ text) ty text else counts
  | None => counts
  end.

(** The body of [trips.forEach(t => ...)] in [wordCloudElements]. *)
Definition countTripWords (counts : Obj.t WordCount) (t : Trip)
    : Obj.t WordCount :=
  let c := js_or (country (destination t)) (country (origin t)) in
  let counts1 := countIfTruthy counts "c-" country_word c in
  let p := js_or (state (destination t)) (state (origin t)) in
  let counts2 := countIfTruthy counts1 "p-" province_word p in
  let ct := js_or (city (destination t)) (Some (name (destination t))) in
  countIfTruthy counts2 "ct-" city_word ct.

(** [items.sort((a, b) => b.count - a.count)]: by count, largest first,
    entries of equal count in their former order. *)
Fixpoint insertByCount (a : WordCount) (items : list WordCount)
    : list WordCount :=
  match items with
  | [] => [a]
  | b :: items' =>
      if (wc_count b <=? wc_count a)%Z then a :: items
      else b :: insertByCount a items'
  end.

Definition sortByCount (items : list WordCount) : list WordCount :=
  foldr insertByCount [] items.

(** [n || 1] on a count. *)
Definition or_one (n : Z) : Z := if (n =? 0)%Z then 1%Z else n.

Definition wordTypeName (ty : WordType) : string :=
  match ty with
  | country_word => "country"
  | province_word => "province"
  | city_word => "city"
  end.

Definition colorClass_of (ty : WordType) : string :=
  match ty with
  | country_word => "text-sky-900/20 dark:text-sky-100/10"
  | province_word => "text-violet-900/20 dark:text-violet-100/10"
  | city_word => "text-teal-900/20 dark:text-teal-100/10"
  end.

(** The entries the cloud shows: the 50 most frequent. *)
Definition wordCloudItems (ts : list Trip) : list WordCount :=
  let items := sortByCount (Obj.values (fold_left countTripWords ts Obj.empty)) in
  if (50 <? length items)%nat then take 50 items else items.

Section Render.
Context {ext : Externals} {dom : DOM}.

(** The projection of the current camera. *)
Definition projection (s : State) : Projection :=
  let d := dimensions s in
  let baseScale := Math_min (width d) (height d) / 2.2 in
  geoOrthographic d (rotation s) (baseScale * zoom s).

(** The body of [trips.forEach((t, i) => ...)] in [renderPoints], for the
    trips from index [i] on. *)
Fixpoint destinationMarkers (s : State) (i : nat) (ts : list Trip)
    : list Marker :=
  match ts with
  | [] => []
  | t :: ts' =>
      let center :=
        invert (projection s)
          (width (dimensions s) / 2, height (dimensions s) / 2) in
      let dCoords := point_of (destination t) in
      let d := project (projection s) dCoords in
      let here :=
        match center, d with
        | Some c, Some d =>
            let distance := geoDistance dCoords c in
            if Qltb distance (Math_PI / 2)
            then [ {| cx := d.1; cy := d.2; r := 3; fill := "#60a5fa";
                      key := key_dest_at i |} ]
            else []
        | _, _ => []
        end in
      here ++ destinationMarkers s (S i) ts'
  end.

Definition renderPoints (p : Props) (s : State) : list Marker :=
  let dotSize :=
    (3.5 + Math_log (zoom s) * 0.6)
    * (if bool_decide (is_Some (highlightTrip p)) && negb (interactionEnabled p)
       then 1.5 else 1) in
  match highlightTrip p with
  | Some ht =>
      let o := project (projection s) (point_of (origin ht)) in
      let d := project (projection s) (point_of (destination ht)) in
      match o with
      | Some o => [ {| cx := o.1; cy := o.2; r := dotSize; fill := "#38bdf8";
                       key := key_origin |} ]
      | None => []
      end ++
      match d with
      | Some d => [ {| cx := d.1; cy := d.2; r := dotSize; fill := "#818cf8";
                       key := key_dest |} ]
      | None => []
      end
  | None =>
      match viewMode p with
      | routes | visited => destinationMarkers s 0 (trips p)
      end
  end.

(** [seededRandom]: the fractional part of [Math.sin(seed) * 10000]. *)
Definition seededRandom (seed : Q) : Q :=
  let x := Math_sin seed * 10000 in
  x - Math_floor x.

(** [items.map((item, i) => ...)] from index [i] on. *)
Fixpoint wordCloudLabels (minCount range : Z) (i : nat)
    (items : list WordCount) : list WordCloudElement :=
  match items with
  | [] => []
  | item :: items' =>
      let weight := inject_Z (wc_count item - minCount) / inject_Z range in
      let fontSize := 0.8 + weight * 3 in
      let left := 15 + seededRandom (inject_Z (Z.of_nat i) * 123) * 70 in
      let top := 20 + seededRandom (inject_Z (Z.of_nat i) * 789) * 60 in
      {| wce_key := "wc-" +:+ wordTypeName (wc_type item) +:+ "-" +:+ wc_text item;
         wce_text := wc_text item;
         wce_left := left; wce_top := top; wce_fontSize := fontSize;
         wce_colorClass := colorClass_of (wc_type item) |}
        :: wordCloudLabels minCount range (S i) items'
  end.

(** The cloud of a list of trips: what [wordCloudElements] computes once
    past its two guards. *)
Definition wordCloudLayout (ts : list Trip) : list WordCloudElement :=
  let items := wordCloudItems ts in
  let minCount :=
    or_one (default 0%Z (wc_count <$> last items)) in
  let range :=
    or_one (or_one (default 0%Z (wc_count <$> head items)) - minCount) in
  wordCloudLabels minCount range 0 items.

Definition wordCloudElements (p : Props) : list WordCloudElement :=
  if negb (enableWordCloud p) && negb (interactionEnabled p) then []
  else if bool_decide (is_Some (highlightTrip p)) then []
  else wordCloudLayout (trips p).

End Render.

(** ** The geometry loader *)

Module Loader.
Section Loader.
(** The parsed land geometry ([topojson.feature(...)]), an object. *)
Context {Geometry : Type}.

(** A promise built by
    [fetch(URL).then(json).then(feature).catch(reset)]: in flight, with
    the instances whose [then] callback waits on it, or settled, with
    the geometry or (after the catch) with [undefined]. *)
Inductive Chain :=
| InFlight (waiting : list nat)
| Settled (data : option Geometry).

(** The module-level variables, every chain created so far (a chain is
    named by its position), and the calls [setWorldData(data)] made so
    far, each with the instance that made it. *)
Record World := {
  cachedWorldData : option Geometry;
  dataFetchPromise : option nat;
  chains : list Chain;
  delivered : list (nat * Geometry)
}.

Definition initialWorld : World :=
  {| cachedWorldData := None; dataFetchPromise := None;
     chains := []; delivered := [] |}.

(** The number of calls of [fetch] so far. *)
Definition fetches (w : World) : nat := length (chains w).

Definition inFlight (w : World) (c : nat) : Prop :=
  exists waiting, chains w !! c = Some (InFlight waiting).

(** [if (!dataFetchPromise) dataFetchPromise = fetch(...)...] *)
Definition ensureFetch (w : World) : World :=
  match dataFetchPromise w with
  | Some _ => w
  | None =>
      {| cachedWorldData := cachedWorldData w;
         dataFetchPromise := Some (length (chains w));
         chains := chains w ++ [InFlight []];
         delivered := delivered w |}
  end.

(** [dataFetchPromise.then(data => { if (data) setWorldData(data) })]
    by instance [i]. *)
Definition subscribe (w : World) (i : nat) : World :=
  match dataFetchPromise w with
  | Some c =>
      match chains w !! c with
      | Some (InFlight waiting) =>
          {| cachedWorldData := cachedWorldData w;
             dataFetchPromise := dataFetchPromise w;
             chains := <[c := InFlight (waiting ++ [i])]> (chains w);
             delivered := delivered w |}
      | Some (Settled (Some data)) =>
          {| cachedWorldData := cachedWorldData w;
             dataFetchPromise := dataFetchPromise w;
             chains := chains w;
             delivered := delivered w ++ [(i, data)] |}
      | _ => w
      end
  | None => w
  end.

(** The load effect of instance [i], run when it mounts. *)
Definition mount (w : World) (i : nat) : World :=
  match cachedWorldData w with
  | Some data =>
      {| cachedWorldData := cachedWorldData w;
         dataFetchPromise := dataFetchPromise w;
         chains := chains w;
         delivered := delivered w ++ [(i, data)] |}
  | None => subscribe (ensureFetch w) i
  end.

(** Chain [c] settles: with [Some land] when the fetch and the parsing
    succeeded, with [None] when either failed and the catch ran. *)
Definition settle (w : World) (c : nat) (result : option Geometry) : World :=
  match chains w !! c with
  | Some (InFlight waiting) =>
      match result with
      | Some land =>
          {| cachedWorldData := Some land;
             dataFetchPromise := dataFetchPromise w;
             chains := <[c := Settled (Some land)]> (chains w);
             delivered := delivered w ++ ((fun i => (i, land)) <$> waiting) |}
      | None =>
          {| cachedWorldData := cachedWorldData w;
             dataFetchPromise := None;
             chains := <[c := Settled None]> (chains w);
             delivered := delivered w |}
      end
  | _ => w
  end.

Inductive LoaderEvent :=
| Mount (i : nat)
| Settle (c : nat) (result : option Geometry).

Definition step (w : World) (ev : LoaderEvent) : World :=
  match ev with
  | Mount i => mount w i
  | Settle c result => settle w c result
  end.

Inductive reachable : World -> Prop :=
| reachable_init : reachable initialWorld
| reachable_step w ev : reachable w -> reachable (step w ev).

(** While a chain is in flight it is the one [dataFetchPromise] holds,
    and nothing is cached yet. *)
Definition single_flight (w : World) : Prop :=
  forall c, inFlight w c ->
    dataFetchPromise w = Some c /\ cachedWorldData w = None.
End Loader.
Arguments Chain : clear implicits.
Arguments World : clear implicits.
Arguments LoaderEvent : clear implicits.
End Loader.

(** ** Models of the platform, to run the definitions on *)

(** A flat model of [d3-geo], exact on the equator within one hemisphere
    of longitudes: the great-circle distance is the difference of the
    longitudes in radians, the interpolation is linear, the projection is
    equirectangular around the view center, which is the opposite of the
    rotation.  The functions of [Math] are rational stand-ins; no
    statement below depends on what they are. *)
Definition absQ (x : Q) : Q := if Qltb x 0 then - x else x.

Definition flat_projection (d : Dimensions) (rot : Point) (k : Q) : Projection :=
  {| project := fun pt =>
       Some (width d / 2 + k * (pt.1 + rot.1), height d / 2 - k * (pt.2 + rot.2));
     invert := fun xy =>
       Some ((xy.1 - width d / 2) / k - rot.1, (height d / 2 - xy.2) / k - rot.2) |}.

Definition equator : Externals :=
  {| Math_hypot := fun x y => absQ x + absQ y;
     Math_sqrt := fun x => x;
     Math_log := fun x => x - 1;
     Math_sin := fun x => 0;
     geoDistance := fun a b => absQ (a.1 - b.1) * Math_PI / 180;
     geoInterpolate := fun a b t =>
       (a.1 + t * (b.1 - a.1), a.2 + t * (b.2 - a.2));
     geoOrthographic := flat_projection |}.

(** Elements as the lists of the pointers they have captured; releasing a
    pointer that is not captured throws. *)
Definition capture_lists : DOM :=
  {| Element := list nat;
     hasPointerCapture := fun el pid => bool_decide (pid ∈ el);
     setPointerCapture := fun el pid => Returned tt;
     releasePointerCapture := fun el pid =>
       if bool_decide (pid ∈ el) then Returned tt
       else Thrown "NotFoundError" |}.

(** ** The specification's words, to compare the code with *)

(** The point of the sphere that faces the viewer when the projection is
    turned by [rotate([r0, r1, 0])]: the opposite of the two angles. *)
Definition facing (rotation : Point) : Point := (- rotation.1, - rotation.2).

(** [x] clamped to [[lo, hi]]. *)
Definition clamp (lo hi x : Q) : Q :=
  if Qltb x lo then lo else if Qltb hi x then hi else x.

(** The target zoom of a highlighted trip:
    pi / max(distance * paddingFactor, minSpan), clamped to [[1, 4000]],
    with padding factor 1.5 for an interactive view and 1.8 otherwise. *)
Definition spec_zoom (distance : Q) (interactive : bool) : Q :=
  clamp 1 4000
    (Math_PI / Qmax (distance * (if interactive then 1.5 else 1.8)) 0.001).

(** The locations of a trip list in the order they are met: the origin of
    a trip, then its destination. *)
Definition locations (ts : list Trip) : list LocationData :=
  flat_map (fun t => [origin t; destination t]) ts.

(** The tally of a name: how often it occurs among the locations. *)
Definition tally (n : string) (ls : list LocationData) : nat :=
  length (filter (fun l => name l = n) ls).

(** [l] is the location with the highest tally, the first one met among
    those that share it. *)
Definition mostVisitedFirst (ls : list LocationData) (l : LocationData) : Prop :=
  exists before after,
    ls = before ++ l :: after
    /\ (forall l', l' ∈ before -> (tally (name l') ls < tally (name l) ls)%nat)
    /\ (forall l', l' ∈ after -> (tally (name l') ls <= tally (name l) ls)%nat).

(** The camera is centered on the most visited location, at zoom 1: it is
    turned by the opposite of the coordinates of that location. *)
Definition centersOnMostVisited (camera : Point * Q) (ts : list Trip) : Prop :=
  exists l,
    mostVisitedFirst (locations ts) l
    /\ camera = ((- lng (coords l), - lat (coords l)), 1).

(** [Object.values] lists the property named [k] before the one named
    [k'] whatever the order of their creation: [k] is an array index, and
    [k'] is none or a greater one. *)
Definition listedBefore (k k' : string) : Prop :=
  match Obj.array_index k, Obj.array_index k' with
  | Some i, Some j => (i < j)%N
  | Some _, None => True
  | None, _ => False
  end.

(** Array-index properties in the order of their indices. *)
Definition byIndex {V : Type} (a b : N * V) : Prop := (a.1 <= b.1)%N.

(** The locations [locCounts] keeps a property for: those whose name is
    not the name of a member of [Object.prototype]. *)
Definition stored (ls : list LocationData) : list LocationData :=
  filter (fun l => name l ∉ Obj.proto_keys) ls.

(** The locations that introduce a new name, in the order they are met. *)
Definition addFirst (seen : list LocationData) (l : LocationData)
    : list LocationData :=
  if bool_decide (name l ∈ name <$> seen) then seen else seen ++ [l].

Definition firsts (ls : list LocationData) : list LocationData :=
  fold_left addFirst ls [].

(** The property [locCounts] holds for a location once [ls] are counted. *)
Definition entry (ls : list LocationData) (l : LocationData)
    : string * LocCount :=
  (name l, {| lc_count := Z.of_nat (tally (name l) ls); lc_coords := point_of l |}).

(** Whether a handler stopped the propagation of its event. *)
Definition stopped {dom : DOM} (r : Outcome (State * list Call)) : bool :=
  match r with
  | Returned (_, calls) => bool_decide (StopPropagation ∈ calls)
  | Thrown _ => false
  end.

(** The zoom is within its bounds. *)
Definition zoom_ok (z : Q) : Prop := 1 <= z <= 4000.

(** ** Sample data *)

Definition place (n : string) (latitude longitude : Q) : LocationData :=
  {| name := n; coords := {| lat := latitude; lng := longitude |};
     country := None; state := None; city := None |}.

Definition trip (i : string) (o d : LocationData) : Trip :=
  {| id := i; origin := o; destination := d |}.

(** The props of the full-screen globe of [App.tsx], which is interactive. *)
Definition globe (ts : list Trip) (h : option Trip) : Props :=
  {| trips := ts; highlightTrip := h; viewMode := routes;
     interactionEnabled := true; onZoomChange := false;
     enableWordCloud := false; hideBackground := false |}.

(** The props of the globe behind a trip card, which is not. *)
Definition card (t : Trip) : Props :=
  {| trips := [t]; highlightTrip := Some t; viewMode := routes;
     interactionEnabled := false; onZoomChange := false;
     enableWordCloud := false; hideBackground := true |}.

(** A quarter of the equator, from (lat 0, lng 0) to (lat 0, lng 90). *)
Definition quarter : Trip :=
  trip "t1" (place "Null Island" 0 0) (place "Ninety East" 0 90).

(** A trip from a place to itself. *)
Definition round : Trip :=
  trip "t2" (place "Home" 0 10) (place "Home" 0 10).

Definition pointer (pid : nat) (x y : Q) : PointerEvent (dom := capture_lists) :=
  @Build_PointerEvent capture_lists pid x y (@nil nat).

Definition touchAt (y : Q) : TouchEvent := {| touches := [ {| touch_clientY := y |} ] |}.

(** ** Invariants *)

(** What holds of the gesture refs in every state an instance reaches: the
    pinch baseline is reset while fewer than two pointers are down, and
    nothing is dragged while none is. *)
Definition session_inv {dom : DOM} (s : State) : Prop :=
  ((length (evCache s) < 2)%nat -> prevDiff s = -1)
  /\ (evCache s = [] -> isDragging s = false /\ lastPos s = None).

(** The destination of [t] is on the visible hemisphere of the camera of
    [s]: the view center and the screen position of the destination exist,
    and the two are less than a quarter turn apart. *)
Definition visible {ext : Externals} {dom : DOM} (s : State) (t : Trip) : Prop :=
  exists c d,
    invert (projection s)
      (width (dimensions s) / 2, height (dimensions s) / 2) = Some c
    /\ project (projection s) (point_of (destination t)) = Some d
    /\ geoDistance (point_of (destination t)) c < Math_PI / 2.

(** Ten degrees along the equator. *)
Definition short : Trip :=
  trip "t3" (place "Null Island" 0 0) (place "Ten East" 0 10).

(** Three trips out of one place. *)
Definition fromA : list Trip :=
  [ trip "a1" (place "A" 10 20) (place "B" 30 40);
    trip "a2" (place "A" 10 20) (place "C" 50 60);
    trip "a3" (place "A" 10 20) (place "D" 70 80) ].

(** One trip to a place whose name is a number. *)
Definition toSeven : list Trip :=
  [ trip "s1" (place "Paris" 48 2) (place "7" 35 139) ].

(** Two trips out of one place, one of them to a place whose name is a
    number. *)
Definition sevenAside : list Trip :=
  [ trip "s2" (place "A" 10 20) (place "7" 35 139);
    trip "s3" (place "A" 10 20) (place "B" 30 40) ].

(** One trip whose two ends bear the name of a member of
    [Object.prototype]. *)
Definition toConstructor : list Trip :=
  [ trip "c1" (place "constructor" 1 2) (place "constructor" 1 2) ].

(** Sixty trips to sixty places of different names. *)
Definition sixty : list Trip :=
  (fun i => trip "m" (place "Home" 0 0)
              (place (String (ascii_of_nat (65 + i)) EmptyString) 0 0))
    <$> seq 0 60.

(** ** The effects of the component *)

Definition Math_abs (x : Q) : Q := Qabs x.

(** [trips.map(t => t.id).join(',')] *)
Fixpoint join_comma (ids : list string) : string :=
  match ids with
  | [] => ""
  | [i] => i
  | i :: rest => i +:+ "," +:+ join_comma rest
  end.

Definition viewModeName (v : ViewMode) : string :=
  match v with
  | routes => "routes"
  | visited => "visited"
  end.

(** [`${currentTripsId}-${highlightId}-${viewMode}`] *)
Definition propsKey (p : Props) : string :=
  join_comma (id <$> trips p) +:+ "-"
    +:+ match highlightTrip p with
        | Some ht => id ht
        | None => "none"
        end
    +:+ "-" +:+ viewModeName (viewMode p).

(** The last character of a string. *)
Fixpoint last_char (s : string) : option ascii :=
  match s with
  | EmptyString => None
  | String c EmptyString => Some c
  | String _ s' => last_char s'
  end.

(** [highlightTrip ? highlightTrip.id : 'none'] *)
Definition highlightId (p : Props) : string :=
  match highlightTrip p with
  | Some ht => id ht
  | None => "none"
  end.

(** The prefix of the keys of [counts] for a kind of word. *)
Definition cloudPrefix (ty : WordType) : string :=
  match ty with
  | country_word => "c-"
  | province_word => "p-"
  | city_word => "ct-"
  end.

(** The key of [counts] under which an entry is filed. *)
Definition countsKey (wc : WordCount) : string :=
  cloudPrefix (wc_type wc) +:+ wc_text wc.

(** The React key of the label of an entry. *)
Definition labelKey (wc : WordCount) : string :=
  "wc-" +:+ wordTypeName (wc_type wc) +:+ "-" +:+ wc_text wc.

(** Entries in order of frequency, the most frequent first. *)
Definition byFrequency (a b : WordCount) : Prop :=
  (wc_count b <= wc_count a)%Z.

(** What holds of [counts] while the trips are tallied: one entry per
    key, filed under the key of its kind and text, with a text that is
    not empty and a count of at least one. *)
Definition counts_inv (counts : Obj.t WordCount) : Prop :=
  NoDup counts.*1
  /\ forall k wc, (k, wc) ∈ counts ->
        k = countsKey wc /\ wc_text wc <> EmptyString /\ (1 <= wc_count wc)%Z.

Section Effects.
Context {ext : Externals} {dom : DOM}.

(** The effect on [zoom, rotation, onZoomChange]: what it tells the host,
  if anything. *)
Definition zoomChangeEffect (p : Props) (s : State) : list Call :=
match defaultState s with
| None => []
| Some (defaultZoom, _) =>
    if negb (onZoomChange p) then []
    else
      let zDiff := Math_abs (zoom s - defaultZoom) in
      let isZoomed := Qltb 0.1 zDiff in
      [OnZoomChange isZoomed]
end.

(** The effect on [trips, highlightTrip, viewMode], with the string
  [tripsRef.current] before and after it. *)
Definition keyEffect (p : Props) (tripsRef : string) (s : State)
  : string * (State * list Call) :=
let key := propsKey p in
if negb (String.eqb tripsRef key)
then (key, autoCenter p s)
else (tripsRef, (s, [])).

(** While a pointer is cached a drag is on and has a last position. *)
Definition dragging_inv (s : State) : Prop :=
evCache s <> [] -> isDragging s = true /\ is_Some (lastPos s).

(** The framing event: the key effect or [resetView] calls [autoCenter]. *)
Definition isAutoCenter (ev : Event) : bool :=
match ev with
| AutoCenter => true
| _ => false
end.

(** An event that comes from the user's input devices. *)
Definition isInput (ev : Event) : bool :=
match ev with
| AutoCenter | Resize _ => false
| _ => true
end.

End Effects.

(** ** The routes *)

(** [d3.geoPath().projection(proj)] on the line string from one point to
    another: the path data, or null. *)
Class PathGenerator := {
  pathGenerator : Projection -> Point -> Point -> option string
}.

(** An element of [renderRoutes]. *)
Record Route := {
  route_id : string;
  route_d : option string;
  route_isHighlight : bool
}.

Section Routes.
Context {ext : Externals} {dom : DOM} {paths : PathGenerator}.

Definition renderRoutes (p : Props) (s : State) : list Route :=
let targetTrips :=
  match highlightTrip p with
  | Some ht => [ht]
  | None => trips p
  end in
(fun trip =>
   {| route_id := id trip;
      route_d := pathGenerator (projection s)
                   (point_of (origin trip)) (point_of (destination trip));
      route_isHighlight := bool_decide (is_Some (highlightTrip p)) |})
  <$> targetTrips.

(** [renderRoutes.map((route, i) => <g key={route.id + i}>...)]: the React
  keys of the routes, the id followed by the index in decimal. *)
Definition routeKeys (p : Props) (s : State) : list string :=
imap (fun i route => route_id route +:+ pretty i) (renderRoutes p s).
End Routes.

(** ** More sample data *)

(** A path generator that draws nothing. *)
Definition blank : PathGenerator := {| pathGenerator := fun _ _ _ => None |}.

(** Twelve trips with distinct ids, the second and the last of which get
    the same React key. *)
Definition twelveTrips : list Trip :=
  (fun i => trip i (place "A" 0 0) (place "B" 0 10))
    <$> ["a"; "x11"; "c"; "d"; "e"; "f"; "g"; "h"; "i"; "j"; "k"; "x1"]%string.

Definition idle : State (dom := capture_lists) := initialState.

(** The globe of the overview page: not interactive, flag left out. *)
Definition backdrop (ts : list Trip) : Props :=
  {| trips := ts; highlightTrip := None; viewMode := visited;
     interactionEnabled := false; onZoomChange := false;
     enableWordCloud := false; hideBackground := true |}.

(** ** The loader, seen from one instance *)

Section LoaderViews.
Context {Geometry : Type}.

(** The geometries handed to instance [i] so far. *)
Definition deliveredTo (w : Loader.World Geometry) (i : nat) : list Geometry :=
snd <$> filter (fun x => x.1 = i) (Loader.delivered w).

(** Instance [i] waits on no chain. *)
Definition notWaiting (w : Loader.World Geometry) (i : nat) : Prop :=
forall c waiting,
  Loader.chains w !! c = Some (Loader.InFlight waiting) -> i ∉ waiting.

(** Whatever was delivered or settled is what the cache holds. *)
Definition cache_agrees (w : Loader.World Geometry) : Prop :=
(forall i data, (i, data) ∈ Loader.delivered w ->
   Loader.cachedWorldData w = Some data)
/\ (forall c data,
      Loader.chains w !! c = Some (Loader.Settled (Some data)) ->
      Loader.cachedWorldData w = Some data).

(** The instances whose load effect runs in a list of events, in order. *)
Definition mounted (evs : list (Loader.LoaderEvent Geometry)) : list nat :=
omap (fun ev => match ev with
                | Loader.Mount i => Some i
                | Loader.Settle _ _ => None
                end) evs.

(** A world for the examples: instances 1 and 2 wait on the first fetch. *)
Definition twoWaiting : Loader.World string :=
Loader.mount (Loader.mount Loader.initialWorld 1) 2.
End LoaderViews.

(** * Properties *)

(** ** Numbers *)

Lemma Qltb_lt (x y : Q) : Qltb x y = true <-> x < y.
Proof.
  unfold Qltb. rewrite negb_true_iff, <- not_true_iff_false, Qle_bool_iff.
  split; lra.
Qed.

Lemma Qltb_ge (x y : Q) : Qltb x y = false <-> y <= x.
Proof.
  unfold Qltb. rewrite negb_false_iff, Qle_bool_iff. reflexivity.
Qed.

Lemma Qdiv_by_scaleFactor (z : Q) : z / 1.1 == z * (10 # 11).
Proof. field. Qed.

(** Name every [Qmax] and [Qmin] of the goal and keep only what
    characterises it, for linear arithmetic. *)
Ltac gen_minmax :=
  unfold Math_max, Math_min in *;
  repeat match goal with
  | |- context [Qmax ?a ?b] =>
      let m := fresh "m" in
      pose proof (Q.max_spec a b); set (m := Qmax a b) in *; clearbody m
  | |- context [Qmin ?a ?b] =>
      let m := fresh "m" in
      pose proof (Q.min_spec a b); set (m := Qmin a b) in *; clearbody m
  end.

Lemma clamp_min_max (x : Q) : Math_min (Math_max x 1) 4000 = clamp 1 4000 x.
Proof.
  unfold clamp, Math_min, Math_max, Qmin, Qmax, GenericMinMax.gmin,
    GenericMinMax.gmax.
  destruct (Qltb x 1) eqn:Hlo;
    [apply Qltb_lt in Hlo | apply Qltb_ge in Hlo];
    (destruct (Qltb 4000 x) eqn:Hhi;
      [apply Qltb_lt in Hhi | apply Qltb_ge in Hhi]);
    destruct (Qcompare_spec x 1) as [H1|H1|H1];
    try (exfalso; lra);
    try (destruct (Qcompare_spec x 4000) as [H2|H2|H2]);
    try (destruct (Qcompare_spec 1 4000) as [H2|H2|H2]);
    try reflexivity; exfalso; lra.
Qed.

(** ** Zoom steps *)

Lemma pinchSpread_ok z : zoom_ok z -> zoom_ok (pinchSpread z).
Proof. unfold zoom_ok, pinchSpread. intros. gen_minmax. lra. Qed.

Lemma pinchClose_ok z : zoom_ok z -> zoom_ok (pinchClose z).
Proof. unfold zoom_ok, pinchClose. intros. gen_minmax. lra. Qed.

Lemma wheelUp_ok z : zoom_ok z -> zoom_ok (wheelUp z).
Proof. unfold zoom_ok, wheelUp. intros. gen_minmax. lra. Qed.

Lemma wheelDown_ok z : zoom_ok z -> zoom_ok (wheelDown z).
Proof.
  unfold zoom_ok, wheelDown. intros. rewrite Qdiv_by_scaleFactor.
  gen_minmax. lra.
Qed.

Lemma zoomIn_ok z : zoom_ok z -> zoom_ok (zoomIn z).
Proof. unfold zoom_ok, zoomIn. intros. gen_minmax. lra. Qed.

Lemma targetSpan_positive d b : minSpanRad <= targetSpan d b /\ 0 < targetSpan d b.
Proof. unfold targetSpan, minSpanRad. gen_minmax. lra. Qed.

Lemma autoZoom_ok d b : zoom_ok (autoZoom d b).
Proof. unfold zoom_ok, autoZoom. gen_minmax. lra. Qed.

Section CameraFacts.
Context {ext : Externals}.

Lemma autoCenter_target_highlight p ht :
  highlightTrip p = Some ht ->
  autoCenter_target p =
    (let center :=
       geoInterpolate (point_of (origin ht)) (point_of (destination ht)) 0.5 in
     (- center.1, - center.2),
     autoZoom (geoDistance (point_of (origin ht)) (point_of (destination ht)))
       (interactionEnabled p)).
Proof. intros H. unfold autoCenter_target. rewrite H. reflexivity. Qed.

Lemma autoCenter_target_zoom_ok p : zoom_ok (autoCenter_target p).2.
Proof.
  unfold autoCenter_target.
  repeat case_match; simpl; try apply autoZoom_ok; unfold zoom_ok; lra.
Qed.
End CameraFacts.

Section GestureFacts.
Context {ext : Externals} {dom : DOM}.

Lemma autoCenter_zoom_ok p s : zoom_ok (zoom (autoCenter p s).1).
Proof.
  unfold autoCenter. pose proof (autoCenter_target_zoom_ok p) as H.
  destruct (autoCenter_target p) as [rot z]. exact H.
Qed.

Lemma handle_zoom_ok p innerHeight s ev s' calls :
  handle p innerHeight s ev = Returned (s', calls) ->
  zoom_ok (zoom s) -> zoom_ok (zoom s').
Proof.
  intros Hh Hz.
  destruct ev; simpl in Hh.
  - unfold handlePointerDown in Hh.
    repeat case_match; simplify_eq; simpl in *; simplify_eq; exact Hz.
  - unfold handlePointerMove in Hh.
    repeat case_match; simplify_eq; simpl;
      auto using pinchSpread_ok, pinchClose_ok.
  - unfold handlePointerUp in Hh.
    repeat case_match; simplify_eq; simpl in *; simplify_eq; exact Hz.
  - unfold handlePointerUp in Hh.
    repeat case_match; simplify_eq; simpl in *; simplify_eq; exact Hz.
  - unfold handleWheel in Hh.
    repeat case_match; simplify_eq; simpl; auto using wheelUp_ok, wheelDown_ok.
  - unfold handleDoubleClick in Hh.
    repeat case_match; simplify_eq; simpl; auto using zoomIn_ok.
  - unfold handleTouchGatekeeper in Hh.
    repeat case_match; simplify_eq; exact Hz.
  - unfold handleTouchGatekeeper in Hh.
    repeat case_match; simplify_eq; exact Hz.
  - simplify_eq. pose proof (autoCenter_zoom_ok p s) as H.
    rewrite Hh in H. exact H.
  - simplify_eq. exact Hz.
Qed.

Lemma step_zoom_ok p innerHeight s ev :
  zoom_ok (zoom s) -> zoom_ok (zoom (step p innerHeight s ev)).
Proof.
  intros Hz. unfold step.
  destruct (handle p innerHeight s ev) as [[s' calls]|err] eqn:Hh; [|exact Hz].
  eapply handle_zoom_ok; eauto.
Qed.

Lemma run_zoom_ok evs s : zoom_ok (zoom s) -> zoom_ok (zoom (run s evs)).
Proof.
  revert s. induction evs as [|[[p ih] ev] evs IH]; intros s Hz; [exact Hz|].
  simpl. apply IH. apply step_zoom_ok, Hz.
Qed.
End GestureFacts.

(** ** The zoom stays within its bounds *)

(** C3. Every zoom step of a gesture (pinch apart or together, wheel up
    or down, double click) maps a zoom in [1, 4000] to a zoom in
    [1, 4000]; so does every event handled in a state of such a zoom, and
    hence every run of events, in particular one that starts in a state
    [autoCenter] has just framed. *)
Theorem zoom_clamped_after_gestures {ext : Externals} {dom : DOM}
    (s : State) (evs : list (Props * Q * Event)) :
  1 <= zoom s <= 4000 ->
  (1 <= pinchSpread (zoom s) <= 4000
   /\ 1 <= pinchClose (zoom s) <= 4000
   /\ 1 <= wheelUp (zoom s) <= 4000
   /\ 1 <= wheelDown (zoom s) <= 4000
   /\ 1 <= zoomIn (zoom s) <= 4000)
  /\ (forall p innerHeight ev, 1 <= zoom (step p innerHeight s ev) <= 4000)
  /\ 1 <= zoom (run s evs) <= 4000
  /\ (forall p s0, 1 <= zoom (run (autoCenter p s0).1 evs) <= 4000).
Proof.
  intros Hz. repeat split;
    try (apply pinchSpread_ok, Hz); try (apply pinchClose_ok, Hz);
    try (apply wheelUp_ok, Hz); try (apply wheelDown_ok, Hz);
    try (apply zoomIn_ok, Hz);
    try (intros; apply step_zoom_ok, Hz);
    try (apply run_zoom_ok, Hz);
    intros; apply run_zoom_ok, autoCenter_zoom_ok.
Qed.

Lemma zoom_clamped_after_gestures_witness :
  1 <= zoom (initialState (dom := capture_lists)) <= 4000
  /\ 1 <= zoom (run (ext := equator) initialState
               [(globe [] None, 800, DoubleClick);
                (globe [] None, 800, Wheel {| deltaY := -3 |});
                (globe [] None, 800, PointerDown (pointer 1 10 400))]) <= 4000.
Proof.
  assert (H : 1 <= zoom (initialState (dom := capture_lists)) <= 4000)
    by (simpl; lra).
  split; [exact H|].
  apply (zoom_clamped_after_gestures (ext := equator) initialState _ H).
Defined.

Example zoom_after_double_click_and_wheel :
  zoom (run (ext := equator) (dom := capture_lists) initialState
          [(globe [] None, 800, DoubleClick);
           (globe [] None, 800, Wheel {| deltaY := -3 |})]) == 1.65.
Proof. vm_compute. reflexivity. Qed.

(** ** Framing a highlighted trip *)

(** C5. The divisor of the auto-framing zoom is at least [minSpanRad =
    0.001], hence never zero, whatever the distance between origin and
    destination; the zoom is pi over that divisor, clamped, and lies in
    [1, 4000]. *)
Theorem autoZoom_divisor_never_zero {ext : Externals} (p : Props) (ht : Trip) :
  highlightTrip p = Some ht ->
  let d := geoDistance (point_of (origin ht)) (point_of (destination ht)) in
  let span := targetSpan d (interactionEnabled p) in
  0.001 <= span
  /\ ~ span == 0
  /\ (autoCenter_target p).2 = Math_min (Math_max (Math_PI / span) 1) 4000
  /\ 1 <= (autoCenter_target p).2 <= 4000.
Proof.
  intros H d span.
  destruct (targetSpan_positive d (interactionEnabled p)) as [H1 H2].
  fold span in H1, H2. unfold minSpanRad in H1.
  repeat split; try lra; try (apply autoCenter_target_zoom_ok).
  rewrite (autoCenter_target_highlight p ht H). reflexivity.
Qed.

Lemma autoZoom_divisor_never_zero_witness :
  highlightTrip (card round) = Some round
  /\ ~ targetSpan
        (geoDistance (Externals := equator)
           (point_of (origin round)) (point_of (destination round))) false == 0.
Proof.
  split; [reflexivity|].
  apply (autoZoom_divisor_never_zero (ext := equator) (card round) round eq_refl).
Defined.

(** Coincident points (distance 0): the divisor is [minSpanRad], the zoom
    is [1000 * Math.PI]. *)
Example autoZoom_coincident b : autoZoom 0 b == 1000 * Math_PI.
Proof. destruct b; vm_compute; reflexivity. Qed.

(** Antipodal points (distance pi): the zoom is clamped up to 1. *)
Example autoZoom_antipodal b : autoZoom Math_PI b == 1.
Proof. destruct b; vm_compute; reflexivity. Qed.

(** C2. For a highlighted trip, [autoCenter] turns the globe by the
    opposite of the great-circle midpoint of origin and destination, so
    that the point that faces the viewer is the midpoint, sets the zoom to
    pi / max(distance * padding, 0.001) clamped to [1, 4000], with padding
    1.5 for an interactive view and 1.8 otherwise, and records both as the
    default state.  From (lat 0, lng 0) to (lat 0, lng 90), where the
    library finds the midpoint (lat 0, lng 45) and the distance pi / 2, an
    interactive view faces that midpoint and its zoom, 4/3, is above 1. *)
Theorem autoCenter_frames_highlight {ext : Externals} {dom : DOM}
    (p : Props) (ht : Trip) (s : State) :
  highlightTrip p = Some ht ->
  let p1 := point_of (origin ht) in
  let p2 := point_of (destination ht) in
  let mid := geoInterpolate p1 p2 0.5 in
  let d := geoDistance p1 p2 in
  let s' := (autoCenter p s).1 in
  rotation s' = (- mid.1, - mid.2)
  /\ (facing (rotation s')).1 == mid.1
  /\ (facing (rotation s')).2 == mid.2
  /\ zoom s' = spec_zoom d (interactionEnabled p)
  /\ defaultState s' = Some (zoom s', rotation s')
  /\ (interactionEnabled p = true ->
      p1 = (0, 0) -> p2 = (90, 0) ->
      mid.1 == 45 -> mid.2 == 0 -> d == Math_PI / 2 ->
      (facing (rotation s')).1 == 45
      /\ (facing (rotation s')).2 == 0
      /\ zoom s' == 4 / 3
      /\ 1 < zoom s').
Proof.
  intros H p1 p2 mid d s'.
  assert (Hs : rotation s' = (autoCenter_target p).1
               /\ zoom s' = (autoCenter_target p).2
               /\ defaultState s' = Some (zoom s', rotation s')).
  { unfold s', autoCenter. destruct (autoCenter_target p) as [r z].
    repeat split. }
  destruct Hs as (Hr & Hz & Hd). rewrite Hr, Hz.
  rewrite (autoCenter_target_highlight p ht H). fold p1 p2 mid d. simpl.
  split; [reflexivity|].
  split; [apply Qopp_involutive|]. split; [apply Qopp_involutive|]. split.
  - unfold autoZoom, targetSpan, spec_zoom, paddingFactor, minSpanRad.
    rewrite clamp_min_max. reflexivity.
  - split.
    { rewrite Hd, Hr, Hz, (autoCenter_target_highlight p ht H). reflexivity. }
    intros Hi _ _ Hm1 Hm2 Hdist. rewrite Hi.
    assert (Hzz : autoZoom d true == 4 / 3).
    { unfold autoZoom, targetSpan, paddingFactor, minSpanRad.
      assert (Hh : Math_PI / 2 == Math_PI * 0.5) by reflexivity.
      rewrite Hh in Hdist.
      assert (Hsp : Math_max (d * 1.5) 0.001 == Math_PI * 0.75).
      { gen_minmax. unfold Math_PI in *. lra. }
      unfold Math_max, Math_min in *. rewrite Hsp.
      assert (Hq : Math_PI / (Math_PI * 0.75) == 4 / 3) by reflexivity.
      rewrite Hq. reflexivity. }
    repeat split; try (rewrite Qopp_involutive; assumption); try lra.
    rewrite Hzz. reflexivity.
Qed.

Lemma autoCenter_frames_highlight_witness :
  let s' := (autoCenter (ext := equator) (globe [quarter] (Some quarter))
               (@initialState capture_lists)).1 in
  highlightTrip (globe [quarter] (Some quarter)) = Some quarter
  /\ (facing (rotation s')).1 == 45
  /\ (facing (rotation s')).2 == 0
  /\ zoom s' == 4 / 3.
Proof.
  split; [reflexivity|].
  destruct (autoCenter_frames_highlight (ext := equator)
              (globe [quarter] (Some quarter)) quarter
              (@initialState capture_lists) eq_refl)
    as (_ & _ & _ & _ & _ & H).
  destruct H as (H1 & H2 & H3 & _); try reflexivity.
  repeat split; assumption.
Defined.



(** ** Zoning *)

Section ZoningFacts.
Context {ext : Externals} {dom : DOM}.

Lemma touch_decision p innerHeight s t0 rest :
  interactionEnabled p = true ->
  stopped (handleTouchGatekeeper p innerHeight s {| touches := t0 :: rest |})
  = isZoomedIn s || negb (isNavZone innerHeight (touch_clientY t0)).
Proof.
  intros Hi. unfold handleTouchGatekeeper, isNavZone. rewrite Hi. simpl.
  destruct (isZoomedIn s || _); reflexivity.
Qed.

Lemma pointer_decision p innerHeight s e :
  interactionEnabled p = true ->
  stopped (handlePointerDown p innerHeight s e)
  = isZoomedIn s || negb (isNavZone innerHeight (clientY e))
    || bool_decide (is_Some (highlightTrip p)).
Proof.
  intros Hi. unfold handlePointerDown. rewrite Hi. simpl.
  destruct (isZoomedIn s), (isNavZone innerHeight (clientY e)),
    (bool_decide (is_Some (highlightTrip p))); reflexivity.
Qed.

Lemma zoning_agrees_without_highlight p innerHeight s e t0 rest :
  highlightTrip p = None ->
  touch_clientY t0 = clientY e ->
  stopped (handlePointerDown p innerHeight s e)
  = stopped (handleTouchGatekeeper p innerHeight s {| touches := t0 :: rest |}).
Proof.
  intros Hh Hy. destruct (interactionEnabled p) eqn:Hi.
  - rewrite pointer_decision, touch_decision, Hh, Hy by assumption.
    rewrite bool_decide_eq_false_2 by (intros [? ?]; discriminate).
    apply orb_false_r.
  - unfold handlePointerDown, handleTouchGatekeeper. rewrite Hi. reflexivity.
Qed.

Lemma zoning_differs_with_highlight p innerHeight s e t0 rest ht :
  interactionEnabled p = true ->
  highlightTrip p = Some ht ->
  zoom s <= 1.1 ->
  isNavZone innerHeight (clientY e) = true ->
  touch_clientY t0 = clientY e ->
  stopped (handleTouchGatekeeper p innerHeight s {| touches := t0 :: rest |}) = false
  /\ stopped (handlePointerDown p innerHeight s e) = true.
Proof.
  intros Hi Hh Hz Hnav Hy.
  rewrite pointer_decision, touch_decision, Hh, Hy, Hnav by assumption.
  assert (Hzi : isZoomedIn s = false) by (apply Qltb_ge; exact Hz).
  rewrite Hzi. split; [reflexivity|].
  rewrite bool_decide_eq_true_2 by eauto. reflexivity.
Qed.
End ZoningFacts.

(** C1. The pointer-down handler and the touch gatekeeper are to take the
    same decision on an event in the top or bottom quarter of the window,
    at default zoom, while a trip is highlighted.  They do not: on the
    interactive globe with a highlighted trip, zoom 1, a window 800 high
    and an event at y = 80, the gatekeeper lets the touch through and
    [handlePointerDown] stops the event and captures the pointer. *)
Theorem zoning_differs_for_highlighted_trip :
  let p := globe [quarter] (Some quarter) in
  let s := initialState (dom := capture_lists) in
  Qltb 1.1 (zoom s) = false
  /\ isNavZone 800 80 = true
  /\ stopped (handleTouchGatekeeper p 800 s (touchAt 80)) = false
  /\ stopped (handlePointerDown p 800 s (pointer 1 10 80)) = true.
Proof. vm_compute. repeat split. Qed.


(** ** The gesture session *)

Section SessionFacts.
Context {ext : Externals} {dom : DOM}.

Lemma findIndex_None (e : PointerEvent) cache :
  (forall cachedEv, cachedEv ∈ cache -> pointerId cachedEv <> pointerId e) ->
  findIndex e cache = None.
Proof.
  intros H. unfold findIndex.
  destruct (list_find _ cache) as [[i x]|] eqn:Hf; [|reflexivity].
  apply list_find_Some in Hf as (Hl & Hp & _).
  exfalso. apply (H x); [|exact Hp].
  apply list_elem_of_lookup. eauto.
Qed.

Lemma findIndex_lt (e : PointerEvent) cache i :
  findIndex e cache = Some i -> (i < length cache)%nat.
Proof.
  unfold findIndex. intros H.
  destruct (list_find _ cache) as [[j x]|] eqn:Hf; simplify_eq/=.
  apply list_find_Some in Hf as (Hl & _). eapply lookup_lt_Some, Hl.
Qed.

Lemma length_moved (e : PointerEvent) cache :
  length (match findIndex e cache with
          | Some index => <[index := e]> cache
          | None => cache
          end) = length cache.
Proof. destruct (findIndex e cache); [apply length_insert|reflexivity]. Qed.

Lemma handlePointerDown_inv p innerHeight s e s' calls :
  handlePointerDown p innerHeight s e = Returned (s', calls) ->
  session_inv s -> session_inv s'.
Proof.
  unfold handlePointerDown, session_inv. intros Hh [H1 H2].
  repeat case_match; simplify_eq/=; try (split; assumption).
  - split.
    + intros _. apply H1. destruct (evCache s); simpl in *; [lia|].
      rewrite length_app in *. simpl in *. apply Nat.eqb_eq in H3. lia.
    + intros Hnil. destruct (evCache s); discriminate.
  - split.
    + rewrite length_app. simpl. intros Hlt. apply H1. lia.
    + intros Hnil. destruct (evCache s); discriminate.
Qed.

Lemma handlePointerMove_inv p s e s' calls :
  handlePointerMove p s e = Returned (s', calls) ->
  session_inv s -> session_inv s'.
Proof.
  unfold handlePointerMove, session_inv. intros Hh [H1 H2].
  pose proof (length_moved e (evCache s)) as Hlen.
  destruct (interactionEnabled p); simpl in Hh;
    [|simplify_eq; split; assumption].
  destruct (match findIndex e (evCache s) with
            | Some index => <[index := e]> (evCache s)
            | None => evCache s
            end) as [|ev0 [|ev1 [|ev2 rest]]] eqn:Hc; simpl in Hlen.
  - simplify_eq/=. split; [intros _; apply H1; lia|].
    intros _. apply H2. destruct (evCache s); [reflexivity|discriminate].
  - repeat case_match; simplify_eq/=;
      (split; [intros _; apply H1; lia | intros; discriminate]).
  - repeat case_match; simplify_eq/=;
      (split; [intros; lia | intros; discriminate]).
  - simplify_eq/=. split; [intros; lia | intros; discriminate].
Qed.

Lemma handlePointerUp_inv p s e s' calls :
  handlePointerUp p s e = Returned (s', calls) ->
  session_inv s -> session_inv s'.
Proof.
  unfold handlePointerUp, session_inv. intros Hh [H1 H2].
  destruct (interactionEnabled p); simpl in Hh;
    [|simplify_eq; split; assumption].
  set (cache := match findIndex e (evCache s) with
                | Some index => delete index (evCache s)
                | None => evCache s
                end) in *.
  assert (Hs' : evCache s' = cache /\
                ((length cache < 2)%nat -> prevDiff s' = -1) /\
                (cache = [] -> isDragging s' = false /\ lastPos s' = None)).
  { destruct (length cache <? 2)%nat eqn:Hl2;
      [apply Nat.ltb_lt in Hl2 | apply Nat.ltb_ge in Hl2];
    (destruct (length cache =? 0)%nat eqn:Hl0;
      [apply Nat.eqb_eq in Hl0 | apply Nat.eqb_neq in Hl0]);
    repeat case_match; simplify_eq/=;
    (split; [reflexivity|]); (split; [intros; try reflexivity; lia|]);
    intros Hnil; try (split; reflexivity);
    rewrite Hnil in *; simpl in *; lia. }
  destruct Hs' as (-> & Ha & Hb). split; assumption.
Qed.

Lemma handle_inv p innerHeight s ev s' calls :
  handle p innerHeight s ev = Returned (s', calls) ->
  session_inv s -> session_inv s'.
Proof.
  destruct ev; simpl; intros Hh Hinv;
    eauto using handlePointerDown_inv, handlePointerMove_inv,
      handlePointerUp_inv.
  - unfold handleWheel in Hh. repeat case_match; simplify_eq/=; exact Hinv.
  - unfold handleDoubleClick in Hh. repeat case_match; simplify_eq/=; exact Hinv.
  - unfold handleTouchGatekeeper in Hh. repeat case_match; simplify_eq/=; exact Hinv.
  - unfold handleTouchGatekeeper in Hh. repeat case_match; simplify_eq/=; exact Hinv.
  - unfold autoCenter in Hh. destruct (autoCenter_target p). simplify_eq/=. exact Hinv.
  - simplify_eq/=. exact Hinv.
Qed.

Lemma reachable_inv s : reachable s -> session_inv s.
Proof.
  induction 1 as [|p ih s ev Hr IH].
  - split; [reflexivity|]. intros _. split; reflexivity.
  - unfold step. destruct (handle p ih s ev) as [[s' calls]|] eqn:Hh; [|exact IH].
    eapply handle_inv; eauto.
Qed.

Lemma handlePointerUp_returns p s e : exists r, handlePointerUp p s e = Returned r.
Proof.
  unfold handlePointerUp. repeat case_match; simpl; eauto.
Qed.

Lemma handlePointerUp_unmatched p s e :
  session_inv s ->
  findIndex e (evCache s) = None ->
  handlePointerUp p s e =
    Returned (s, if interactionEnabled p && hasPointerCapture (target e) (pointerId e)
                 then [ReleasePointerCapture (pointerId e)] else []).
Proof.
  intros [H1 H2] Hf. unfold handlePointerUp. rewrite Hf.
  destruct (interactionEnabled p); simpl; [|reflexivity].
  assert (Hs : (if (length (evCache s) =? 0)%nat
           then with_lastPos None (with_isDragging false
                  (if (length (evCache s) <? 2)%nat
                   then with_prevDiff (-1) (with_evCache (evCache s) s)
                   else with_evCache (evCache s) s))
           else (if (length (evCache s) <? 2)%nat
                   then with_prevDiff (-1) (with_evCache (evCache s) s)
                   else with_evCache (evCache s) s)) = s).
  { destruct s as [rot z drag dims def lp cache pd]; simpl in *.
    destruct cache as [|c0 [|c1 cache]]; simpl.
    - destruct (H2 eq_refl) as [-> ->].
      assert (pd = -1) as -> by (apply H1; simpl; lia). reflexivity.
    - assert (pd = -1) as -> by (apply H1; simpl; lia). reflexivity.
    - reflexivity. }
  rewrite Hs. destruct (hasPointerCapture _ _); reflexivity.
Qed.
End SessionFacts.

(** C9. In every state an instance can reach, a pointer-up (or
    pointer-leave) whose pointer id matches no cached pointer-down leaves
    the state as it was; pointer capture is released only when the target
    holds it, so on a target that never captured the pointer nothing is
    called; and [handlePointerUp] never throws, in any state. *)
Theorem pointerUp_unmatched_is_noop {ext : Externals} {dom : DOM}
    (p : Props) (innerHeight : Q) (s : State) (e : PointerEvent) :
  reachable s ->
  (forall cachedEv, cachedEv ∈ evCache s -> pointerId cachedEv <> pointerId e) ->
  (exists calls, handlePointerUp p s e = Returned (s, calls)
     /\ (hasPointerCapture (target e) (pointerId e) = false -> calls = []))
  /\ step p innerHeight s (PointerUp e) = s
  /\ step p innerHeight s (PointerLeave e) = s
  /\ (forall p' s' e', exists r, handlePointerUp p' s' e' = Returned r).
Proof.
  intros Hr Hne.
  pose proof (handlePointerUp_unmatched p s e (reachable_inv s Hr)
                (findIndex_None e _ Hne)) as Hup.
  split; [|split; [|split]].
  - eexists. split; [exact Hup|]. intros ->. rewrite andb_false_r. reflexivity.
  - unfold step. simpl. rewrite Hup. reflexivity.
  - unfold step. simpl. rewrite Hup. reflexivity.
  - intros. apply handlePointerUp_returns.
Qed.

Lemma pointerUp_unmatched_is_noop_witness :
  let s := step (ext := equator) (globe [] None) 800 initialState
             (PointerDown (pointer 1 10 400)) in
  evCache s = [pointer 1 10 400]
  /\ step (ext := equator) (globe [] None) 800 s (PointerUp (pointer 2 30 400)) = s.
Proof.
  split; [reflexivity|].
  apply (pointerUp_unmatched_is_noop (ext := equator) (globe [] None) 800).
  - apply reachable_step, reachable_init.
  - intros cachedEv Hin.
    apply list_elem_of_In in Hin. destruct Hin as [<-|[]]. simpl. lia.
Defined.

(** ** Objects *)

Section ObjFacts.
Context {V : Type}.
Implicit Types (o : Obj.t V) (k : string) (v : V).

Lemma length_insert_index (x : N * V) l :
  length (Obj.insert_index x l) = S (length l).
Proof.
  induction l as [|y l IH]; simpl; [reflexivity|].
  destruct (_ <=? _)%N; simpl; [reflexivity|]. rewrite IH. reflexivity.
Qed.

Lemma length_values o : length (Obj.values o) = length o.
Proof.
  unfold Obj.values. rewrite length_app, !length_fmap.
  assert (Hs : forall l : list (N * V),
             length (foldr Obj.insert_index [] l) = length l).
  { induction l as [|x l IH]; simpl; [reflexivity|].
    rewrite length_insert_index, IH. reflexivity. }
  rewrite Hs. unfold Obj.index_props, Obj.string_props.
  induction o as [|[k v] o IH]; [reflexivity|].
  destruct (Obj.array_index k) eqn:Hk.
  - rewrite filter_cons_False by (simpl; rewrite Hk; discriminate).
    simpl. rewrite Hk. simpl length. rewrite <- IH. reflexivity.
  - rewrite filter_cons_True by (simpl; exact Hk).
    simpl. rewrite Hk. simpl length. rewrite <- IH, Nat.add_succ_r.
    reflexivity.
Qed.

Lemma length_set o k v :
  (length o <= length (Obj.set o k v))%nat /\ (0 < length (Obj.set o k v))%nat.
Proof.
  induction o as [|[k' v'] o IH]; simpl; [lia|].
  destruct (String.eqb k' k); simpl; lia.
Qed.

Lemma values_ordinary o :
  (forall k v, (k, v) ∈ o -> Obj.array_index k = None) ->
  Obj.values o = o.*2.
Proof.
  intros H. unfold Obj.values.
  assert (Hi : Obj.index_props o = [] /\ Obj.string_props o = o).
  { unfold Obj.index_props, Obj.string_props.
    induction o as [|[k v] o IH]; [split; reflexivity|].
    pose proof (H k v (list_elem_of_here _ _)) as Hk.
    destruct IH as [IH1 IH2].
    { intros k' v' Hin. apply (H k' v'). apply list_elem_of_further, Hin. }
    split.
    - simpl. rewrite Hk. exact IH1.
    - rewrite filter_cons_True by (simpl; exact Hk). rewrite IH2.
      reflexivity. }
  destruct Hi as [-> ->]. reflexivity.
Qed.
End ObjFacts.

(** ** The word cloud *)

Lemma word_key_own (prefix text : string) :
  prefix ∈ ["c-"; "p-"; "ct-"]%string ->
  (prefix +:+ text) ∉ Obj.proto_keys.
Proof.
  intros Hp Hin. unfold Obj.proto_keys in Hin.
  repeat (apply elem_of_cons in Hp as [->|Hp]);
    [| | |apply elem_of_nil in Hp; exact Hp];
    simpl in Hin;
    repeat (apply elem_of_cons in Hin as [Hin|Hin]; [discriminate Hin|]);
    apply elem_of_nil in Hin; exact Hin.
Qed.

Lemma length_countWord counts k ty text :
  (length counts <= length (countWord counts k ty text))%nat.
Proof.
  unfold countWord.
  set (w0 := {| wc_type := ty; wc_count := 0; wc_text := text |}).
  pose proof (length_set counts k w0) as [H0 _].
  destruct (Obj.absent counts k).
  - destruct (Obj.get (Obj.set counts k w0) k) as [wc| |]; try exact H0.
    etrans; [exact H0|]. apply length_set.
  - destruct (Obj.get counts k) as [wc| |]; try reflexivity. apply length_set.
Qed.

Lemma countWord_nonempty counts k ty text :
  k ∉ Obj.proto_keys ->
  (0 < length (countWord counts k ty text))%nat.
Proof.
  intros Hk. unfold countWord, Obj.absent, Obj.get.
  rewrite (bool_decide_eq_false_2 _ Hk).
  destruct (Obj.get_own counts k) eqn:Hg; simpl.
  - rewrite Hg. apply length_set.
  - case_match; try apply length_set.
    all: case_match; try discriminate; apply length_set.
Qed.

Lemma length_countIfTruthy counts prefix ty x :
  (length counts <= length (countIfTruthy counts prefix ty x))%nat.
Proof.
  unfold countIfTruthy. repeat case_match; try lia. apply length_countWord.
Qed.

Lemma length_countTripWords counts t :
  (length counts <= length (countTripWords counts t))%nat.
Proof.
  unfold countTripWords.
  repeat (etrans; [|apply length_countIfTruthy]). lia.
Qed.

Lemma countTripWords_nonempty counts t :
  name (destination t) <> ""%string ->
  (0 < length (countTripWords counts t))%nat.
Proof.
  intros Hn. unfold countTripWords.
  set (counts2 := countIfTruthy _ "p-" _ _).
  assert (Ht : exists text,
             js_or (city (destination t)) (Some (name (destination t))) = Some text
             /\ truthy (Some text) = true).
  { unfold js_or. destruct (truthy (city (destination t))) eqn:Hc.
    - destruct (city (destination t)) as [c|]; [|discriminate]. eauto.
    - eexists. split; [reflexivity|]. simpl.
      apply negb_true_iff, String.eqb_neq, Hn. }
  destruct Ht as (text & -> & Ht). unfold countIfTruthy. rewrite Ht.
  apply countWord_nonempty, word_key_own. repeat constructor.
Qed.

Lemma length_fold_countTripWords ts counts :
  (length counts <= length (fold_left countTripWords ts counts))%nat.
Proof.
  revert counts. induction ts as [|t ts IH]; intros counts; simpl; [lia|].
  etrans; [apply length_countTripWords|apply IH].
Qed.

Lemma fold_countTripWords_nonempty ts counts :
  (exists t, t ∈ ts /\ name (destination t) <> ""%string) ->
  (0 < length (fold_left countTripWords ts counts))%nat.
Proof.
  intros (t & Hin & Hn). revert counts.
  induction ts as [|t' ts IH]; intros counts.
  - apply elem_of_nil in Hin. destruct Hin.
  - simpl. apply elem_of_cons in Hin as [<-|Hin].
    + eapply Nat.lt_le_trans; [apply (countTripWords_nonempty counts t Hn)|].
      apply length_fold_countTripWords.
    + apply IH, Hin.
Qed.

Lemma length_insertByCount a items :
  length (insertByCount a items) = S (length items).
Proof.
  induction items as [|b items IH]; simpl; [reflexivity|].
  destruct (_ <=? _)%Z; simpl; [reflexivity|]. rewrite IH. reflexivity.
Qed.

Lemma length_sortByCount items : length (sortByCount items) = length items.
Proof.
  unfold sortByCount.
  induction items as [|a items IH]; simpl; [reflexivity|].
  rewrite length_insertByCount, IH. reflexivity.
Qed.

Lemma length_wordCloudItems ts :
  length (wordCloudItems ts)
  = Nat.min 50 (length (fold_left countTripWords ts Obj.empty)).
Proof.
  unfold wordCloudItems.
  set (items := sortByCount _).
  assert (Hl : length items = length (fold_left countTripWords ts Obj.empty)).
  { unfold items. rewrite length_sortByCount, length_values. reflexivity. }
  rewrite <- Hl.
  destruct (50 <? length items)%nat eqn:H50.
  - apply Nat.ltb_lt in H50. rewrite length_take. lia.
  - apply Nat.ltb_ge in H50. lia.
Qed.

Section CloudFacts.
Context {ext : Externals}.

Lemma length_wordCloudLabels minCount range i items :
  length (wordCloudLabels minCount range i items) = length items.
Proof.
  revert i. induction items as [|item items IH]; intros i; simpl;
    [reflexivity|]. rewrite IH. reflexivity.
Qed.

Lemma length_wordCloudLayout ts :
  length (wordCloudLayout ts)
  = Nat.min 50 (length (fold_left countTripWords ts Obj.empty)).
Proof.
  unfold wordCloudLayout. rewrite length_wordCloudLabels.
  apply length_wordCloudItems.
Qed.
End CloudFacts.

(** C7. The word cloud has at most 50 elements whatever the trips and the
    names they carry, and none while a trip is highlighted. *)
Theorem wordCloud_at_most_50 {ext : Externals} (p : Props) :
  (length (wordCloudElements p) <= 50)%nat
  /\ (is_Some (highlightTrip p) -> wordCloudElements p = []).
Proof.
  split.
  - unfold wordCloudElements. repeat case_match; simpl; try lia.
    rewrite length_wordCloudLayout. lia.
  - intros Hh. unfold wordCloudElements.
    rewrite (bool_decide_eq_true_2 _ Hh). destruct (_ && _); reflexivity.
Qed.

Lemma wordCloud_at_most_50_witness :
  is_Some (highlightTrip (globe [quarter] (Some quarter)))
  /\ wordCloudElements (ext := equator) (globe [quarter] (Some quarter)) = [].
Proof.
  assert (H : is_Some (highlightTrip (globe [quarter] (Some quarter))))
    by (eexists; reflexivity).
  split; [exact H|].
  apply (wordCloud_at_most_50 (ext := equator)), H.
Defined.

(** Sixty destinations of different names, each met once: sixty entries
    in [counts], fifty elements in the cloud. *)
Example cloud_capped_at_50 :
  length (fold_left countTripWords sixty Obj.empty) = 60%nat
  /\ length (wordCloudElements (ext := equator) (globe sixty None)) = 50%nat.
Proof. split; vm_compute; reflexivity. Qed.

(** C10. The word cloud is cut off by its first guard only when
    [enableWordCloud] is false and the view is not interactive.  On an
    interactive view with no highlighted trip the cloud is the one of the
    trips whatever the flag, and it is not empty as soon as one trip has
    a named destination; with the flag set the same holds of any view. *)
Theorem wordCloud_flag_alone_does_not_disable {ext : Externals} (p : Props) :
  (enableWordCloud p = false -> interactionEnabled p = false ->
   wordCloudElements p = [])
  /\ (interactionEnabled p = true -> highlightTrip p = None ->
      wordCloudElements p = wordCloudLayout (trips p)
      /\ ((exists t, t ∈ trips p /\ name (destination t) <> ""%string) ->
          wordCloudElements p <> []))
  /\ (enableWordCloud p = true -> highlightTrip p = None ->
      wordCloudElements p = wordCloudLayout (trips p)).
Proof.
  unfold wordCloudElements. split; [|split].
  - intros -> ->. reflexivity.
  - intros -> ->. rewrite andb_false_r.
    rewrite bool_decide_eq_false_2 by (intros [? ?]; discriminate).
    split; [reflexivity|]. intros Hex Hnil.
    apply (f_equal length) in Hnil. rewrite length_wordCloudLayout in Hnil.
    pose proof (fold_countTripWords_nonempty (trips p) Obj.empty Hex).
    change (length (@nil WordCloudElement)) with 0%nat in Hnil. lia.
  - intros -> ->. reflexivity.
Qed.

Lemma wordCloud_flag_alone_does_not_disable_witness :
  enableWordCloud (globe [quarter] None) = false
  /\ interactionEnabled (globe [quarter] None) = true
  /\ highlightTrip (globe [quarter] None) = None
  /\ wordCloudElements (ext := equator) (globe [quarter] None) <> [].
Proof.
  repeat split.
  apply (wordCloud_flag_alone_does_not_disable (ext := equator)
           (globe [quarter] None)); try reflexivity.
  exists quarter. split; [apply list_elem_of_here|discriminate].
Defined.

(** ** Destination markers *)

Section MarkerFacts.
Context {ext : Externals} {dom : DOM}.

Lemma destinationMarkers_spec s k ts i :
  (exists m, m ∈ destinationMarkers s k ts /\ key m = key_dest_at i)
  <-> (exists t, (k <= i)%nat /\ ts !! (i - k)%nat = Some t /\ visible s t).
Proof.
  revert k. induction ts as [|t ts IH]; intros k.
  - simpl. split.
    + intros (m & Hm & _). apply elem_of_nil in Hm. destruct Hm.
    + intros (t & _ & Hl & _). discriminate.
  - simpl. split.
    + intros (m & Hm & Hk). apply elem_of_app in Hm as [Hm|Hm].
      * destruct (invert _ _) as [c|] eqn:Hc;
          [|apply elem_of_nil in Hm; destruct Hm].
        destruct (project _ _) as [d|] eqn:Hd;
          [|apply elem_of_nil in Hm; destruct Hm].
        destruct (Qltb _ _) eqn:Hlt;
          [|apply elem_of_nil in Hm; destruct Hm].
        apply list_elem_of_singleton in Hm. subst m. simpl in Hk.
        injection Hk as <-. exists t. rewrite Nat.sub_diag.
        split; [lia|]. split; [reflexivity|].
        exists c, d. repeat split; try assumption. apply Qltb_lt, Hlt.
      * destruct (proj1 (IH (S k))) as (t' & Hle & Hl & Hv); [eauto|].
        exists t'. split; [lia|]. split; [|exact Hv].
        replace (i - k)%nat with (S (i - S k)) by lia. exact Hl.
    + intros (t' & Hle & Hl & Hv).
      destruct (i - k)%nat as [|n] eqn:Hn.
      * simpl in Hl. injection Hl as <-.
        destruct Hv as (c & d & Hc & Hd & Hlt).
        rewrite Hc, Hd. apply Qltb_lt in Hlt. rewrite Hlt.
        eexists. split; [apply elem_of_app; left; apply list_elem_of_here|].
        simpl. f_equal. lia.
      * simpl in Hl.
        destruct (proj2 (IH (S k))) as (m & Hm & Hk).
        { exists t'. split; [lia|]. split; [|exact Hv].
          replace (i - S k)%nat with n by lia. exact Hl. }
        exists m. split; [|exact Hk]. apply elem_of_app. right. exact Hm.
Qed.

Lemma renderPoints_dest p s i :
  highlightTrip p = None ->
  (exists m, m ∈ renderPoints p s /\ key m = key_dest_at i)
  <-> (exists t, trips p !! i = Some t /\ visible s t).
Proof.
  intros Hh. unfold renderPoints. rewrite Hh.
  assert (Hv : (match viewMode p with
                | routes | visited => destinationMarkers s 0 (trips p)
                end) = destinationMarkers s 0 (trips p))
    by (destruct (viewMode p); reflexivity).
  rewrite Hv, destinationMarkers_spec. rewrite Nat.sub_0_r.
  split; intros (t & H); exists t; intuition lia.
Qed.
End MarkerFacts.

(** C6. With no highlighted trip (the view mode being 'routes' or
    'visited'), and the view center and the screen position of the
    destination of trip [i] defined, the marker [dest-i] is rendered if
    and only if the great-circle distance from that destination to the
    view center is strictly below pi / 2; at distance pi / 2 and at
    distance pi (the antipode) it is not.  A rendered marker always has a
    view center less than a quarter turn away. *)
Theorem destination_marker_iff_visible {ext : Externals} {dom : DOM}
    (p : Props) (s : State) (i : nat) (t : Trip) :
  highlightTrip p = None ->
  trips p !! i = Some t ->
  let dest := point_of (destination t) in
  let emitted := exists m, m ∈ renderPoints p s /\ key m = key_dest_at i in
  (forall c d,
      invert (projection s)
        (width (dimensions s) / 2, height (dimensions s) / 2) = Some c ->
      project (projection s) dest = Some d ->
      (emitted <-> geoDistance dest c < Math_PI / 2)
      /\ (geoDistance dest c == Math_PI / 2 -> ~ emitted)
      /\ (geoDistance dest c == Math_PI -> ~ emitted))
  /\ (emitted ->
      exists c,
        invert (projection s)
          (width (dimensions s) / 2, height (dimensions s) / 2) = Some c
        /\ geoDistance dest c < Math_PI / 2).
Proof.
  intros Hh Ht dest emitted.
  assert (He : emitted <-> visible s t).
  { unfold emitted. rewrite (renderPoints_dest p s i Hh). split.
    - intros (t' & Ht' & Hv). congruence.
    - intros Hv. eauto. }
  split.
  - intros c d Hc Hd.
    assert (Hiff : emitted <-> geoDistance dest c < Math_PI / 2).
    { rewrite He. unfold visible. fold dest. split.
      - intros (c' & d' & Hc' & Hd' & Hlt). congruence.
      - intros Hlt. eauto. }
    split; [exact Hiff|]. split; intros Heq Hem; apply Hiff in Hem;
      rewrite Heq in Hem.
    + apply (Qlt_irrefl _ Hem).
    + revert Hem. unfold Math_PI. apply Qle_not_lt. discriminate.
  - intros Hem. apply He in Hem as (c & d & Hc & Hd & Hlt). eauto.
Qed.

Lemma destination_marker_iff_visible_witness :
  highlightTrip (globe [short] None) = None
  /\ trips (globe [short] None) !! 0%nat = Some short
  /\ exists m, m ∈ renderPoints (ext := equator) (dom := capture_lists)
                    (globe [short] None) initialState
               /\ key m = key_dest_at 0.
Proof.
  split; [reflexivity|]. split; [reflexivity|].
  eapply (proj1 (destination_marker_iff_visible (ext := equator)
                   (globe [short] None) initialState 0%nat short
                   eq_refl eq_refl)).
  - reflexivity.
  - reflexivity.
  - vm_compute. reflexivity.
Defined.

(** A destination a quarter turn from the view center is left out. *)
Example quarter_turn_not_rendered :
  renderPoints (ext := equator) (dom := capture_lists)
    (globe [quarter] None) initialState = [].
Proof. vm_compute. reflexivity. Qed.

(** ** The geometry loader *)

Module LoaderFacts.
Import Loader.

Section Facts.
Context {Geometry : Type}.
Implicit Types (w : World Geometry) (c i : nat).

Lemma inFlight_lt w c : inFlight w c -> (c < length (chains w))%nat.
Proof. intros [ws H]. eapply lookup_lt_Some, H. Qed.

Lemma mount_single_flight w i : single_flight w -> single_flight (mount w i).
Proof.
  intros Hw c [ws Hc]. unfold mount in *.
  destruct (cachedWorldData w) as [data|] eqn:Hcache.
  - simpl in *. destruct (Hw c) as [_ Hn]; [eexists; eauto|]. congruence.
  - unfold subscribe, ensureFetch in *.
    destruct (dataFetchPromise w) as [c0|] eqn:Hp; simpl in *.
    + rewrite Hp in *.
      destruct (chains w !! c0) as [[ws0|[d|]]|] eqn:Hc0; simpl in *;
        rewrite ?Hp, ?Hcache;
        try (destruct (Hw c) as [? ?]; [eexists; eauto|]; split; congruence).
      destruct (decide (c = c0)) as [->|Hne]; [split; reflexivity|].
      rewrite list_lookup_insert_ne in Hc by congruence.
      destruct (Hw c) as [? ?]; [eexists; eauto|]. congruence.
    + rewrite lookup_app_r, Nat.sub_diag in * by lia. simpl in *.
      rewrite Hcache.
      destruct (decide (c = length (chains w))) as [->|Hne];
        [split; reflexivity|].
      rewrite list_lookup_insert_ne in Hc by congruence.
      destruct (decide (c < length (chains w))%nat) as [Hlt|Hge].
      * rewrite lookup_app_l in Hc by exact Hlt.
        destruct (Hw c) as [? ?]; [eexists; eauto|]. congruence.
      * apply lookup_lt_Some in Hc. rewrite length_app in Hc.
        simpl in Hc. lia.
Qed.

Lemma settle_single_flight w c result :
  single_flight w -> single_flight (settle w c result).
Proof.
  intros Hw c' [ws Hc']. unfold settle in *.
  destruct (chains w !! c) as [[ws0|d]|] eqn:Hc;
    try (apply Hw; eexists; eauto).
  destruct (decide (c' = c)) as [->|Hne].
  - destruct result; simpl in Hc';
      rewrite list_lookup_insert_eq in Hc'
        by (eapply lookup_lt_Some, Hc); discriminate.
  - destruct (Hw c) as [Hp _]; [eexists; eauto|].
    destruct result; simpl in Hc';
      rewrite list_lookup_insert_ne in Hc' by congruence;
      (destruct (Hw c') as [Hp' _]; [eexists; eauto|]); congruence.
Qed.

Lemma reachable_single_flight w : reachable w -> single_flight w.
Proof.
  induction 1 as [|w ev Hr IH].
  - intros c [ws H]. discriminate.
  - destruct ev; simpl;
      auto using mount_single_flight, settle_single_flight.
Qed.

Lemma fetches_mount w i :
  fetches (mount w i) =
    match cachedWorldData w, dataFetchPromise w with
    | None, None => S (fetches w)
    | _, _ => fetches w
    end.
Proof.
  unfold mount, subscribe, ensureFetch, fetches.
  destruct (cachedWorldData w); [reflexivity|].
  destruct (dataFetchPromise w) as [c0|] eqn:Hp; simpl.
  - rewrite Hp. destruct (chains w !! c0) as [[ws0|[d|]]|]; simpl;
      rewrite ?length_insert; reflexivity.
  - rewrite lookup_app_r, Nat.sub_diag by lia. simpl.
    rewrite length_insert, length_app. simpl. lia.
Qed.
End Facts.
End LoaderFacts.

(** C8. In every state the loader can reach: at most one chain is in
    flight; a mount while one is in flight does not fetch; a mount that
    finds the cache filled hands the cached geometry over without a
    fetch; a mount that finds the cache empty and [dataFetchPromise] set
    does not fetch and waits on that very promise; when the chain in
    flight fails, [dataFetchPromise] is null again and the next mount
    fetches; and two mounts in a row from the start make exactly one
    fetch, on which both wait. *)
Theorem geometry_fetched_once {Geometry : Type}
    (w : Loader.World Geometry) (i : nat) :
  Loader.reachable w ->
  (forall c1 c2, Loader.inFlight w c1 -> Loader.inFlight w c2 -> c1 = c2)
  /\ ((exists c, Loader.inFlight w c) ->
      Loader.fetches (Loader.mount w i) = Loader.fetches w)
  /\ (forall data,
        Loader.cachedWorldData w = Some data ->
        Loader.fetches (Loader.mount w i) = Loader.fetches w
        /\ Loader.delivered (Loader.mount w i) = Loader.delivered w ++ [(i, data)])
  /\ (forall c,
        Loader.cachedWorldData w = None ->
        Loader.dataFetchPromise w = Some c ->
        Loader.fetches (Loader.mount w i) = Loader.fetches w
        /\ Loader.dataFetchPromise (Loader.mount w i) = Some c
        /\ forall waiting,
             Loader.chains w !! c = Some (Loader.InFlight waiting) ->
             Loader.chains (Loader.mount w i) !! c
             = Some (Loader.InFlight (waiting ++ [i])))
  /\ (forall c,
        Loader.inFlight w c ->
        Loader.dataFetchPromise (Loader.settle w c None) = None
        /\ Loader.fetches (Loader.mount (Loader.settle w c None) i)
           = S (Loader.fetches w))
  /\ (forall j,
        let w0 : Loader.World Geometry := Loader.initialWorld in
        Loader.fetches (Loader.mount (Loader.mount w0 i) j) = 1%nat
        /\ Loader.chains (Loader.mount (Loader.mount w0 i) j)
           = [Loader.InFlight [i; j]]).
Proof.
  intros Hr. pose proof (LoaderFacts.reachable_single_flight w Hr) as Hsf.
  repeat apply conj.
  - intros c1 c2 H1 H2.
    destruct (Hsf c1 H1) as [E1 _], (Hsf c2 H2) as [E2 _]. congruence.
  - intros [c Hc]. destruct (Hsf c Hc) as [Hp Hn].
    rewrite LoaderFacts.fetches_mount, Hp, Hn. reflexivity.
  - intros data Hd. rewrite LoaderFacts.fetches_mount, Hd.
    split; [reflexivity|]. unfold Loader.mount. rewrite Hd. reflexivity.
  - intros c Hn Hp. rewrite LoaderFacts.fetches_mount, Hn, Hp.
    split; [reflexivity|].
    unfold Loader.mount, Loader.subscribe, Loader.ensureFetch.
    rewrite Hn, Hp. simpl. rewrite Hp. split.
    + destruct (Loader.chains w !! c) as [[ws|[d|]]|]; simpl;
        first [exact Hp | reflexivity].
    + intros waiting Hc. rewrite Hc. simpl.
      apply list_lookup_insert_eq. eapply lookup_lt_Some, Hc.
  - intros c Hc. destruct (Hsf c Hc) as [Hp Hn]. destruct Hc as [ws Hc].
    assert (Hs : Loader.settle w c None
                 = {| Loader.cachedWorldData := Loader.cachedWorldData w;
                      Loader.dataFetchPromise := None;
                      Loader.chains := <[c := Loader.Settled None]> (Loader.chains w);
                      Loader.delivered := Loader.delivered w |}).
    { unfold Loader.settle. rewrite Hc. reflexivity. }
    rewrite Hs. split; [reflexivity|].
    rewrite LoaderFacts.fetches_mount. simpl. rewrite Hn.
    unfold Loader.fetches. simpl. rewrite length_insert. reflexivity.
  - intros j. split; reflexivity.
Qed.

Lemma geometry_fetched_once_witness :
  Loader.fetches (Loader.mount (Loader.mount (@Loader.initialWorld string) 1) 2)
  = 1%nat.
Proof.
  apply (geometry_fetched_once (@Loader.initialWorld string) 1
           Loader.reachable_init).
Defined.

(** Two mounts, a failure, a third mount that fetches again, and the
    success that serves the instance that waited for it. *)
Example retry_after_failure :
  let w := foldl Loader.step (@Loader.initialWorld string)
             [Loader.Mount 1%nat; Loader.Mount 2%nat; Loader.Settle 0%nat None;
              Loader.Mount 3%nat; Loader.Settle 1%nat (Some "land"%string)] in
  Loader.fetches w = 2%nat
  /\ Loader.cachedWorldData w = Some "land"%string
  /\ Loader.delivered w = [(3%nat, "land"%string)].
Proof. repeat split. Qed.

(** ** Counting locations *)

Section DictFacts.
Context {V : Type}.
Implicit Types (o : Obj.t V) (k : string) (v : V).

Lemma set_absent o k v :
  Obj.get_own o k = None -> Obj.set o k v = o ++ [(k, v)].
Proof.
  induction o as [|[k' v'] o IH]; simpl; [reflexivity|].
  destruct (String.eqb k' k); [discriminate|].
  intros H. rewrite IH by exact H. reflexivity.
Qed.

Lemma get_own_set o k v : Obj.get_own (Obj.set o k v) k = Some v.
Proof.
  induction o as [|[k' v'] o IH]; simpl.
  - rewrite String.eqb_refl. reflexivity.
  - destruct (String.eqb k' k) eqn:E; simpl; rewrite E; [reflexivity|exact IH].
Qed.

Lemma set_set o k v v' : Obj.set (Obj.set o k v) k v' = Obj.set o k v'.
Proof.
  induction o as [|[k' w] o IH]; simpl.
  - rewrite String.eqb_refl. reflexivity.
  - destruct (String.eqb k' k) eqn:E; simpl; rewrite E; [reflexivity|].
    rewrite IH. reflexivity.
Qed.

Lemma elem_of_insert_index (x y : N * V) (l : list (N * V)) :
  x ∈ Obj.insert_index y l <-> x = y \/ x ∈ l.
Proof.
  induction l as [|z l IH]; simpl.
  - rewrite list_elem_of_singleton. split; [tauto|].
    intros [H|H]; [exact H|]. apply elem_of_nil in H. destruct H.
  - destruct (_ <=? _)%N.
    + rewrite elem_of_cons. reflexivity.
    + rewrite !elem_of_cons, IH. tauto.
Qed.
End DictFacts.

Lemma StronglySorted_app_cross {A} (R : A -> A -> Prop) (l1 l2 : list A) :
  StronglySorted R (l1 ++ l2) ->
  forall a b, a ∈ l1 -> b ∈ l2 -> R a b.
Proof.
  induction l1 as [|x l1 IH]; simpl; intros Hs a b Ha Hb.
  - apply elem_of_nil in Ha. destruct Ha.
  - apply StronglySorted_inv in Hs as [Hs Hx].
    apply elem_of_cons in Ha as [->|Ha]; [|eapply IH; eauto].
    rewrite Forall_forall in Hx. apply Hx. apply elem_of_app. right. exact Hb.
Qed.

Implicit Types (ls fs : list LocationData) (l f : LocationData).

Ltac refold_fmap :=
  repeat match goal with
  | |- context [list_fmap ?A ?B ?g ?xs] =>
      change (list_fmap A B g xs) with (g <$> xs)
  end.

Lemma countLocation_own locCounts l :
  name l ∉ Obj.proto_keys ->
  countLocation locCounts l =
    match Obj.get_own locCounts (name l) with
    | Some lc =>
        Obj.set locCounts (name l)
          {| lc_count := lc_count lc + 1; lc_coords := lc_coords lc |}
    | None =>
        locCounts ++ [(name l, {| lc_count := 1; lc_coords := point_of l |})]
    end.
Proof.
  intros Hk. unfold countLocation, Obj.absent, Obj.get.
  rewrite (bool_decide_eq_false_2 _ Hk).
  destruct (Obj.get_own locCounts (name l)) as [lc|] eqn:Hg.
  - rewrite Hg. reflexivity.
  - rewrite get_own_set, set_set. apply set_absent, Hg.
Qed.

Lemma tally_snoc k ls l :
  tally k (ls ++ [l]) = (tally k ls + (if decide (name l = k) then 1 else 0))%nat.
Proof.
  unfold tally. rewrite filter_app, length_app. f_equal.
  rewrite filter_cons, filter_nil. destruct (decide (name l = k)); reflexivity.
Qed.

Lemma tally_absent k ls : k ∉ name <$> ls -> tally k ls = 0%nat.
Proof.
  unfold tally. induction ls as [|l ls IH]; intros Hk; [reflexivity|].
  rewrite fmap_cons, not_elem_of_cons in Hk. destruct Hk as [Hne Hk].
  rewrite filter_cons_False by congruence. apply IH, Hk.
Qed.

Lemma tally_present l ls : l ∈ ls -> (0 < tally (name l) ls)%nat.
Proof.
  unfold tally. induction ls as [|l' ls IH]; intros Hin.
  - apply elem_of_nil in Hin. destruct Hin.
  - destruct (decide (name l' = name l)) as [E|E].
    + rewrite filter_cons_True by exact E. simpl. lia.
    + rewrite filter_cons_False by exact E.
      apply elem_of_cons in Hin as [->|Hin]; [congruence|]. apply IH, Hin.
Qed.

Lemma firsts_snoc ls l : firsts (ls ++ [l]) = addFirst (firsts ls) l.
Proof. unfold firsts. rewrite fold_left_app. reflexivity. Qed.

Lemma names_firsts ls k : k ∈ name <$> firsts ls <-> k ∈ name <$> ls.
Proof.
  induction ls as [|l ls IH] using rev_ind; [reflexivity|].
  rewrite firsts_snoc, fmap_app, elem_of_app. unfold addFirst.
  simpl. rewrite list_elem_of_singleton.
  destruct (bool_decide _) eqn:Hb.
  - apply bool_decide_eq_true in Hb. rewrite IH. split; [tauto|].
    intros [H| ->]; [exact H|]. apply IH, Hb.
  - rewrite fmap_app, elem_of_app. simpl. rewrite list_elem_of_singleton.
    rewrite IH. reflexivity.
Qed.

Lemma firsts_subset ls f : f ∈ firsts ls -> f ∈ ls.
Proof.
  revert f. induction ls as [|l ls IH] using rev_ind; intros f; [trivial|].
  rewrite firsts_snoc. unfold addFirst. rewrite elem_of_app.
  destruct (bool_decide _).
  - intros H. left. apply IH, H.
  - rewrite elem_of_app. intros [H|H]; [left; apply IH, H|right; exact H].
Qed.

Lemma NoDup_firsts ls : NoDup (name <$> firsts ls).
Proof.
  induction ls as [|l ls IH] using rev_ind; [constructor|].
  rewrite firsts_snoc. unfold addFirst.
  destruct (bool_decide _) eqn:Hb; [exact IH|].
  apply bool_decide_eq_false in Hb.
  rewrite fmap_app. apply NoDup_app. split; [exact IH|]. split.
  - intros k Hk Hk'. simpl in Hk'. apply list_elem_of_singleton in Hk'.
    subst k. contradiction.
  - simpl. apply NoDup_singleton.
Qed.

Lemma get_own_entries_None ls fs k :
  Obj.get_own (entry ls <$> fs) k = None <-> k ∉ name <$> fs.
Proof.
  induction fs as [|f fs IH]; simpl.
  - split; [intros _ H; apply elem_of_nil in H; exact H|reflexivity].
  - rewrite not_elem_of_cons. destruct (String.eqb (name f) k) eqn:E.
    + apply String.eqb_eq in E. split; [discriminate|]. intros [H _]. congruence.
    + apply String.eqb_neq in E. rewrite IH. split; [|tauto].
      intros H. split; [congruence|exact H].
Qed.

Lemma entries_unchanged ls l fs :
  name l ∉ name <$> fs -> entry (ls ++ [l]) <$> fs = entry ls <$> fs.
Proof.
  intros Hk. apply list_fmap_ext. intros i f Hf. unfold entry.
  rewrite tally_snoc. rewrite decide_False; [rewrite Nat.add_0_r; reflexivity|].
  intros E. apply Hk. rewrite E. apply list_elem_of_fmap_2.
  eapply list_elem_of_lookup_2, Hf.
Qed.

Lemma entries_counted ls l fs :
  NoDup (name <$> fs) ->
  name l ∈ name <$> fs ->
  match Obj.get_own (entry ls <$> fs) (name l) with
  | Some lc =>
      Obj.set (entry ls <$> fs) (name l)
        {| lc_count := lc_count lc + 1; lc_coords := lc_coords lc |}
  | None => entry ls <$> fs
  end = entry (ls ++ [l]) <$> fs.
Proof.
  induction fs as [|f fs IH]; intros Hnd Hin.
  - apply elem_of_nil in Hin. destruct Hin.
  - rewrite fmap_cons in Hnd. apply NoDup_cons in Hnd as [Hf Hnd].
    simpl. destruct (String.eqb (name f) (name l)) eqn:E.
    + apply String.eqb_eq in E. simpl. refold_fmap.
      rewrite entries_unchanged by (rewrite <- E; exact Hf).
      f_equal. unfold entry. rewrite tally_snoc, decide_True by congruence.
      f_equal. f_equal. lia.
    + pose proof E as E'. apply String.eqb_neq in E'.
      rewrite fmap_cons in Hin. apply elem_of_cons in Hin as [Hin|Hin];
        [congruence|].
      destruct (Obj.get_own (entry ls <$> fs) (name l)) as [lc|] eqn:Hg.
      * simpl. refold_fmap. rewrite Hg, (IH Hnd Hin).
        f_equal. unfold entry. rewrite tally_snoc, decide_False by congruence.
        rewrite Nat.add_0_r. reflexivity.
      * apply get_own_entries_None in Hg. contradiction.
Qed.

Lemma fold_countLocation ls :
  (forall l, l ∈ ls -> name l ∉ Obj.proto_keys) ->
  fold_left countLocation ls Obj.empty = entry ls <$> firsts ls.
Proof.
  induction ls as [|l ls IH] using rev_ind; intros Hown; [reflexivity|].
  rewrite fold_left_app. simpl. rewrite IH
    by (intros l' Hl'; apply Hown, elem_of_app; left; exact Hl').
  rewrite countLocation_own by (apply Hown, elem_of_app; right; constructor).
  rewrite firsts_snoc. unfold addFirst.
  destruct (bool_decide _) eqn:Hb.
  - apply bool_decide_eq_true in Hb.
    pose proof (entries_counted ls l (firsts ls) (NoDup_firsts ls) Hb) as Hc.
    destruct (Obj.get_own _ _) as [lc|] eqn:Hg; [exact Hc|].
    apply get_own_entries_None in Hg. contradiction.
  - apply bool_decide_eq_false in Hb.
    rewrite (proj2 (get_own_entries_None ls (firsts ls) (name l)) Hb).
    rewrite fmap_app, entries_unchanged by exact Hb. f_equal.
    simpl. unfold entry. rewrite tally_snoc, decide_True by reflexivity.
    rewrite tally_absent by (rewrite <- names_firsts; exact Hb).
    reflexivity.
Qed.

Lemma fold_countTrip ts locCounts :
  fold_left countTrip ts locCounts
  = fold_left countLocation (locations ts) locCounts.
Proof.
  revert locCounts. induction ts as [|t ts IH]; intros locCounts;
    [reflexivity|].
  simpl. rewrite IH. reflexivity.
Qed.

(** ** The most visited location *)


Lemma firsts_decomp ls :
  forall A f B,
    firsts ls = A ++ f :: B ->
    exists before after,
      ls = before ++ f :: after
      /\ forall l', l' ∈ before -> name l' ∈ name <$> A.
Proof.
  induction ls as [|l ls IH] using rev_ind; intros A f B Hf.
  - destruct A; discriminate.
  - rewrite firsts_snoc in Hf. unfold addFirst in Hf.
    destruct (bool_decide _) eqn:Hb.
    + destruct (IH A f B Hf) as (before & after & -> & Hbefore).
      exists before, (after ++ [l]). split; [|exact Hbefore].
      rewrite <- app_assoc. reflexivity.
    + induction B as [|b B _] using rev_ind.
      * apply app_inj_tail in Hf as [<- <-].
        exists ls, []. split; [reflexivity|].
        intros l' Hl'. apply names_firsts. apply list_elem_of_fmap_2, Hl'.
      * rewrite app_comm_cons, app_assoc in Hf.
        apply app_inj_tail in Hf as [Hf <-].
        destruct (IH A f B Hf) as (before & after & -> & Hbefore).
        exists before, (after ++ [l]). split; [|exact Hbefore].
        rewrite <- app_assoc. reflexivity.
Qed.

Lemma fold_betterLoc vs top :
  let r := fold_left betterLoc vs top in
  (r = top /\ forall v, v ∈ vs -> (lc_count v <= lc_count top)%Z)
  \/ (exists A B,
        vs = A ++ r :: B
        /\ (lc_count top < lc_count r)%Z
        /\ (forall v, v ∈ A -> (lc_count v < lc_count r)%Z)
        /\ (forall v, v ∈ B -> (lc_count v <= lc_count r)%Z)).
Proof.
  revert top. induction vs as [|v vs IH]; intros top; cbn [fold_left].
  - left. split; [reflexivity|]. intros v Hv. apply elem_of_nil in Hv. destruct Hv.
  - assert (Hb : betterLoc top v
                 = if (lc_count top <? lc_count v)%Z then v else top)
      by reflexivity.
    destruct (Z.ltb_spec (lc_count top) (lc_count v)) as [Hlt|Hge];
      rewrite Hb; clear Hb; cbv zeta.
    + right. destruct (IH v) as [[Hr Hall]|(A & B & Hvs & Hv & HA & HB)].
      * exists [], vs. cbv zeta in Hr. rewrite Hr. split; [reflexivity|].
        split; [exact Hlt|]. split; [|exact Hall].
        intros v' Hv'. apply elem_of_nil in Hv'. destruct Hv'.
      * exists (v :: A), B. split; [simpl; f_equal; exact Hvs|].
        split; [lia|]. split; [|exact HB].
        intros v' Hv'. apply elem_of_cons in Hv' as [->|Hv'];
          [exact Hv|apply HA, Hv'].
    + destruct (IH top) as [[Hr Hall]|(A & B & Hvs & Hv & HA & HB)].
      * left. split; [exact Hr|].
        intros v' Hv'. apply elem_of_cons in Hv' as [->|Hv'];
          [exact Hge|apply Hall, Hv'].
      * right. exists (v :: A), B. split; [simpl; f_equal; exact Hvs|].
        split; [exact Hv|]. split; [|exact HB].
        intros v' Hv'. apply elem_of_cons in Hv' as [->|Hv'];
          [lia|apply HA, Hv'].
Qed.

Lemma fold_betterLoc_member vs top :
  fold_left betterLoc vs top = top \/ fold_left betterLoc vs top ∈ vs.
Proof.
  destruct (fold_betterLoc vs top) as [[Hr _]|(A & B & Hvs & _)];
    [left; exact Hr|right].
  rewrite Hvs at 2. apply elem_of_app. right. apply list_elem_of_here.
Qed.

(** *** Array indices are written in one way *)

Lemma digit_of_inj a b d :
  Obj.digit_of a = Some d -> Obj.digit_of b = Some d -> a = b.
Proof.
  unfold Obj.digit_of. intros Ha Hb.
  destruct ((48 <=? N_of_ascii a) && (N_of_ascii a <=? 57))%N eqn:Ea;
    [|discriminate Ha].
  destruct ((48 <=? N_of_ascii b) && (N_of_ascii b <=? 57))%N eqn:Eb;
    [|discriminate Hb].
  apply andb_true_iff in Ea as [Ea _]. apply andb_true_iff in Eb as [Eb _].
  apply N.leb_le in Ea, Eb.
  injection Ha as Ha. injection Hb as Hb.
  assert (E : N_of_ascii a = N_of_ascii b) by lia.
  rewrite <- (ascii_N_embedding a), <- (ascii_N_embedding b), E. reflexivity.
Qed.

Lemma digit_of_lt a d : Obj.digit_of a = Some d -> (d < 10)%N.
Proof.
  unfold Obj.digit_of.
  destruct ((48 <=? N_of_ascii a) && (N_of_ascii a <=? 57))%N eqn:Ea;
    [|discriminate].
  apply andb_true_iff in Ea as [_ Ea]. apply N.leb_le in Ea.
  intros [= <-]. lia.
Qed.

Lemma digits_value_bounds s : forall acc n,
  Obj.digits_value acc s = Some n ->
  (acc * 10 ^ N.of_nat (String.length s) <= n
   < (acc + 1) * 10 ^ N.of_nat (String.length s))%N.
Proof.
  induction s as [|a s IH]; intros acc n H; simpl in H.
  - injection H as <-. simpl. lia.
  - destruct (Obj.digit_of a) as [d|] eqn:Ed; [|discriminate H].
    apply digit_of_lt in Ed. apply IH in H.
    cbn [String.length]. rewrite Nat2N.inj_succ, N.pow_succ_r'.
    set (P := (10 ^ N.of_nat (String.length s))%N) in *. nia.
Qed.

Lemma digits_value_inj s : forall s' acc acc' n,
  String.length s = String.length s' ->
  Obj.digits_value acc s = Some n ->
  Obj.digits_value acc' s' = Some n ->
  acc = acc' /\ s = s'.
Proof.
  induction s as [|a s IH]; intros [|a' s'] acc acc' n Hl H H';
    try discriminate Hl; simpl in H, H'.
  - split; [congruence|reflexivity].
  - destruct (Obj.digit_of a) as [d|] eqn:Ed; [|discriminate H].
    destruct (Obj.digit_of a') as [d'|] eqn:Ed'; [|discriminate H'].
    injection Hl as Hl.
    destruct (IH s' _ _ n Hl H H') as [Hacc ->].
    pose proof (digit_of_lt _ _ Ed). pose proof (digit_of_lt _ _ Ed').
    assert (acc = acc' /\ d = d') as [-> ->] by lia.
    split; [reflexivity|]. f_equal. eapply digit_of_inj; eassumption.
Qed.

Lemma array_index_unfold a s :
  Obj.array_index (String a s)
  = if Ascii.eqb a "0"
    then match s with EmptyString => Some 0%N | _ => None end
    else match Obj.digits_value 0 (String a s) with
         | Some n => if (n <? 2 ^ 32 - 1)%N then Some n else None
         | None => None
         end.
Proof.
  destruct a as [[] [] [] [] [] [] [] []]; reflexivity.
Qed.

Lemma array_index_inj k k' n :
  Obj.array_index k = Some n -> Obj.array_index k' = Some n -> k = k'.
Proof.
  assert (Hlead : forall a s m,
             Ascii.eqb a "0" = false ->
             Obj.digits_value 0 (String a s) = Some m ->
             (10 ^ N.of_nat (String.length s) <= m
              < 10 ^ N.of_nat (S (String.length s)))%N).
  { intros a s m Ha H. simpl in H.
    destruct (Obj.digit_of a) as [d|] eqn:Ed; [|discriminate H].
    assert (Hd : (1 <= d < 10)%N).
    { split; [|eapply digit_of_lt, Ed].
      destruct (N.eq_dec d 0%N) as [->|]; [|lia].
      assert (a = "0"%char) by (eapply digit_of_inj; [exact Ed|reflexivity]).
      subst a. discriminate Ha. }
    apply digits_value_bounds in H.
    rewrite Nat2N.inj_succ, N.pow_succ_r'.
    set (P := (10 ^ N.of_nat (String.length s))%N) in *. nia. }
  assert (Hcanon : forall k m,
             Obj.array_index k = Some m ->
             (k = "0"%string /\ m = 0%N)
             \/ exists a s, k = String a s /\ Ascii.eqb a "0" = false
                            /\ Obj.digits_value 0 k = Some m).
  { intros [|a s] m H; [discriminate H|].
    rewrite array_index_unfold in H.
    destruct (Ascii.eqb a "0") eqn:Ea.
    - apply Ascii.eqb_eq in Ea. subst a.
      destruct s; [|discriminate H]. injection H as <-. left. auto.
    - right. exists a, s. split; [reflexivity|]. split; [exact Ea|].
      destruct (Obj.digits_value 0 (String a s)) as [m'|]; [|discriminate H].
      destruct (m' <? 2 ^ 32 - 1)%N; [|discriminate H]. exact H. }
  intros H H'.
  destruct (Hcanon _ _ H) as [[-> ->]|(a & s & -> & Ha & Hv)];
    destruct (Hcanon _ _ H') as [[-> Hn]|(a' & s' & -> & Ha' & Hv')].
  - reflexivity.
  - apply Hlead in Hv'; [|exact Ha'].
    assert (0 < 10 ^ N.of_nat (String.length s'))%N
      by (apply N.neq_0_lt_0, N.pow_nonzero; discriminate).
    lia.
  - subst n. apply Hlead in Hv; [|exact Ha].
    assert (0 < 10 ^ N.of_nat (String.length s))%N
      by (apply N.neq_0_lt_0, N.pow_nonzero; discriminate).
    lia.
  - pose proof (Hlead _ _ _ Ha Hv) as Hb.
    pose proof (Hlead _ _ _ Ha' Hv') as Hb'.
    assert (Hlen : String.length s = String.length s').
    { destruct (Nat.lt_trichotomy (String.length s) (String.length s'))
        as [Hlt|[E|Hlt]]; [exfalso|exact E|exfalso].
      - assert (10 ^ N.of_nat (S (String.length s))
                <= 10 ^ N.of_nat (String.length s'))%N
          by (apply N.pow_le_mono_r; lia).
        lia.
      - assert (10 ^ N.of_nat (S (String.length s'))
                <= 10 ^ N.of_nat (String.length s))%N
          by (apply N.pow_le_mono_r; lia).
        lia. }
    destruct (digits_value_inj (String a s) (String a' s') 0%N 0%N n) as [_ E];
      [simpl; f_equal; exact Hlen|exact Hv|exact Hv'|exact E].
Qed.

(** *** What [locCounts] holds, for all names *)

Lemma tally_stored k (ls : list LocationData) :
  k ∉ Obj.proto_keys -> tally k (stored ls) = tally k ls.
Proof.
  intros Hk. unfold tally, stored.
  induction ls as [|l ls IH]; [reflexivity|].
  destruct (decide (name l ∉ Obj.proto_keys)) as [Hl|Hl].
  - rewrite (filter_cons_True (fun l => name l ∉ Obj.proto_keys)) by exact Hl.
    destruct (decide (name l = k)) as [E|E].
    + rewrite !(filter_cons_True (fun l => name l = k)) by exact E.
      simpl. rewrite IH. reflexivity.
    + rewrite !(filter_cons_False (fun l => name l = k)) by exact E.
      exact IH.
  - rewrite (filter_cons_False (fun l => name l ∉ Obj.proto_keys)) by exact Hl.
    rewrite (filter_cons_False (fun l => name l = k)); [exact IH|].
    intros E. apply Hl. rewrite E. exact Hk.
Qed.

Lemma elem_of_stored (l : LocationData) (ls : list LocationData) :
  l ∈ stored ls <-> (name l ∉ Obj.proto_keys) /\ l ∈ ls.
Proof.
  unfold stored.
  apply (list_elem_of_filter (fun l => name l ∉ Obj.proto_keys)).
Qed.

Lemma countLocation_inherited locCounts (l : LocationData) :
  name l ∈ Obj.proto_keys ->
  Obj.get_own locCounts (name l) = None ->
  countLocation locCounts l = locCounts.
Proof.
  intros Hk Hg. unfold countLocation, Obj.absent, Obj.get.
  rewrite Hg, (bool_decide_eq_true_2 _ Hk).
  rewrite ?Hg, ?(bool_decide_eq_true_2 _ Hk). reflexivity.
Qed.

Lemma fold_countLocation_stored (ls : list LocationData) :
  fold_left countLocation ls Obj.empty = entry ls <$> firsts (stored ls).
Proof.
  induction ls as [|l ls IH] using rev_ind; [reflexivity|].
  rewrite fold_left_app. simpl. rewrite IH.
  unfold stored. rewrite filter_app. fold (stored ls).
  destruct (decide (name l ∉ Obj.proto_keys)) as [Hl|Hl].
  - rewrite filter_cons_True, filter_nil by exact Hl.
    rewrite countLocation_own by exact Hl.
    rewrite firsts_snoc. unfold addFirst.
    destruct (bool_decide _) eqn:Hb.
    + apply bool_decide_eq_true in Hb.
      pose proof (entries_counted ls l (firsts (stored ls))
                    (NoDup_firsts _) Hb) as Hc.
      destruct (Obj.get_own _ _) as [lc|] eqn:Hg; [exact Hc|].
      apply get_own_entries_None in Hg. contradiction.
    + apply bool_decide_eq_false in Hb.
      rewrite (proj2 (get_own_entries_None ls (firsts (stored ls)) (name l)) Hb).
      rewrite fmap_app, entries_unchanged by exact Hb. f_equal.
      simpl. unfold entry. rewrite tally_snoc, decide_True by reflexivity.
      rewrite <- (tally_stored (name l) ls Hl).
      rewrite tally_absent by (rewrite <- names_firsts; exact Hb).
      reflexivity.
  - rewrite filter_cons_False, filter_nil, app_nil_r by exact Hl.
    assert (Hk : name l ∈ Obj.proto_keys)
      by (destruct (decide (name l ∈ Obj.proto_keys)); [assumption|contradiction]).
    assert (Hn : name l ∉ name <$> firsts (stored ls)).
    { rewrite names_firsts. intros Hin.
      apply list_elem_of_fmap in Hin as (l' & E & Hin).
      apply elem_of_stored in Hin as [Hin _]. apply Hin. rewrite <- E. exact Hk. }
    rewrite countLocation_inherited
      by first [exact Hk | apply get_own_entries_None; exact Hn].
    symmetry. apply entries_unchanged, Hn.
Qed.

(** *** The first maximum of a list *)

Lemma fold_first_max {X} (g : X -> LocCount) (xs : list X) (top : LocCount) :
  let r := fold_left betterLoc (g <$> xs) top in
  (r = top /\ forall x, x ∈ xs -> (lc_count (g x) <= lc_count top)%Z)
  \/ (exists A x B,
        xs = A ++ x :: B /\ r = g x
        /\ (lc_count top < lc_count (g x))%Z
        /\ (forall a, a ∈ A -> (lc_count (g a) < lc_count (g x))%Z)
        /\ (forall b, b ∈ B -> (lc_count (g b) <= lc_count (g x))%Z)).
Proof.
  intros r. destruct (fold_betterLoc (g <$> xs) top)
    as [[Hr Hall]|(A & B & Hvs & Hv & HA & HB)]; fold r in Hr || fold r in Hvs.
  - left. split; [exact Hr|]. intros x Hx.
    apply Hall, list_elem_of_fmap_2, Hx.
  - right. fold r in Hv, HA, HB.
    apply fmap_app_inv in Hvs as (A0 & B1 & HA0 & HB1 & ->).
    symmetry in HB1. apply fmap_cons_inv in HB1 as (x & B0 & Hx & HB0 & ->).
    exists A0, x, B0. split; [reflexivity|]. split; [exact Hx|].
    rewrite <- Hx. split; [exact Hv|]. split.
    + intros a Ha. apply HA. rewrite HA0. apply list_elem_of_fmap_2, Ha.
    + intros b Hb. apply HB. rewrite HB0. apply list_elem_of_fmap_2, Hb.
Qed.

Lemma split_unique {X} (b1 a1 b2 a2 : list X) (x y : X) :
  b1 ++ x :: a1 = b2 ++ y :: a2 -> x ∉ b2 -> y ∉ b1 -> x = y.
Proof.
  revert b2. induction b1 as [|z b1 IH]; intros [|z' b2] E Hx Hy; simpl in E.
  - congruence.
  - injection E as -> _. exfalso. apply Hx. apply list_elem_of_here.
  - injection E as -> _. exfalso. apply Hy. apply list_elem_of_here.
  - injection E as _ E. rewrite not_elem_of_cons in Hx, Hy.
    apply (IH b2 E); tauto.
Qed.

Lemma filter_split {X} (P : X -> Prop) `{!forall x, Decision (P x)}
    (xs A B : list X) (x : X) :
  filter P xs = A ++ x :: B ->
  exists X1 X2, xs = X1 ++ x :: X2 /\ filter P X1 = A /\ filter P X2 = B.
Proof.
  revert A. induction xs as [|y xs IH]; intros A E.
  - rewrite filter_nil in E. destruct A; discriminate E.
  - destruct (decide (P y)) as [Hy|Hy].
    + rewrite filter_cons_True in E by exact Hy.
      destruct A as [|a A]; simpl in E.
      * injection E as -> E. exists [], xs. split; [reflexivity|].
        split; [reflexivity|exact E].
      * injection E as -> E. destruct (IH A E) as (X1 & X2 & -> & H1 & H2).
        exists (a :: X1), X2. split; [reflexivity|]. split; [|exact H2].
        rewrite filter_cons_True by exact Hy. rewrite H1. reflexivity.
    + rewrite filter_cons_False in E by exact Hy.
      destruct (IH A E) as (X1 & X2 & -> & H1 & H2).
      exists (y :: X1), X2. split; [reflexivity|]. split; [|exact H2].
      rewrite filter_cons_False by exact Hy. exact H1.
Qed.

(** *** [Object.values] lists the array indices in ascending order *)

Section Enumeration.
Context {V : Type}.
Implicit Types (o : Obj.t V).

Lemma insert_index_sorted (x : N * V) (l : list (N * V)) :
StronglySorted byIndex l -> StronglySorted byIndex (Obj.insert_index x l).
Proof.
induction l as [|y l IH]; intros Hs; simpl.
- repeat constructor.
- apply StronglySorted_inv in Hs as [Hs Hy].
  destruct (x.1 <=? y.1)%N eqn:E.
  + apply N.leb_le in E. constructor; [constructor; assumption|].
    constructor; [exact E|].
    eapply Forall_impl; [exact Hy|]. unfold byIndex. intros z Hz. lia.
  + apply N.leb_gt in E. constructor; [apply IH, Hs|].
    rewrite Forall_forall. intros z Hz.
    apply elem_of_insert_index in Hz as [->|Hz].
    * unfold byIndex. lia.
    * rewrite Forall_forall in Hy. apply Hy, Hz.
Qed.

Lemma sorted_index_sorted (l : list (N * V)) :
StronglySorted byIndex (foldr Obj.insert_index [] l).
Proof.
induction l as [|y l IH]; simpl; [constructor|].
apply insert_index_sorted, IH.
Qed.

Lemma elem_of_sorted_index (x : N * V) (l : list (N * V)) :
x ∈ foldr Obj.insert_index [] l <-> x ∈ l.
Proof.
induction l as [|y l IH]; simpl; [reflexivity|].
rewrite elem_of_insert_index, IH, elem_of_cons. reflexivity.
Qed.

Lemma elem_of_index_props o n v :
(n, v) ∈ Obj.index_props o
<-> exists k, (k, v) ∈ o /\ Obj.array_index k = Some n.
Proof.
unfold Obj.index_props. rewrite list_elem_of_omap. split.
- intros ([k v'] & Hin & H). simpl in H.
  destruct (Obj.array_index k) as [m|] eqn:E; [|discriminate H].
  injection H as -> ->. exists k. split; [exact Hin|exact E].
- intros (k & Hin & E). exists (k, v). split; [exact Hin|].
  simpl. rewrite E. reflexivity.
Qed.

Lemma elem_of_string_props o k v :
(k, v) ∈ Obj.string_props o <-> Obj.array_index k = None /\ (k, v) ∈ o.
Proof.
unfold Obj.string_props.
apply (list_elem_of_filter (fun kv : string * V => Obj.array_index kv.1 = None)).
Qed.
End Enumeration.

(** *** The winner *)

Lemma mostVisitedFirst_max (ls : list LocationData) (l l' : LocationData) :
  mostVisitedFirst ls l -> l' ∈ ls ->
  (tally (name l') ls <= tally (name l) ls)%nat.
Proof.
  intros (b & a & -> & Hb & Ha) Hin.
  apply elem_of_app in Hin as [Hin|Hin]; [apply Nat.lt_le_incl, Hb, Hin|].
  apply elem_of_cons in Hin as [->|Hin]; [reflexivity|apply Ha, Hin].
Qed.

Lemma mostVisitedFirst_in (ls : list LocationData) (l : LocationData) :
  mostVisitedFirst ls l -> l ∈ ls.
Proof.
  intros (b & a & -> & _). apply elem_of_app. right. apply list_elem_of_here.
Qed.

(** The location that introduced a name with the highest tally, when no
    location that introduced a name before it bears the name of [l], is
    [l] itself. *)
Lemma first_is_most_visited (ls : list LocationData) (l f : LocationData)
    (F1 F2 : list LocationData) :
  mostVisitedFirst ls l ->
  name l ∉ Obj.proto_keys ->
  firsts (stored ls) = F1 ++ f :: F2 ->
  tally (name f) ls = tally (name l) ls ->
  name l ∉ name <$> F1 ->
  f = l.
Proof.
  intros (b & a & Hls & Hb & Ha) Hl HF Ht Hn.
  destruct (firsts_decomp (stored ls) F1 f F2 HF)
    as (before & after & Hst & Hbefore).
  assert (Hst' : stored ls = stored b ++ l :: stored a).
  { rewrite Hls at 1. unfold stored. rewrite filter_app.
    rewrite filter_cons_True by exact Hl. reflexivity. }
  rewrite Hst' in Hst. symmetry.
  apply (split_unique _ _ _ _ _ _ Hst).
  - intros Hin. apply Hn, Hbefore, Hin.
  - intros Hin. apply elem_of_stored in Hin as [_ Hin].
    specialize (Hb f Hin). lia.
Qed.

Lemma topLoc_of_most_visited (ls : list LocationData) (l : LocationData) :
  mostVisitedFirst ls l ->
  name l ∉ Obj.proto_keys ->
  (forall l', l' ∈ ls -> tally (name l') ls = tally (name l) ls ->
              ~ listedBefore (name l') (name l)) ->
  topLoc_of (entry ls <$> firsts (stored ls)) = (entry ls l).2.
Proof.
  intros Hmv Hl Hties.
  pose proof (mostVisitedFirst_in ls l Hmv) as Hlin.
  pose proof (tally_present l ls Hlin) as Hpos.
  set (F := firsts (stored ls)).
  set (o := entry ls <$> F).
  (* every property is the entry of a stored location *)
  assert (Ho : forall k v, (k, v) ∈ o ->
             exists f, f ∈ F /\ (k, v) = entry ls f /\ f ∈ ls
                       /\ (tally (name f) ls <= tally (name l) ls)%nat).
  { intros k v Hin. apply list_elem_of_fmap in Hin as (f & E & Hf).
    exists f. split; [exact Hf|]. split; [exact E|].
    assert (Hfl : f ∈ ls).
    { apply firsts_subset in Hf. apply elem_of_stored in Hf as [_ Hf].
      exact Hf. }
    split; [exact Hfl|]. apply (mostVisitedFirst_max ls l f Hmv Hfl). }
  (* the entry of [l] is one of them *)
  assert (Hl0 : exists F1 F2, F = F1 ++ l :: F2).
  { assert (Hn : name l ∈ name <$> F).
    { apply names_firsts. apply list_elem_of_fmap_2.
      apply elem_of_stored. split; [exact Hl|exact Hlin]. }
    apply list_elem_of_fmap in Hn as (f & E & Hf).
    apply list_elem_of_split in Hf as (F1 & F2 & HF).
    exists F1, F2. rewrite HF. f_equal. f_equal.
    apply (first_is_most_visited ls l f F1 F2 Hmv Hl HF).
    - rewrite E. reflexivity.
    - rewrite E. pose proof (NoDup_firsts (stored ls)) as Hnd.
      fold F in Hnd. rewrite HF, fmap_app, fmap_cons in Hnd.
      apply NoDup_app in Hnd as (_ & Hnd & _).
      intros Hin. apply (Hnd _ Hin). apply list_elem_of_here. }
  assert (Hel : entry ls l ∈ o).
  { destruct Hl0 as (F1 & F2 & HF). unfold o. rewrite HF.
    apply list_elem_of_fmap_2. apply elem_of_app. right.
    apply list_elem_of_here. }
  unfold topLoc_of, Obj.values. rewrite fold_left_app.
  set (Isorted := foldr Obj.insert_index [] (Obj.index_props o)).
  set (top1 := fold_left betterLoc (Isorted.*2) topLoc_init).
  assert (HI : forall n v, (n, v) ∈ Isorted ->
             exists f, f ∈ F /\ Obj.array_index (name f) = Some n
                       /\ v = (entry ls f).2 /\ f ∈ ls
                       /\ (tally (name f) ls <= tally (name l) ls)%nat).
  { intros n v Hin. apply (proj1 (elem_of_sorted_index _ _)) in Hin.
    apply (proj1 (elem_of_index_props _ _ _)) in Hin as (k & Hin & Hk).
    destruct (Ho k v Hin) as (f & Hf & E & Hfl & Hle).
    injection E as -> ->. exists f. auto. }
  assert (HS : forall kv, kv ∈ Obj.string_props o ->
             exists f, f ∈ F /\ Obj.array_index (name f) = None
                       /\ kv = entry ls f /\ f ∈ ls
                       /\ (tally (name f) ls <= tally (name l) ls)%nat).
  { intros [k v] Hin.
    apply (proj1 (elem_of_string_props _ _ _)) in Hin as [Hk Hin].
    destruct (Ho k v Hin) as (f & Hf & E & Hfl & Hle).
    exists f. injection E as -> ->. auto. }
  destruct (Obj.array_index (name l)) as [j|] eqn:Hidx.
  - (* the name of [l] is an array index *)
    assert (Hjl : (j, (entry ls l).2) ∈ Isorted).
    { apply (proj2 (elem_of_sorted_index _ _)).
      apply (proj2 (elem_of_index_props _ _ _)).
      exists (name l). split; [exact Hel|exact Hidx]. }
    assert (Htop1 : top1 = (entry ls l).2).
    { unfold top1.
      destruct (fold_first_max snd Isorted topLoc_init)
        as [[_ Hall]|(A & [i v] & B & HI' & Hr & _ & HA & HB)].
      - specialize (Hall _ Hjl). simpl in Hall. lia.
      - rewrite Hr. simpl.
        assert (Hx : (i, v) ∈ Isorted).
        { rewrite HI'. apply elem_of_app. right. apply list_elem_of_here. }
        destruct (HI i v Hx) as (f & Hf & Hfi & -> & Hfl & Hle).
        rewrite HI' in Hjl. apply elem_of_app in Hjl as [Hjl|Hjl].
        { specialize (HA _ Hjl). simpl in HA. lia. }
        apply elem_of_cons in Hjl as [Hjl|Hjl];
          [apply (f_equal snd) in Hjl; simpl in Hjl |- *; symmetry; exact Hjl|].
        specialize (HB _ Hjl). simpl in HB.
        assert (Ht : tally (name f) ls = tally (name l) ls) by lia.
        assert (Hij : (i <= j)%N).
        { pose proof (sorted_index_sorted (Obj.index_props o)) as Hs.
          fold Isorted in Hs. rewrite HI', cons_middle, app_assoc in Hs.
          pose proof (StronglySorted_app_cross _ _ _ Hs
                        (i, (entry ls f).2) (j, (entry ls l).2)) as Hc.
          unfold byIndex in Hc. apply Hc; [|exact Hjl].
          apply elem_of_app. right. apply list_elem_of_here. }
        pose proof (Hties f Hfl Ht) as Hnot. unfold listedBefore in Hnot.
        rewrite Hfi, Hidx in Hnot.
        assert (i = j) by lia. subst i.
        pose proof (array_index_inj _ _ _ Hfi Hidx) as En.
        apply list_elem_of_split in Hf as (F1 & F2 & HF).
        assert (f = l) as ->; [|reflexivity].
        apply (first_is_most_visited ls l f F1 F2 Hmv Hl HF Ht).
        rewrite <- En. pose proof (NoDup_firsts (stored ls)) as Hnd.
        fold F in Hnd. rewrite HF, fmap_app, fmap_cons in Hnd.
        apply NoDup_app in Hnd as (_ & Hnd & _).
        intros Hin. apply (Hnd _ Hin). apply list_elem_of_here. }
    destruct (fold_first_max snd (Obj.string_props o) top1)
      as [[Hr _]|(A & x & B & HS' & _ & Hlt & _)].
    + rewrite Hr. exact Htop1.
    + exfalso.
      assert (Hx : x ∈ Obj.string_props o).
      { rewrite HS'. apply elem_of_app. right. apply list_elem_of_here. }
      destruct (HS x Hx) as (f & _ & _ & -> & _ & Hle).
      rewrite Htop1 in Hlt. simpl in Hlt. lia.
  - (* the name of [l] is no array index *)
    assert (Hnoidx : forall l', l' ∈ ls ->
               tally (name l') ls = tally (name l) ls ->
               Obj.array_index (name l') = None).
    { intros l' Hl' Ht. pose proof (Hties l' Hl' Ht) as Hnot.
      unfold listedBefore in Hnot. rewrite Hidx in Hnot.
      destruct (Obj.array_index (name l')); [destruct (Hnot I)|reflexivity]. }
    assert (Htop1 : (lc_count top1 < Z.of_nat (tally (name l) ls))%Z).
    { unfold top1. destruct (fold_betterLoc_member (Isorted.*2) topLoc_init)
        as [->|Hin]; [simpl; lia|].
      apply list_elem_of_fmap in Hin as ([n v] & -> & Hin).
      destruct (HI n v Hin) as (f & _ & Hfi & -> & Hfl & Hle). simpl.
      destruct (decide (tally (name f) ls = tally (name l) ls)) as [E|E];
        [|lia].
      rewrite (Hnoidx f Hfl E) in Hfi. discriminate Hfi. }
    assert (Hels : entry ls l ∈ Obj.string_props o).
    { apply (proj2 (elem_of_string_props _ _ _)).
      split; [exact Hidx|exact Hel]. }
    destruct (fold_first_max snd (Obj.string_props o) top1)
      as [[_ Hall]|(A & x & B & HS' & Hr & _ & HA & HB)].
    + specialize (Hall _ Hels). simpl in Hall. lia.
    + rewrite Hr.
      assert (Hx : x ∈ Obj.string_props o).
      { rewrite HS'. apply elem_of_app. right. apply list_elem_of_here. }
      destruct (HS x Hx) as (f & _ & _ & Ex & Hfl & Hle).
      assert (Ht : tally (name f) ls = tally (name l) ls).
      { rewrite HS' in Hels. apply elem_of_app in Hels as [Hin|Hin].
        - specialize (HA _ Hin). rewrite Ex in HA. simpl in HA. lia.
        - apply elem_of_cons in Hin as [Hin|Hin].
          + rewrite <- Hin in Ex. injection Ex as En _. rewrite En.
            reflexivity.
          + specialize (HB _ Hin). rewrite Ex in HB. simpl in HB. lia. }
      apply filter_split in HS' as (X1 & X2 & Ho' & HX1 & _).
      unfold o in Ho'.
      apply fmap_app_inv in Ho' as (F1 & F' & HF1 & HF' & HF).
      symmetry in HF'.
      apply fmap_cons_inv in HF' as (f' & F2 & Ef' & _ & ->).
      assert (Eff : name f' = name f).
      { rewrite Ex in Ef'. injection Ef' as En _. symmetry. exact En. }
      assert (f' = l); [|subst f'; rewrite Ef'; reflexivity].
      apply (first_is_most_visited ls l f' F1 F2 Hmv Hl HF);
        [rewrite Eff; exact Ht|].
      intros Hin. apply list_elem_of_fmap in Hin as (l1 & En & Hl1).
      assert (Hin1 : entry ls l1 ∈ A).
      { rewrite <- HX1.
        apply (list_elem_of_filter
                 (fun kv : string * LocCount => Obj.array_index kv.1 = None)).
        split; [simpl; rewrite <- En; exact Hidx|].
        rewrite HF1. apply list_elem_of_fmap_2, Hl1. }
      specialize (HA _ Hin1). rewrite Ex in HA. simpl in HA.
      rewrite <- En in HA. lia.
Qed.

Lemma mostVisitedFirst_exists (ls : list LocationData) :
  ls <> [] -> exists l, mostVisitedFirst ls l.
Proof.
  intros Hne.
  destruct (fold_first_max (fun f => (entry ls f).2) (firsts ls) topLoc_init)
    as [[_ Hall]|(A & x & B & HF & _ & _ & HA & HB)].
  - exfalso. destruct ls as [|l0 ls']; [congruence|].
    assert (Hn : name l0 ∈ name <$> firsts (l0 :: ls'))
      by (apply names_firsts, list_elem_of_fmap_2, list_elem_of_here).
    apply list_elem_of_fmap in Hn as (f & _ & Hf).
    specialize (Hall f Hf). simpl in Hall. lia.
  - exists x. destruct (firsts_decomp ls A x B HF)
      as (before & after & Hls & Hbefore).
    exists before, after. split; [exact Hls|]. split.
    + intros l' Hl'. apply Hbefore in Hl'.
      apply list_elem_of_fmap in Hl' as (a & -> & Ha).
      specialize (HA a Ha). simpl in HA. lia.
    + intros l' Hl'.
      assert (Hin : l' ∈ ls).
      { rewrite Hls. apply elem_of_app. right.
        apply list_elem_of_further, Hl'. }
      assert (Hn : name l' ∈ name <$> firsts ls)
        by (apply names_firsts, list_elem_of_fmap_2, Hin).
      apply list_elem_of_fmap in Hn as (a & -> & Ha).
      rewrite HF in Ha. apply elem_of_app in Ha as [Ha|Ha].
      * specialize (HA a Ha). simpl in HA. lia.
      * apply elem_of_cons in Ha as [->|Ha]; [lia|].
        specialize (HB a Ha). simpl in HB. lia.
Qed.

Lemma autoCenter_target_most_visited {ext : Externals} (p : Props)
    (l : LocationData) :
  highlightTrip p = None ->
  mostVisitedFirst (locations (trips p)) l ->
  name l ∉ Obj.proto_keys ->
  (forall l', l' ∈ locations (trips p) ->
     tally (name l') (locations (trips p)) = tally (name l) (locations (trips p)) ->
     ~ listedBefore (name l') (name l)) ->
  autoCenter_target p = ((- lng (coords l), - lat (coords l)), 1).
Proof.
  intros Hh Hmv Hl Hties. unfold autoCenter_target. rewrite Hh.
  pose proof (mostVisitedFirst_in _ _ Hmv) as Hin.
  assert (Hlen : (0 <? length (trips p))%nat = true).
  { destruct (trips p); [apply elem_of_nil in Hin; destruct Hin|reflexivity]. }
  rewrite Hlen. unfold locCounts_of.
  rewrite fold_countTrip, fold_countLocation_stored.
  rewrite (topLoc_of_most_visited _ l Hmv Hl Hties). simpl.
  pose proof (tally_present l _ Hin) as Hpos.
  assert (Hp : (0 <? Z.of_nat (tally (name l) (locations (trips p))))%Z = true)
    by (apply Z.ltb_lt; lia).
  rewrite Hp. reflexivity.
Qed.

(** C4, amended.  Without a highlighted trip, let [l] be the location with
    the highest tally over the origins and destinations of the trips, the
    first one met among those that share it (there is one as soon as there
    is a trip).  When the name of [l] is not the name of a member of
    [Object.prototype], and no location with the same tally bears a name
    that [Object.values] lists before the name of [l] whatever the order of
    creation (an array index such as "7", when the name of [l] is none or
    a greater one), [autoCenter] turns the camera to the coordinates of
    [l], sets the zoom to 1 and records both as the default state. *)
Theorem autoCenter_centers_on_most_visited {ext : Externals} {dom : DOM}
    (p : Props) (s : State) (l : LocationData) :
  highlightTrip p = None ->
  mostVisitedFirst (locations (trips p)) l ->
  name l ∉ Obj.proto_keys ->
  (forall l', l' ∈ locations (trips p) ->
     tally (name l') (locations (trips p)) = tally (name l) (locations (trips p)) ->
     ~ listedBefore (name l') (name l)) ->
  let s' := (autoCenter p s).1 in
  rotation s' = (- lng (coords l), - lat (coords l))
  /\ zoom s' = 1
  /\ defaultState s' = Some (1, (- lng (coords l), - lat (coords l)))
  /\ centersOnMostVisited (rotation s', zoom s') (trips p).
Proof.
  intros Hh Hmv Hl Hties.
  pose proof (autoCenter_target_most_visited p l Hh Hmv Hl Hties) as Ht.
  unfold autoCenter. rewrite Ht. simpl.
  split; [reflexivity|]. split; [reflexivity|]. split; [reflexivity|].
  exists l. split; [exact Hmv|reflexivity].
Qed.

Lemma autoCenter_centers_on_most_visited_witness :
  let s' := (autoCenter (ext := equator) (globe fromA None)
               (@initialState capture_lists)).1 in
  tally "A" (locations fromA) = 3%nat
  /\ rotation s' = (- 20, - 10) /\ zoom s' = 1.
Proof.
  split; [reflexivity|].
  destruct (autoCenter_centers_on_most_visited (ext := equator)
              (globe fromA None) (@initialState capture_lists)
              (place "A" 10 20)) as (Hr & Hz & _).
  - reflexivity.
  - exists [], (tl (locations fromA)). split; [reflexivity|]. split.
    + intros l' Hl'. apply elem_of_nil in Hl'. destruct Hl'.
    + intros l' Hl'. simpl in Hl'.
      repeat (apply elem_of_cons in Hl' as [->|Hl']; [vm_compute; lia|]).
      apply elem_of_nil in Hl'. destruct Hl'.
  - unfold Obj.proto_keys. simpl. intros H.
    repeat (apply elem_of_cons in H as [H|H]; [discriminate H|]).
    apply elem_of_nil in H. exact H.
  - intros l' Hl' _ H. simpl in Hl'.
    repeat (apply elem_of_cons in Hl' as [->|Hl']; [exact H|]).
    apply elem_of_nil in Hl'. exact Hl'.
  - split; [exact Hr|exact Hz].
Defined.

(** The trips [{A -> B}, {A -> C}, {A -> D}]: the camera is turned to A,
    met three times, at zoom 1. *)
Example three_trips_from_A :
  let s' := (autoCenter (ext := equator) (globe fromA None)
               (@initialState capture_lists)).1 in
  tally "A" (locations fromA) = 3%nat
  /\ rotation s' = (- lng (coords (place "A" 10 20)),
                    - lat (coords (place "A" 10 20)))
  /\ zoom s' = 1.
Proof. repeat split; vm_compute; reflexivity. Qed.

(** A name that is an array index does no harm while it does not share the
    highest tally: for [{A -> "7"}, {A -> B}] the camera is turned to A. *)
Example index_name_below_the_top :
  let s' := (autoCenter (ext := equator) (globe sevenAside None)
               (@initialState capture_lists)).1 in
  tally "A" (locations sevenAside) = 2%nat
  /\ tally "7" (locations sevenAside) = 1%nat
  /\ rotation s' = (- lng (coords (place "A" 10 20)),
                    - lat (coords (place "A" 10 20)))
  /\ zoom s' = 1.
Proof. repeat split; vm_compute; reflexivity. Qed.

(** C4 as stated fails on a name that is an array index: Paris and "7"
    are met once each, Paris first, and [autoCenter] turns the camera to
    "7". *)
Lemma numeric_name_wins_tie :
  let s' := (autoCenter (ext := equator) (globe toSeven None)
               (@initialState capture_lists)).1 in
  highlightTrip (globe toSeven None) = None
  /\ trips (globe toSeven None) <> []
  /\ tally "Paris" (locations toSeven) = tally "7" (locations toSeven)
  /\ rotation s' = (- lng (coords (place "7" 35 139)),
                    - lat (coords (place "7" 35 139)))
  /\ zoom s' = 1
  /\ ~ centersOnMostVisited (rotation s', zoom s') toSeven.
Proof.
  split; [reflexivity|]. split; [discriminate|]. split; [reflexivity|].
  split; [vm_compute; reflexivity|]. split; [vm_compute; reflexivity|].
  intros (l & (before & after & Hls & Hb & Ha) & Hcam).
  destruct before as [|b0 [|b1 before]]; simpl in Hls.
  - injection Hls as <- _. vm_compute in Hcam. discriminate Hcam.
  - injection Hls as <- <- _.
    specialize (Hb _ (list_elem_of_here _ _)). vm_compute in Hb. lia.
  - injection Hls as _ _ Hls. destruct before; discriminate Hls.
Qed.

(** A name that [Object.prototype] defines is never stored in [locCounts]:
    with no other name the camera falls back to its default rotation. *)
Example inherited_name_not_counted :
  let s' := (autoCenter (ext := equator) (globe toConstructor None)
               (@initialState capture_lists)).1 in
  locCounts_of toConstructor = []
  /\ rotation s' = fallbackRotation /\ zoom s' = 1.
Proof. repeat split; vm_compute; reflexivity. Qed.

(** * More properties *)

(** ** Handlers and what they touch *)

(** X1. With [interactionEnabled] false every input handler returns at
    once: pointer down, move, up and leave, wheel, double click and the two
    touch handlers leave the whole state as it is and make no call (no
    [stopPropagation], no pointer capture, no [onZoomChange]). *)
Theorem noninteractive_ignores_input {ext : Externals} {dom : DOM}
    (p : Props) (innerHeight : Q) (s : State) (ev : Event) :
  interactionEnabled p = false ->
  isInput ev = true ->
  handle p innerHeight s ev = Returned (s, [])
  /\ step p innerHeight s ev = s.
Proof.
  intros Hi Hev.
  assert (H : handle p innerHeight s ev = Returned (s, [])).
  { destruct ev; try discriminate Hev; simpl;
      unfold handlePointerDown, handlePointerMove, handlePointerUp,
        handleWheel, handleDoubleClick, handleTouchGatekeeper;
      rewrite Hi; reflexivity. }
  split; [exact H|]. unfold step. rewrite H. reflexivity.
Qed.

Lemma noninteractive_ignores_input_witness :
  step (ext := equator) (backdrop [quarter]) 800 idle
    (Wheel {| deltaY := -3 |}) = idle.
Proof.
  apply (noninteractive_ignores_input (ext := equator) (backdrop [quarter]) 800
           idle (Wheel {| deltaY := -3 |}) eq_refl eq_refl).
Defined.

(** X2. Each event changes only its own part of the state. The rotation
    changes by a pointer move or a framing only; the zoom by a pointer move,
    a wheel turn, a double click or a framing only; the dimensions by a
    resize only; [defaultState] by a framing only; and the pointer cache,
    [prevDiff], [isDragging] and [lastPos] by pointer down, move, up and
    leave only. *)
Theorem events_touch_only_their_part {ext : Externals} {dom : DOM}
    (p : Props) (innerHeight : Q) (s : State) (ev : Event) :
  let s' := step p innerHeight s ev in
  match ev with
  | PointerMove _ | AutoCenter => True
  | _ => rotation s' = rotation s
  end
  /\ match ev with
     | PointerMove _ | Wheel _ | DoubleClick | AutoCenter => True
     | _ => zoom s' = zoom s
     end
  /\ match ev with
     | Resize _ => True
     | _ => dimensions s' = dimensions s
     end
  /\ match ev with
     | AutoCenter => True
     | _ => defaultState s' = defaultState s
     end
  /\ match ev with
     | PointerDown _ | PointerMove _ | PointerUp _ | PointerLeave _ =>
         True
     | _ => evCache s' = evCache s /\ prevDiff s' = prevDiff s
            /\ isDragging s' = isDragging s /\ lastPos s' = lastPos s
     end.
Proof.
  unfold step. destruct ev; simpl;
    unfold handlePointerDown, handlePointerMove, handlePointerUp,
      handleWheel, handleDoubleClick, handleTouchGatekeeper, autoCenter;
    repeat case_match; simplify_eq/=; repeat split; reflexivity.
Qed.

(** ** The gesture session, continued *)

Section SessionMore.
Context {ext : Externals} {dom : DOM}.

Lemma findIndex_single (e : PointerEvent) : findIndex e [e] = Some 0%nat.
Proof.
unfold findIndex. simpl. rewrite decide_True by reflexivity. reflexivity.
Qed.

Lemma handlePointerDown_dragging p innerHeight s e s' calls :
handlePointerDown p innerHeight s e = Returned (s', calls) ->
dragging_inv s -> dragging_inv s'.
Proof.
unfold handlePointerDown, dragging_inv. intros Hh Hinv.
destruct (negb (interactionEnabled p)); [simplify_eq; exact Hinv|].
destruct (_ && _); [simplify_eq; exact Hinv|].
simpl in Hh.
destruct (length (evCache s ++ [e]) =? 1)%nat eqn:Hl; simplify_eq/=.
- intros _. split; [reflexivity|eauto].
- intros _. apply Hinv. intros Hnil. rewrite Hnil in Hl. discriminate Hl.
Qed.

Lemma handlePointerMove_dragging p s e s' calls :
handlePointerMove p s e = Returned (s', calls) ->
dragging_inv s -> dragging_inv s'.
Proof.
unfold handlePointerMove, dragging_inv. intros Hh Hinv.
pose proof (length_moved e (evCache s)) as Hlen.
destruct (negb (interactionEnabled p)); [simplify_eq; exact Hinv|].
destruct (match findIndex e (evCache s) with
          | Some index => <[index := e]> (evCache s)
          | None => evCache s
          end) as [|ev0 [|ev1 [|ev2 rest]]] eqn:Hc; simpl in Hlen.
- simplify_eq/=. intros H. destruct H. reflexivity.
- assert (Hs : evCache s <> [])
    by (intros Hnil; rewrite Hnil in Hlen; discriminate).
  destruct (Hinv Hs) as [Hd [pos Hp]].
  rewrite Hd, Hp in Hh. destruct pos as [x y]. simplify_eq/=.
  intros _. split; [exact Hd|eauto].
- assert (Hs : evCache s <> [])
    by (intros Hnil; rewrite Hnil in Hlen; discriminate).
  repeat case_match; simplify_eq/=; intros _; apply Hinv, Hs.
- assert (Hs : evCache s <> [])
    by (intros Hnil; rewrite Hnil in Hlen; discriminate).
  simplify_eq/=. intros _. apply Hinv, Hs.
Qed.

Lemma handlePointerUp_dragging p s e s' calls :
handlePointerUp p s e = Returned (s', calls) ->
dragging_inv s -> dragging_inv s'.
Proof.
unfold handlePointerUp, dragging_inv. intros Hh Hinv.
destruct (negb (interactionEnabled p)); [simplify_eq; exact Hinv|].
set (cache := match findIndex e (evCache s) with
              | Some index => delete index (evCache s)
              | None => evCache s
              end) in *.
assert (Hs : cache <> [] -> evCache s <> []).
{ unfold cache. intros Hc Hnil. rewrite Hnil in Hc.
  destruct (findIndex e []); apply Hc; reflexivity. }
assert (Hs' : evCache s' = cache
              /\ (cache <> [] ->
                  isDragging s' = isDragging s /\ lastPos s' = lastPos s)).
{ destruct (length cache =? 0)%nat eqn:Hl0;
    [apply Nat.eqb_eq in Hl0 | apply Nat.eqb_neq in Hl0];
    repeat case_match; simplify_eq/=; (split; [reflexivity|]);
    intros Hc; try (split; reflexivity);
    destruct cache; simpl in Hl0; congruence. }
destruct Hs' as [Hc Hsame]. rewrite Hc. intros Hne.
destruct (Hsame Hne) as [-> ->]. apply Hinv, Hs, Hne.
Qed.

Lemma handle_dragging_inv p innerHeight s ev s' calls :
handle p innerHeight s ev = Returned (s', calls) ->
dragging_inv s -> dragging_inv s'.
Proof.
destruct ev; simpl; intros Hh Hinv;
  eauto using handlePointerDown_dragging, handlePointerMove_dragging,
    handlePointerUp_dragging.
- unfold handleWheel in Hh. repeat case_match; simplify_eq/=; exact Hinv.
- unfold handleDoubleClick in Hh. repeat case_match; simplify_eq/=; exact Hinv.
- unfold handleTouchGatekeeper in Hh. repeat case_match; simplify_eq/=; exact Hinv.
- unfold handleTouchGatekeeper in Hh. repeat case_match; simplify_eq/=; exact Hinv.
- unfold autoCenter in Hh. destruct (autoCenter_target p). simplify_eq/=. exact Hinv.
- simplify_eq/=. exact Hinv.
Qed.

Lemma reachable_dragging_inv s : reachable s -> dragging_inv s.
Proof.
induction 1 as [|p ih s ev Hr IH].
- intros H. destruct H. reflexivity.
- unfold step. destruct (handle p ih s ev) as [[s' calls]|] eqn:Hh; [|exact IH].
  eapply handle_dragging_inv; eauto.
Qed.
End SessionMore.

(** X3. In every state the handlers can reach: with fewer than two
    pointers cached [prevDiff] is -1; a drag is on exactly when some pointer
    is cached; and [lastPos] is set exactly when some pointer is cached. *)
Theorem session_invariants {ext : Externals} {dom : DOM} (s : State) :
  reachable s ->
  ((length (evCache s) < 2)%nat -> prevDiff s = -1)
  /\ (isDragging s = true <-> evCache s <> [])
  /\ (is_Some (lastPos s) <-> evCache s <> []).
Proof.
  intros Hr. destruct (reachable_inv s Hr) as [H1 H2].
  pose proof (reachable_dragging_inv s Hr) as H3.
  split; [exact H1|]. split; split.
  - intros Hd Hnil. destruct (H2 Hnil) as [Hf _]. congruence.
  - intros Hne. apply H3, Hne.
  - intros [pos Hp] Hnil. destruct (H2 Hnil) as [_ Hn]. congruence.
  - intros Hne. apply H3, Hne.
Qed.

Lemma session_invariants_witness :
  let s := step (ext := equator) (globe [] None) 800 idle
             (PointerDown (pointer 1 10 400)) in
  isDragging s = true <-> evCache s <> [].
Proof.
  apply (session_invariants (ext := equator)).
  apply reachable_step, reachable_init.
Defined.

(** X4. A press and release of one pointer without a move in between
    leaves no trace: from a reachable state with no pointer cached, pointer
    down followed by pointer up of the same event gives back the state
    exactly, whether the press was captured or let through. *)
Theorem click_restores_state {ext : Externals} {dom : DOM}
    (p : Props) (innerHeight : Q) (s : State) (e : PointerEvent) :
  reachable s ->
  evCache s = [] ->
  step p innerHeight (step p innerHeight s (PointerDown e)) (PointerUp e) = s.
Proof.
  intros Hr Hnil. destruct (reachable_inv s Hr) as [H1 H2].
  destruct (H2 Hnil) as [Hd Hl].
  assert (Hp : prevDiff s = -1) by (apply H1; rewrite Hnil; simpl; lia).
  destruct s as [rot z drag dims def lp cache pd]. simpl in *. subst.
  unfold step. simpl. unfold handlePointerDown. simpl.
  destruct (interactionEnabled p) eqn:Hi; simpl.
  - destruct (_ && _); simpl.
    + unfold handlePointerUp. rewrite Hi. simpl.
      destruct (hasPointerCapture _ _); reflexivity.
    + unfold handlePointerUp. rewrite Hi. simpl.
      rewrite findIndex_single. simpl.
      destruct (hasPointerCapture _ _); reflexivity.
  - unfold handlePointerUp. rewrite Hi. reflexivity.
Qed.

Lemma click_restores_state_witness :
  step (ext := equator) (globe [] None) 800
    (step (ext := equator) (globe [] None) 800 idle
       (PointerDown (pointer 1 10 400)))
    (PointerUp (pointer 1 10 400)) = idle.
Proof.
  apply (click_restores_state (ext := equator) (globe [] None) 800 idle
           (pointer 1 10 400) reachable_init eq_refl).
Defined.

(** Split a conjunction of frame conditions and close the parts that hold
    because nothing changed. *)
Ltac frame_goals :=
  repeat match goal with
  | |- _ /\ _ => split
  | |- _ <> _ -> _ =>
      let Hx := fresh in intros Hx; try (destruct Hx; reflexivity)
  | |- _ = _ => first [reflexivity | assumption | congruence]
  | |- _ < _ => apply Qltb_lt; assumption
  end.

(** X5. A pointer move either pinches or drags, never both. It keeps
    the number of cached pointers and the drag flag; it changes the zoom
    only when exactly two pointers are cached and a previous distance is
    known (the rotation is then unchanged); it changes the rotation only
    when exactly one pointer is cached and a drag is on (the zoom is then
    unchanged); and it changes [prevDiff] only with two pointers cached. *)
Theorem pointerMove_pinches_or_drags {ext : Externals} {dom : DOM}
    (p : Props) (innerHeight : Q) (s : State) (e : PointerEvent) :
  let s' := step p innerHeight s (PointerMove e) in
  length (evCache s') = length (evCache s)
  /\ isDragging s' = isDragging s
  /\ (zoom s' <> zoom s ->
      length (evCache s) = 2%nat /\ rotation s' = rotation s
      /\ 0 < prevDiff s)
  /\ (rotation s' <> rotation s ->
      length (evCache s) = 1%nat /\ zoom s' = zoom s
      /\ isDragging s = true)
  /\ (prevDiff s' <> prevDiff s -> length (evCache s) = 2%nat).
Proof.
  unfold step. simpl. unfold handlePointerMove.
  pose proof (length_moved e (evCache s)) as Hlen.
  destruct (negb (interactionEnabled p)); simpl; [frame_goals|].
  destruct (match findIndex e (evCache s) with
            | Some index => <[index := e]> (evCache s)
            | None => evCache s
            end) as [|ev0 [|ev1 [|ev2 rest]]] eqn:Hc; simpl in Hlen;
    repeat case_match; simplify_eq/=; frame_goals.
Qed.


Lemma pointerMove_pinches_or_drags_witness :
  let p := globe [] None in
  let s1 := step (ext := equator) p 800 idle (PointerDown (pointer 1 10 400)) in
  let s2 := step (ext := equator) p 800 s1 (PointerDown (pointer 2 50 400)) in
  let s3 := step (ext := equator) p 800 s2 (PointerMove (pointer 2 90 400)) in
  let s4 := step (ext := equator) p 800 s3 (PointerMove (pointer 2 130 400)) in
  zoom s4 <> zoom s3
  /\ length (evCache s3) = 2%nat /\ rotation s4 = rotation s3
  /\ 0 < prevDiff s3.
Proof.
  intros p s1 s2 s3 s4.
  assert (Hz : zoom s4 <> zoom s3) by (vm_compute; discriminate).
  split; [exact Hz|].
  destruct (pointerMove_pinches_or_drags (ext := equator) p 800 s3
              (pointer 2 130 400)) as (_ & _ & H & _).
  apply H, Hz.
Defined.

(** ** Pinch, wheel and drag *)

(** X6. The first move of a pinch does not zoom. From a reachable state
    with one pointer cached, after the pointer down that brings the cache
    to two, the next pointer move leaves zoom and rotation as they were
    and, when interaction is enabled, only records the distance of the two
    cached pointers in [prevDiff]. *)
Theorem pinch_first_sample_keeps_zoom {ext : Externals} {dom : DOM}
    (p p' : Props) (innerHeight innerHeight' : Q) (s : State)
    (e1 e2 : PointerEvent) :
  reachable s ->
  length (evCache s) = 1%nat ->
  let s1 := step p innerHeight s (PointerDown e1) in
  let s2 := step p' innerHeight' s1 (PointerMove e2) in
  length (evCache s1) = 2%nat ->
  zoom s2 = zoom s
  /\ rotation s2 = rotation s
  /\ (interactionEnabled p' = true ->
      exists ev0 ev1,
        evCache s2 = [ev0; ev1]
        /\ prevDiff s2
           = Math_hypot (clientX ev0 - clientX ev1) (clientY ev0 - clientY ev1)).
Proof.
  intros Hr Hlen s1 s2 Hlen1.
  destruct (reachable_inv s Hr) as [H1 _].
  assert (Hp : prevDiff s = -1) by (apply H1; lia).
  assert (Hs1 : zoom s1 = zoom s /\ rotation s1 = rotation s
                /\ prevDiff s1 = -1).
  { unfold s1, step. simpl. unfold handlePointerDown.
    repeat case_match; simplify_eq/=; auto. }
  destruct Hs1 as (Hz & Hrot & Hp1).
  unfold s2, step. simpl. unfold handlePointerMove.
  pose proof (length_moved e2 (evCache s1)) as Hl.
  rewrite Hlen1 in Hl.
  destruct (interactionEnabled p'); simpl;
    [|split; [exact Hz|]; split; [exact Hrot|]; discriminate].
  destruct (match findIndex e2 (evCache s1) with
            | Some index => <[index := e2]> (evCache s1)
            | None => evCache s1
            end) as [|ev0 [|ev1 [|ev2 rest]]] eqn:Hc; try discriminate Hl.
  rewrite Hp1. simpl. split; [exact Hz|]. split; [exact Hrot|].
  intros _. exists ev0, ev1. split; reflexivity.
Qed.

Lemma pinch_first_sample_keeps_zoom_witness :
  let p := globe [] None in
  let s := step (ext := equator) p 800 idle (PointerDown (pointer 1 10 400)) in
  let s1 := step (ext := equator) p 800 s (PointerDown (pointer 2 50 400)) in
  let s2 := step (ext := equator) p 800 s1 (PointerMove (pointer 2 90 400)) in
  length (evCache s) = 1%nat /\ length (evCache s1) = 2%nat
  /\ zoom s2 = zoom s.
Proof.
  intros p s s1 s2. split; [reflexivity|]. split; [reflexivity|].
  apply (pinch_first_sample_keeps_zoom (ext := equator) p p 800 800 s
           (pointer 2 50 400) (pointer 2 90 400)).
  - apply reachable_step, reachable_init.
  - reflexivity.
  - reflexivity.
Defined.

(** X7. With interaction enabled and the zoom within its bounds
    [1, 4000], a wheel turn with negative [deltaY] never lowers the zoom and
    raises it below 4000; any other turn, [deltaY = 0] included, never
    raises the zoom and lowers it above 1; the zoom stays at 4000 and at 1
    when it is pushed further; and the rotation is unchanged. *)
Theorem wheel_direction {ext : Externals} {dom : DOM}
    (p : Props) (innerHeight : Q) (s : State) (e : WheelEvent) :
  interactionEnabled p = true ->
  1 <= zoom s <= 4000 ->
  let s' := step p innerHeight s (Wheel e) in
  (deltaY e < 0 -> zoom s <= zoom s' /\ (zoom s < 4000 -> zoom s < zoom s'))
  /\ (0 <= deltaY e ->
      zoom s' <= zoom s /\ (1 < zoom s -> zoom s' < zoom s))
  /\ (zoom s == 4000 -> deltaY e < 0 -> zoom s' == 4000)
  /\ (zoom s == 1 -> 0 <= deltaY e -> zoom s' == 1)
  /\ rotation s' = rotation s.
Proof.
  intros Hi Hz s'. unfold s', step. simpl. unfold handleWheel.
  rewrite Hi. simpl.
  destruct (Qltb (deltaY e) 0) eqn:Hd;
    [apply Qltb_lt in Hd | apply Qltb_ge in Hd]; simpl;
    unfold wheelUp, wheelDown; try rewrite Qdiv_by_scaleFactor;
    gen_minmax; repeat split; intros; try reflexivity; try lra.
Qed.

Lemma wheel_direction_witness :
  zoom (step (ext := equator) (globe [] None) 800 idle
          (Wheel {| deltaY := 0 |})) <= zoom idle.
Proof.
  apply (wheel_direction (ext := equator) (globe [] None) 800 idle
           {| deltaY := 0 |} eq_refl); simpl; lra.
Defined.

(** X8. With interaction enabled and no highlighted trip, pointer down
    and the touch gatekeeper take the same decision for the same height:
    the event is stopped exactly when the zoom exceeds 1.1 or the pointer is
    in the middle band, from a quarter to three quarters of the window
    height, both bounds included. When it is not stopped, pointer down
    changes nothing and makes no call. *)
Theorem zoning_without_highlight {ext : Externals} {dom : DOM}
    (p : Props) (innerHeight : Q) (s : State) (e : PointerEvent)
    (t0 : Touch) (rest : list Touch) :
  interactionEnabled p = true ->
  highlightTrip p = None ->
  touch_clientY t0 = clientY e ->
  stopped (handlePointerDown p innerHeight s e)
  = stopped (handleTouchGatekeeper p innerHeight s {| touches := t0 :: rest |})
  /\ (stopped (handlePointerDown p innerHeight s e) = true
      <-> 1.1 < zoom s
          \/ (innerHeight * 0.25 <= clientY e /\ clientY e <= innerHeight * 0.75))
  /\ (stopped (handlePointerDown p innerHeight s e) = false ->
      handlePointerDown p innerHeight s e = Returned (s, [])).
Proof.
  intros Hi Hh Hy. split; [|split].
  - apply zoning_agrees_without_highlight; assumption.
  - rewrite pointer_decision by exact Hi. rewrite Hh.
    rewrite bool_decide_eq_false_2 by (intros [? ?]; discriminate).
    rewrite orb_false_r, orb_true_iff, negb_true_iff.
    unfold isZoomedIn, isNavZone. rewrite Qltb_lt, orb_false_iff, !Qltb_ge.
    reflexivity.
  - rewrite pointer_decision by exact Hi. rewrite Hh.
    rewrite bool_decide_eq_false_2 by (intros [? ?]; discriminate).
    rewrite orb_false_r, orb_false_iff, negb_false_iff.
    intros [Hz Hn]. unfold handlePointerDown. rewrite Hi, Hh, Hz, Hn.
    reflexivity.
Qed.

Lemma zoning_without_highlight_witness :
  stopped (handlePointerDown (globe [] None) 800 idle (pointer 1 10 200)) = true.
Proof.
  apply (zoning_without_highlight (ext := equator) (globe [] None) 800 idle
           (pointer 1 10 200) {| touch_clientY := 200 |} [] eq_refl eq_refl
           eq_refl).
  right. simpl. lra.
Defined.

(** X9. A drag follows the pointer. From a reachable state with one
    pointer cached and interaction enabled, after two successive moves the
    rotation has changed by the displacement from the last recorded
    position to the position of the second move, times [0.25 / sqrt zoom],
    with the vertical part negated; the first move's position cancels out.
    [lastPos] is the position of the second move and the zoom is
    unchanged. *)
Theorem drag_follows_pointer {ext : Externals} {dom : DOM}
    (p : Props) (innerHeight : Q) (s : State) (e1 e2 : PointerEvent) :
  reachable s ->
  length (evCache s) = 1%nat ->
  interactionEnabled p = true ->
  exists x y,
    lastPos s = Some (x, y)
    /\ let s2 := step p innerHeight (step p innerHeight s (PointerMove e1))
                   (PointerMove e2) in
       let sensitivity := 0.25 / Math_sqrt (zoom s) in
       (rotation s2).1 == (rotation s).1 + (clientX e2 - x) * sensitivity
       /\ (rotation s2).2 == (rotation s).2 - (clientY e2 - y) * sensitivity
       /\ lastPos s2 = Some (clientX e2, clientY e2)
       /\ zoom s2 = zoom s.
Proof.
  intros Hr Hlen Hi.
  assert (Hne : evCache s <> []) by (intros Hnil; rewrite Hnil in Hlen; discriminate).
  destruct (reachable_dragging_inv s Hr Hne) as [Hd [[x y] Hl]].
  exists x, y. split; [exact Hl|].
  assert (Hstep : forall s0 e x0 y0,
             length (evCache s0) = 1%nat -> isDragging s0 = true ->
             lastPos s0 = Some (x0, y0) ->
             let s' := step p innerHeight s0 (PointerMove e) in
             rotation s'
             = ((rotation s0).1 + (clientX e - x0) * (0.25 / Math_sqrt (zoom s0)),
                (rotation s0).2 - (clientY e - y0) * (0.25 / Math_sqrt (zoom s0)))
             /\ lastPos s' = Some (clientX e, clientY e)
             /\ zoom s' = zoom s0 /\ length (evCache s') = 1%nat
             /\ isDragging s' = true).
  { intros s0 e x0 y0 Hl0 Hd0 Hp0. unfold step. simpl.
    unfold handlePointerMove. rewrite Hi. simpl.
    pose proof (length_moved e (evCache s0)) as Hm. rewrite Hl0 in Hm.
    destruct (match findIndex e (evCache s0) with
              | Some index => <[index := e]> (evCache s0)
              | None => evCache s0
              end) as [|ev0 [|ev1 rest]] eqn:Hc; try discriminate Hm.
    rewrite Hd0, Hp0. simpl. repeat split; assumption. }
  destruct (Hstep s e1 x y Hlen Hd Hl) as (Hr1 & Hl1 & Hz1 & Hlen1 & Hd1).
  destruct (Hstep _ e2 _ _ Hlen1 Hd1 Hl1) as (Hr2 & Hl2 & Hz2 & _ & _).
  cbv zeta. rewrite Hr2, Hl2, Hz2, Hz1, Hr1. simpl.
  set (k := 0.25 / Math_sqrt (zoom s)).
  repeat split; ring.
Qed.

Lemma drag_follows_pointer_witness :
  let p := globe [] None in
  let s := step (ext := equator) p 800 idle (PointerDown (pointer 1 10 400)) in
  exists x y, lastPos s = Some (x, y).
Proof.
  intros p s.
  destruct (drag_follows_pointer (ext := equator) p 800 s
              (pointer 1 20 410) (pointer 1 40 380)) as (x & y & H & _).
  - apply reachable_step, reachable_init.
  - reflexivity.
  - reflexivity.
  - exists x, y. exact H.
Defined.

(** ** The camera without a highlighted trip *)

Section DictMembers.
Context {V : Type}.
Implicit Types (o : Obj.t V) (k : string) (v : V).

Lemma elem_of_set o k v k' v' :
(k', v') ∈ Obj.set o k v -> (k', v') ∈ o \/ (k', v') = (k, v).
Proof.
induction o as [|[k0 v0] o IH]; simpl.
- intros H. apply list_elem_of_singleton in H. right. exact H.
- destruct (String.eqb k0 k) eqn:E.
  + apply String.eqb_eq in E. subst k0.
    intros H. apply elem_of_cons in H as [H|H]; [right; exact H|].
    left. apply list_elem_of_further, H.
  + intros H. apply elem_of_cons in H as [H|H].
    * left. rewrite H. apply list_elem_of_here.
    * destruct (IH H) as [H'|H']; [left|right; exact H'].
      apply list_elem_of_further, H'.
Qed.

Lemma get_own_elem o k v : Obj.get_own o k = Some v -> (k, v) ∈ o.
Proof.
induction o as [|[k0 v0] o IH]; simpl; [discriminate|].
destruct (String.eqb k0 k) eqn:E.
- apply String.eqb_eq in E. intros [= ->]. subst. apply list_elem_of_here.
- intros H. apply list_elem_of_further, IH, H.
Qed.

Lemma elem_of_values o v : v ∈ Obj.values o <-> exists k, (k, v) ∈ o.
Proof.
unfold Obj.values. rewrite elem_of_app, !list_elem_of_fmap.
assert (Hs : forall (l : list (N * V)) x,
           x ∈ foldr Obj.insert_index [] l <-> x ∈ l).
{ induction l as [|y l IH]; intros x; simpl; [reflexivity|].
  rewrite elem_of_insert_index, IH, elem_of_cons. reflexivity. }
unfold Obj.index_props, Obj.string_props. split.
- intros [([n v0] & -> & H)|([k v0] & -> & H)].
  + apply (proj1 (Hs _ _)) in H.
    apply list_elem_of_omap in H as ([k v1] & Hin & Hk).
    simpl in Hk. destruct (Obj.array_index k); [|discriminate].
    injection Hk as _ ->. exists k. exact Hin.
  + apply list_elem_of_filter in H as [_ H]. exists k. exact H.
- intros [k Hin]. destruct (Obj.array_index k) as [n|] eqn:Hk.
  + left. exists (n, v). split; [reflexivity|]. apply (proj2 (Hs _ _)).
    apply list_elem_of_omap. exists (k, v). split; [exact Hin|].
    simpl. rewrite Hk. reflexivity.
  + right. exists (k, v). split; [reflexivity|].
    apply list_elem_of_filter. split; [exact Hk|exact Hin].
Qed.
End DictMembers.

Lemma countLocation_coords (known : Point -> Prop) locCounts l :
  (forall k v, (k, v) ∈ locCounts -> known (lc_coords v)) ->
  known (point_of l) ->
  forall k v, (k, v) ∈ countLocation locCounts l -> known (lc_coords v).
Proof.
  intros Ho Hl k v. unfold countLocation.
  set (o1 := if Obj.absent locCounts (name l) then _ else locCounts).
  assert (H1 : forall k v, (k, v) ∈ o1 -> known (lc_coords v)).
  { unfold o1. destruct (Obj.absent _ _); [|exact Ho].
    intros k' v' H. apply elem_of_set in H as [H|[= _ ->]]; [eauto|exact Hl]. }
  unfold Obj.get. destruct (Obj.get_own o1 (name l)) as [lc|] eqn:Hg.
  - intros H. apply elem_of_set in H as [H|[= _ ->]]; [eauto|].
    simpl. apply (H1 (name l) lc). apply get_own_elem, Hg.
  - destruct (bool_decide _); apply H1.
Qed.

Lemma locCounts_coords ts k v :
  (k, v) ∈ locCounts_of ts ->
  exists t l, t ∈ ts /\ (l = origin t \/ l = destination t)
              /\ lc_coords v = point_of l.
Proof.
  unfold locCounts_of.
  set (known := fun c : Point =>
              exists t l, t ∈ ts /\ (l = origin t \/ l = destination t)
                          /\ c = point_of l).
  assert (H : forall ts' o,
             (forall t, t ∈ ts' -> t ∈ ts) ->
             (forall k v, (k, v) ∈ o -> known (lc_coords v)) ->
             forall k v, (k, v) ∈ fold_left countTrip ts' o -> known (lc_coords v)).
  { induction ts' as [|t ts' IH]; intros o Hsub Ho; simpl; [exact Ho|].
    apply IH; [intros t' Ht'; apply Hsub, list_elem_of_further, Ht'|].
    unfold countTrip.
    assert (Ht : t ∈ ts) by (apply Hsub, list_elem_of_here).
    apply countLocation_coords; [apply countLocation_coords; [exact Ho|]|];
      exists t; eexists; eauto. }
  intros Hin. apply (H ts Obj.empty (fun t Ht => Ht)) in Hin; [exact Hin|].
  intros k' v' Hnil. apply elem_of_nil in Hnil. destruct Hnil.
Qed.

(** X10. Without a highlighted trip, framing sets the zoom to exactly 1
    and turns the globe either to the fallback (-105, -35) or to the
    opposite of the coordinates of the origin or the destination of one of
    the trips, whatever the names of the places are; with no trips it is
    the fallback. *)
Theorem autoCenter_without_highlight {ext : Externals} (p : Props) :
  highlightTrip p = None ->
  (autoCenter_target p).2 = 1
  /\ ((autoCenter_target p).1 = fallbackRotation
      \/ exists t l,
           t ∈ trips p /\ (l = origin t \/ l = destination t)
           /\ (autoCenter_target p).1 = (- lng (coords l), - lat (coords l)))
  /\ (trips p = [] -> (autoCenter_target p).1 = fallbackRotation).
Proof.
  intros Hh. unfold autoCenter_target. rewrite Hh.
  destruct (0 <? length (trips p))%nat eqn:Hlen.
  - destruct (0 <? lc_count _)%Z eqn:Hpos; simpl.
    + split; [reflexivity|]. split.
      * unfold topLoc_of in *.
        destruct (fold_betterLoc_member (Obj.values (locCounts_of (trips p)))
                    topLoc_init) as [Hr|Hr].
        -- rewrite Hr in Hpos. discriminate Hpos.
        -- apply elem_of_values in Hr as [k Hk].
           apply locCounts_coords in Hk as (t & l & Ht & Hl & Hc).
           right. exists t, l. split; [exact Ht|]. split; [exact Hl|].
           rewrite Hc. reflexivity.
      * intros Hnil. rewrite Hnil in Hlen. discriminate Hlen.
    + split; [reflexivity|]. split; [left; reflexivity|reflexivity].
  - simpl. split; [reflexivity|]. split; [left; reflexivity|reflexivity].
Qed.

Lemma autoCenter_without_highlight_witness :
  (autoCenter_target (ext := equator) (globe [] None)).1 = fallbackRotation.
Proof.
  apply (autoCenter_without_highlight (ext := equator) (globe [] None) eq_refl).
  reflexivity.
Defined.

(** ** The effects *)

Lemma length_append (a b : string) :
  String.length (a +:+ b) = (String.length a + String.length b)%nat.
Proof. induction a as [|c a IH]; simpl; [reflexivity|]. rewrite IH. reflexivity. Qed.

Lemma append_inv_tail (a1 a2 b : string) : a1 +:+ b = a2 +:+ b -> a1 = a2.
Proof.
  revert a2. induction a1 as [|c a1 IH]; intros [|c2 a2] H; simpl in H.
  - reflexivity.
  - apply (f_equal String.length) in H.
    rewrite ?length_append in H. simpl in H. rewrite ?length_append in H. lia.
  - apply (f_equal String.length) in H.
    rewrite ?length_append in H. simpl in H. rewrite ?length_append in H. lia.
  - injection H as -> H. f_equal. apply IH, H.
Qed.

Lemma last_char_append (a b : string) :
  b <> EmptyString -> last_char (a +:+ b) = last_char b.
Proof.
  intros Hb. induction a as [|c a IH]; simpl; [reflexivity|].
  rewrite IH. destruct (a +:+ b) eqn:E; [|reflexivity].
  exfalso. destruct a; simpl in E; [exact (Hb E)|discriminate E].
Qed.

Lemma propsKey_eq p :
  propsKey p
  = join_comma (id <$> trips p) +:+ "-" +:+ highlightId p +:+ "-"
      +:+ viewModeName (viewMode p).
Proof. reflexivity. Qed.

Lemma propsKey_nonempty p : String.eqb "" (propsKey p) = false.
Proof.
  apply String.eqb_neq. rewrite propsKey_eq.
  destruct (join_comma _); discriminate.
Qed.

Lemma propsKey_last p :
  last_char (propsKey p) = last_char (viewModeName (viewMode p)).
Proof.
  rewrite propsKey_eq.
  rewrite last_char_append by discriminate.
  change ("-" +:+ highlightId p +:+ "-" +:+ viewModeName (viewMode p))%string
    with (String "-" (highlightId p +:+ String "-" (viewModeName (viewMode p)))).
  assert (Hn : forall v, (highlightId p +:+ String "-" v)%string <> EmptyString)
    by (intros v; destruct (highlightId p); discriminate).
  simpl. destruct (highlightId p +:+ _)%string eqn:E; [destruct (Hn _ E)|].
  rewrite <- E. rewrite last_char_append by discriminate.
  destruct (viewMode p); reflexivity.
Qed.

(** X11. The effect on [trips, highlightTrip, viewMode] frames the map
    on the first run, and does nothing when it runs again with props of the
    same key. A change of [viewMode] always frames again. With the same trip
    ids and view mode it frames again exactly when the highlight id differs,
    where no highlight counts as the id [none]: a highlighted trip whose id
    is [none] is not told apart from no highlight. *)
Theorem keyEffect_frames_on_change {ext : Externals} {dom : DOM}
    (p p' : Props) (s : State) :
  keyEffect p "" s = (propsKey p, autoCenter p s)
  /\ keyEffect p (propsKey p) s = (propsKey p, (s, []))
  /\ (viewMode p' <> viewMode p ->
      keyEffect p' (propsKey p) s = (propsKey p', autoCenter p' s))
  /\ (id <$> trips p' = id <$> trips p -> viewMode p' = viewMode p ->
      (highlightId p' <> highlightId p ->
       keyEffect p' (propsKey p) s = (propsKey p', autoCenter p' s))
      /\ (highlightId p' = highlightId p ->
          keyEffect p' (propsKey p) s = (propsKey p, (s, [])))).
Proof.
  unfold keyEffect. split; [|split; [|split]].
  - rewrite propsKey_nonempty. reflexivity.
  - rewrite String.eqb_refl. reflexivity.
  - intros Hv.
    assert (Hne : propsKey p <> propsKey p').
    { intros E. apply (f_equal last_char) in E. rewrite !propsKey_last in E.
      destruct (viewMode p), (viewMode p'); try discriminate E;
        apply Hv; reflexivity. }
    apply String.eqb_neq in Hne. rewrite Hne. reflexivity.
  - intros Ht Hv. split.
    + intros Hh.
      assert (Hne : propsKey p <> propsKey p').
      { intros E. rewrite !propsKey_eq, Ht, Hv in E.
        apply String.app_inj in E. simpl in E. injection E as E.
        apply (append_inv_tail (highlightId p) (highlightId p')) in E.
        congruence. }
      apply String.eqb_neq in Hne. rewrite Hne. reflexivity.
    + intros Hh.
      assert (E : propsKey p = propsKey p')
        by (rewrite !propsKey_eq, Ht, Hv, Hh; reflexivity).
      rewrite <- E, String.eqb_refl. reflexivity.
Qed.

Lemma zoomChangeEffect_eq {ext : Externals} {dom : DOM} p (s : State) dz dr :
  defaultState s = Some (dz, dr) ->
  onZoomChange p = true ->
  zoomChangeEffect p s = [OnZoomChange (Qltb 0.1 (Math_abs (zoom s - dz)))].
Proof. intros Hd Hcb. unfold zoomChangeEffect. rewrite Hd, Hcb. reflexivity. Qed.

Lemma keyEffect_frames_on_change_witness :
  keyEffect (ext := equator) (backdrop [quarter])
    (propsKey (globe [quarter] None)) idle
  = (propsKey (backdrop [quarter]),
     autoCenter (ext := equator) (backdrop [quarter]) idle).
Proof.
  destruct (keyEffect_frames_on_change (ext := equator) (globe [quarter] None)
              (backdrop [quarter]) idle) as (_ & _ & H & _).
  apply H. simpl. discriminate.
Defined.

(** X12. With an [onZoomChange] callback, framing reports [false],
    records the new zoom and rotation as the default state, and the
    zoom-change effect then reports [false] again, also after any change of
    rotation alone; a double click from the framed state, with interaction
    enabled and the zoom below 3999.9, makes it report [true]. *)
Theorem framing_resets_zoomed {ext : Externals} {dom : DOM}
    (p : Props) (innerHeight : Q) (s : State) :
  onZoomChange p = true ->
  let s1 := (autoCenter p s).1 in
  (autoCenter p s).2 = [OnZoomChange false]
  /\ defaultState s1 = Some (zoom s1, rotation s1)
  /\ zoomChangeEffect p s1 = [OnZoomChange false]
  /\ (forall r, zoomChangeEffect p (with_rotation r s1) = [OnZoomChange false])
  /\ (interactionEnabled p = true -> zoom s1 < 3999.9 ->
      zoomChangeEffect p (step p innerHeight s1 DoubleClick)
      = [OnZoomChange true]).
Proof.
  intros Hcb s1.
  pose proof (autoCenter_zoom_ok p s) as Hz. fold s1 in Hz.
  assert (Hd : defaultState s1 = Some (zoom s1, rotation s1)).
  { unfold s1, autoCenter. destruct (autoCenter_target p). reflexivity. }
  assert (H0 : Qltb 0.1 (Math_abs (zoom s1 - zoom s1)) = false).
  { unfold Math_abs. apply Qltb_ge. apply Qabs_case; intros; lra. }
  split; [|split; [exact Hd|split; [|split]]].
  - unfold autoCenter. destruct (autoCenter_target p). simpl.
    rewrite Hcb. reflexivity.
  - rewrite (zoomChangeEffect_eq p s1 _ _ Hd Hcb), H0. reflexivity.
  - intros r.
    rewrite (zoomChangeEffect_eq p (with_rotation r s1) _ _ Hd Hcb).
    change (zoom (with_rotation r s1)) with (zoom s1). rewrite H0. reflexivity.
  - intros Hi Hlt.
    assert (Hs2 : step p innerHeight s1 DoubleClick
                  = with_zoom (zoomIn (zoom s1)) s1).
    { unfold step. simpl. unfold handleDoubleClick. rewrite Hi. reflexivity. }
    rewrite Hs2.
    rewrite (zoomChangeEffect_eq p (with_zoom (zoomIn (zoom s1)) s1) _ _ Hd Hcb).
    change (zoom (with_zoom (zoomIn (zoom s1)) s1)) with (zoomIn (zoom s1)).
    assert (H1 : Qltb 0.1 (Math_abs (zoomIn (zoom s1) - zoom s1)) = true).
    { unfold Math_abs, zoomIn, zoom_ok in *. apply Qltb_lt.
      apply Qabs_case; intros; gen_minmax; lra. }
    rewrite H1. reflexivity.
Qed.

Lemma framing_resets_zoomed_witness :
  let p := {| trips := []; highlightTrip := None; viewMode := routes;
              interactionEnabled := true; onZoomChange := true;
              enableWordCloud := false; hideBackground := false |} in
  zoomChangeEffect p (autoCenter (ext := equator) p idle).1
  = [OnZoomChange false].
Proof.
  intros p.
  apply (framing_resets_zoomed (ext := equator) p 800 idle eq_refl).
Defined.

(** ** Markers, continued *)

Section MarkerMore.
Context {ext : Externals} {dom : DOM}.

Lemma destinationMarkers_shape s k ts m :
m ∈ destinationMarkers s k ts ->
r m = 3 /\ exists i, key m = key_dest_at i /\ (k <= i < k + length ts)%nat.
Proof.
revert k. induction ts as [|t ts IH]; intros k; simpl.
- intros H. apply elem_of_nil in H. destruct H.
- intros H. apply elem_of_app in H as [H|H].
  + repeat case_match; try (apply elem_of_nil in H; destruct H).
    apply list_elem_of_singleton in H. subst m. simpl.
    split; [reflexivity|]. exists k. split; [reflexivity|lia].
  + destruct (IH _ H) as (Hr & i & Hk & Hi).
    split; [exact Hr|]. exists i. split; [exact Hk|lia].
Qed.

Lemma destinationMarkers_NoDup s k ts :
NoDup (key <$> destinationMarkers s k ts)
/\ (length (destinationMarkers s k ts) <= length ts)%nat.
Proof.
revert k. induction ts as [|t ts IH]; intros k; simpl.
- split; [constructor|lia].
- destruct (IH (S k)) as [Hnd Hlen].
  rewrite fmap_app, length_app. split.
  + apply NoDup_app. split; [|split; [|exact Hnd]].
    * repeat case_match; simpl; try constructor;
        [apply not_elem_of_nil|constructor].
    * intros x Hx Hx'.
      apply list_elem_of_fmap in Hx' as (m & -> & Hm).
      apply destinationMarkers_shape in Hm as (_ & i & Hk & Hi).
      repeat case_match; simpl in Hx;
        try (apply elem_of_nil in Hx; destruct Hx).
      apply list_elem_of_singleton in Hx. rewrite Hk in Hx.
      injection Hx as Hx. lia.
  + repeat case_match; simpl; lia.
Qed.
End MarkerMore.

(** X13. The React keys of the markers are pairwise distinct. Without a
    highlighted trip there is at most one marker per trip, each of radius 3
    and keyed [dest-i] with [i] the position of a trip; with a highlighted
    trip there are at most two markers, keyed [origin] and [dest]. *)
Theorem renderPoints_keys_distinct {ext : Externals} {dom : DOM}
    (p : Props) (s : State) :
  NoDup (key <$> renderPoints p s)
  /\ (highlightTrip p = None ->
      (length (renderPoints p s) <= length (trips p))%nat
      /\ forall m, m ∈ renderPoints p s ->
           r m = 3
           /\ exists i, key m = key_dest_at i /\ (i < length (trips p))%nat)
  /\ (is_Some (highlightTrip p) ->
      (length (renderPoints p s) <= 2)%nat
      /\ forall m, m ∈ renderPoints p s ->
           key m = key_origin \/ key m = key_dest).
Proof.
  unfold renderPoints. destruct (highlightTrip p) as [ht|] eqn:Hh.
  - split; [|split; [discriminate|]].
    + destruct (project _ (point_of (origin ht))),
        (project _ (point_of (destination ht))); simpl;
        repeat constructor;
        rewrite ?elem_of_cons, ?elem_of_nil; intuition discriminate.
    + intros _.
      destruct (project _ (point_of (origin ht))),
        (project _ (point_of (destination ht))); simpl;
        (split; [lia|]); intros m Hm;
        repeat (apply elem_of_cons in Hm as [->|Hm]; [simpl; tauto|]);
        apply elem_of_nil in Hm; destruct Hm.
  - assert (Hv : (match viewMode p with
                  | routes | visited => destinationMarkers s 0 (trips p)
                  end) = destinationMarkers s 0 (trips p))
      by (destruct (viewMode p); reflexivity).
    rewrite Hv. destruct (destinationMarkers_NoDup s 0 (trips p)) as [Hnd Hlen].
    split; [exact Hnd|]. split; [|intros [? ?]; discriminate].
    intros _. split; [exact Hlen|]. intros m Hm.
    apply destinationMarkers_shape in Hm as (Hr & i & Hk & Hi).
    split; [exact Hr|]. exists i. split; [exact Hk|lia].
Qed.

Lemma renderPoints_highlight {ext : Externals} {dom : DOM} p (s : State) ht :
  highlightTrip p = Some ht ->
  renderPoints p s
  = let dotSize :=
      (3.5 + Math_log (zoom s) * 0.6)
      * (if interactionEnabled p then 1 else 1.5) in
    match project (projection s) (point_of (origin ht)) with
    | Some o => [ {| cx := o.1; cy := o.2; r := dotSize; fill := "#38bdf8";
                     key := key_origin |} ]
    | None => []
    end ++
    match project (projection s) (point_of (destination ht)) with
    | Some d => [ {| cx := d.1; cy := d.2; r := dotSize; fill := "#818cf8";
                     key := key_dest |} ]
    | None => []
    end.
Proof.
  intros Hh. unfold renderPoints. rewrite Hh.
  rewrite bool_decide_eq_true_2 by eauto.
  destruct (interactionEnabled p); reflexivity.
Qed.

(** X14. With a highlighted trip the origin and the destination each
    get a marker exactly when their projection is defined, with no test of
    the visible hemisphere; every marker has radius
    [(3.5 + log zoom * 0.6)], times 1.5 when interaction is disabled; and
    the markers do not depend on [trips], [viewMode], [enableWordCloud] or
    [hideBackground]. *)
Theorem highlight_markers_without_hemisphere_test
    {ext : Externals} {dom : DOM} (p : Props) (s : State) (ht : Trip) :
  highlightTrip p = Some ht ->
  let dotSize :=
    (3.5 + Math_log (zoom s) * 0.6)
    * (if interactionEnabled p then 1 else 1.5) in
  ((exists m, m ∈ renderPoints p s /\ key m = key_origin)
   <-> is_Some (project (projection s) (point_of (origin ht))))
  /\ ((exists m, m ∈ renderPoints p s /\ key m = key_dest)
      <-> is_Some (project (projection s) (point_of (destination ht))))
  /\ (forall m, m ∈ renderPoints p s -> r m = dotSize)
  /\ (forall ts vm wc hb,
        renderPoints
          {| trips := ts; highlightTrip := Some ht; viewMode := vm;
             interactionEnabled := interactionEnabled p;
             onZoomChange := onZoomChange p; enableWordCloud := wc;
             hideBackground := hb |} s
        = renderPoints p s).
Proof.
  intros Hh dotSize.
  assert (Hm : forall m, m ∈ renderPoints p s ->
             r m = dotSize
             /\ ((key m = key_origin
                  /\ is_Some (project (projection s) (point_of (origin ht))))
                 \/ (key m = key_dest
                     /\ is_Some (project (projection s)
                                   (point_of (destination ht)))))).
  { intros m. rewrite (renderPoints_highlight p s ht Hh). fold dotSize.
    cbv zeta.
    destruct (project _ (point_of (origin ht))) as [o|],
      (project _ (point_of (destination ht))) as [d|]; simpl; intros Hin;
      repeat (apply elem_of_cons in Hin as [->|Hin];
              [split; [reflexivity|]; simpl; eauto|]);
      apply elem_of_nil in Hin; destruct Hin. }
  split; [|split; [|split]].
  - split.
    + intros (m & Hin & Hk). destruct (Hm m Hin) as [_ [[_ H]|[H _]]];
        [exact H|congruence].
    + intros [o Ho]. rewrite (renderPoints_highlight p s ht Hh), Ho.
      eexists. split; [apply list_elem_of_here|reflexivity].
  - split.
    + intros (m & Hin & Hk). destruct (Hm m Hin) as [_ [[H _]|[_ H]]];
        [congruence|exact H].
    + intros [d Hd]. rewrite (renderPoints_highlight p s ht Hh), Hd.
      eexists. split;
        [apply elem_of_app; right; apply list_elem_of_here|reflexivity].
  - intros m Hin. apply Hm, Hin.
  - intros ts vm wc hb.
    rewrite (renderPoints_highlight p s ht Hh).
    set (p2 := {| trips := ts; highlightTrip := Some ht; viewMode := vm;
                  interactionEnabled := interactionEnabled p;
                  onZoomChange := onZoomChange p; enableWordCloud := wc;
                  hideBackground := hb |}).
    assert (H2 : highlightTrip p2 = Some ht) by reflexivity.
    rewrite (renderPoints_highlight p2 s ht H2). reflexivity.
Qed.

Lemma highlight_markers_without_hemisphere_test_witness :
  exists m, m ∈ renderPoints (ext := equator) (globe [quarter] (Some quarter)) idle
            /\ key m = key_dest.
Proof.
  apply (highlight_markers_without_hemisphere_test (ext := equator)
           (globe [quarter] (Some quarter)) idle quarter eq_refl).
  eexists. reflexivity.
Defined.

Lemma renderPoints_keys_distinct_witness :
  (length (renderPoints (ext := equator) (globe [short; quarter] None) idle)
   <= length (trips (globe [short; quarter] None)))%nat.
Proof.
  destruct (renderPoints_keys_distinct (ext := equator)
              (globe [short; quarter] None) idle) as (_ & H & _).
  apply H. reflexivity.
Defined.

(** ** The word cloud, continued *)

Lemma insertByCount_perm a (items : list WordCount) :
  insertByCount a items ≡ₚ a :: items.
Proof.
  induction items as [|b items IH]; simpl; [reflexivity|].
  destruct (_ <=? _)%Z; [reflexivity|].
  rewrite IH. apply Permutation_swap.
Qed.

Lemma sortByCount_perm (items : list WordCount) : sortByCount items ≡ₚ items.
Proof.
  unfold sortByCount. induction items as [|a items IH]; simpl; [reflexivity|].
  rewrite insertByCount_perm, IH. reflexivity.
Qed.

Lemma insertByCount_sorted a (items : list WordCount) :
  StronglySorted byFrequency items ->
  StronglySorted byFrequency (insertByCount a items).
Proof.
  induction 1 as [|b items Hs IH Hb]; simpl.
  - constructor; constructor.
  - destruct (Z.leb_spec (wc_count b) (wc_count a)) as [Hle|Hlt].
    + constructor; [constructor; assumption|].
      constructor; [exact Hle|].
      eapply Forall_impl; [exact Hb|]. unfold byFrequency. intros; lia.
    + constructor; [exact IH|].
      rewrite insertByCount_perm. constructor; [|exact Hb].
      unfold byFrequency. lia.
Qed.

Lemma sortByCount_sorted (items : list WordCount) :
  StronglySorted byFrequency (sortByCount items).
Proof.
  unfold sortByCount. induction items as [|a items IH]; simpl;
    [constructor|apply insertByCount_sorted, IH].
Qed.

Lemma StronglySorted_take {A} (R : A -> A -> Prop) n (l : list A) :
  StronglySorted R l -> StronglySorted R (take n l).
Proof.
  intros Hs. revert n. induction Hs as [|a l Hs IH Ha]; intros [|n]; simpl;
    try constructor; [apply IH|].
  apply Forall_take, Ha.
Qed.

Lemma sorted_head_last (items : list WordCount) item :
  StronglySorted byFrequency items ->
  item ∈ items ->
  (default 0%Z (wc_count <$> last items) <= wc_count item
   <= default 0%Z (wc_count <$> head items))%Z.
Proof.
  intros Hs Hin. split.
  - induction Hs as [|a l Hs IH Ha]; [apply elem_of_nil in Hin; destruct Hin|].
    destruct l as [|b l].
    + apply list_elem_of_singleton in Hin. subst. simpl. lia.
    + change (last (a :: b :: l)) with (last (b :: l)).
      apply elem_of_cons in Hin as [->|Hin]; [|apply IH, Hin].
      assert (Hl : exists z, last (b :: l) = Some z /\ z ∈ b :: l).
      { destruct (last (b :: l)) as [z|] eqn:E.
        - exists z. split; [reflexivity|]. apply last_Some_elem_of, E.
        - apply last_None in E. discriminate. }
      destruct Hl as (z & -> & Hz). simpl.
      rewrite Forall_forall in Ha. apply (Ha z Hz).
  - destruct Hs as [|a l Hs Ha]; [apply elem_of_nil in Hin; destruct Hin|].
    simpl. apply elem_of_cons in Hin as [->|Hin]; [lia|].
    rewrite Forall_forall in Ha. apply (Ha item Hin).
Qed.

Lemma wordCloudItems_split ts :
  let all := sortByCount (Obj.values (fold_left countTripWords ts Obj.empty)) in
  all = wordCloudItems ts ++ drop (length (wordCloudItems ts)) all
  /\ wordCloudItems ts = take 50 all.
Proof.
  intros all. unfold wordCloudItems. fold all.
  destruct (50 <? length all)%nat eqn:H50.
  - split; [|reflexivity]. apply Nat.ltb_lt in H50.
    rewrite length_take, Nat.min_l by lia. symmetry. apply take_drop.
  - apply Nat.ltb_ge in H50. split.
    + rewrite drop_all, app_nil_r. reflexivity.
    + symmetry. apply take_ge. lia.
Qed.

(** The tally keeps [counts_inv]. *)

Section DictKeys.
Context {V : Type}.
Implicit Types (o : Obj.t V) (k : string) (v : V).

Lemma get_own_None o k : Obj.get_own o k = None <-> k ∉ o.*1.
Proof.
induction o as [|[k0 v0] o IH]; simpl.
- split; [intros _; apply not_elem_of_nil|reflexivity].
- rewrite not_elem_of_cons. destruct (String.eqb k0 k) eqn:E.
  + apply String.eqb_eq in E. split; [discriminate|]. intros [H _]. congruence.
  + apply String.eqb_neq in E. rewrite IH. split; [|tauto].
    intros H. split; [congruence|exact H].
Qed.

Lemma keys_set_present o k v w :
Obj.get_own o k = Some w -> (Obj.set o k v).*1 = o.*1.
Proof.
induction o as [|[k0 v0] o IH]; simpl; [discriminate|].
destruct (String.eqb k0 k) eqn:E; [reflexivity|].
intros H. simpl. f_equal. apply IH, H.
Qed.
End DictKeys.

Lemma array_index_countsKey wc : Obj.array_index (countsKey wc) = None.
Proof. unfold countsKey. destruct (wc_type wc); reflexivity. Qed.

Lemma countsKey_own wc : countsKey wc ∉ Obj.proto_keys.
Proof.
  unfold countsKey. apply word_key_own.
  destruct (wc_type wc); simpl; repeat constructor.
Qed.

Lemma countWord_inv counts ty text :
  text <> EmptyString ->
  counts_inv counts ->
  counts_inv (countWord counts (cloudPrefix ty +:+ text) ty text).
Proof.
  intros Ht [Hnd Hall].
  set (k := (cloudPrefix ty +:+ text)%string).
  set (w0 := {| wc_type := ty; wc_count := 0; wc_text := text |}).
  assert (Hk : k ∉ Obj.proto_keys) by (apply (countsKey_own w0)).
  unfold countWord, Obj.absent, Obj.get. fold k w0.
  rewrite (bool_decide_eq_false_2 _ Hk).
  destruct (Obj.get_own counts k) as [wc|] eqn:Hg.
  - rewrite Hg. split.
    + rewrite (keys_set_present _ _ _ _ Hg). exact Hnd.
    + intros k' wc' Hin. apply elem_of_set in Hin as [Hin|[= -> ->]];
        [apply Hall, Hin|].
      destruct (Hall k wc (get_own_elem _ _ _ Hg)) as (Hkey & Htext & Hc).
      unfold countsKey in *. simpl. split; [exact Hkey|].
      split; [exact Htext|lia].
  - rewrite get_own_set, set_set, (set_absent _ _ _ Hg). split.
    + rewrite fmap_app. apply NoDup_app. split; [exact Hnd|]. split.
      * intros x Hx Hx'. simpl in Hx'. apply list_elem_of_singleton in Hx'.
        subst x. apply get_own_None in Hg. contradiction.
      * simpl. apply NoDup_singleton.
    + intros k' wc' Hin. apply elem_of_app in Hin as [Hin|Hin];
        [apply Hall, Hin|].
      apply list_elem_of_singleton in Hin. injection Hin as -> ->.
      unfold countsKey. simpl. split; [reflexivity|]. split; [exact Ht|lia].
Qed.

Lemma countIfTruthy_inv counts ty x :
  counts_inv counts -> counts_inv (countIfTruthy counts (cloudPrefix ty) ty x).
Proof.
  intros Hinv. unfold countIfTruthy. destruct x as [text|]; [|exact Hinv].
  destruct (truthy (Some text)) eqn:Ht; [|exact Hinv].
  apply countWord_inv; [|exact Hinv].
  simpl in Ht. apply negb_true_iff, String.eqb_neq in Ht. exact Ht.
Qed.

Lemma fold_countTripWords_inv ts counts :
  counts_inv counts -> counts_inv (fold_left countTripWords ts counts).
Proof.
  revert counts. induction ts as [|t ts IH]; intros counts Hinv; [exact Hinv|].
  simpl. apply IH. unfold countTripWords.
  apply (countIfTruthy_inv _ city_word), (countIfTruthy_inv _ province_word),
    (countIfTruthy_inv _ country_word), Hinv.
Qed.

Lemma counts_inv_empty : counts_inv Obj.empty.
Proof.
  split; [constructor|]. intros k wc H. apply elem_of_nil in H. destruct H.
Qed.

Lemma values_counts ts :
  let counts := fold_left countTripWords ts Obj.empty in
  Obj.values counts = counts.*2
  /\ NoDup (countsKey <$> counts.*2)
  /\ forall wc, wc ∈ counts.*2 ->
       wc_text wc <> EmptyString /\ (1 <= wc_count wc)%Z.
Proof.
  intros counts.
  destruct (fold_countTripWords_inv ts Obj.empty counts_inv_empty)
    as [Hnd Hall]. fold counts in Hnd, Hall.
  split; [|split].
  - apply values_ordinary. intros k v Hin.
    destruct (Hall k v Hin) as [-> _]. apply array_index_countsKey.
  - assert (E : countsKey <$> counts.*2 = counts.*1); [|rewrite E; exact Hnd].
    rewrite <- list_fmap_compose. apply list_fmap_ext.
    intros i [k wc] Hl. simpl.
    destruct (Hall k wc) as [-> _]; [|reflexivity].
    eapply list_elem_of_lookup_2, Hl.
  - intros wc Hin. apply list_elem_of_fmap in Hin as ([k wc'] & -> & Hin).
    destruct (Hall k wc' Hin) as (_ & H1 & H2). simpl. split; assumption.
Qed.

Lemma NoDup_fmap_finer {A B C} (f : A -> B) (g : A -> C) (l : list A) :
  (forall a b, g a = g b -> f a = f b) ->
  NoDup (f <$> l) -> NoDup (g <$> l).
Proof.
  intros Hfg. induction l as [|a l IH]; simpl; [constructor|].
  rewrite !NoDup_cons. intros [Ha Hl]. split; [|apply IH, Hl].
  intros Hin. apply Ha. apply list_elem_of_fmap in Hin as (b & Hb & Hbl).
  rewrite (Hfg a b Hb). apply list_elem_of_fmap_2, Hbl.
Qed.

Lemma labelKey_finer a b : labelKey a = labelKey b -> countsKey a = countsKey b.
Proof.
  unfold labelKey, countsKey.
  destruct (wc_type a), (wc_type b); intros H;
    cbv [String.append wordTypeName] in H;
    first [discriminate H | injection H as H; rewrite H; reflexivity].
Qed.

Lemma wordCloudItems_facts ts :
  StronglySorted byFrequency (wordCloudItems ts)
  /\ NoDup (countsKey <$> wordCloudItems ts)
  /\ forall wc, wc ∈ wordCloudItems ts ->
       wc_text wc <> EmptyString /\ (1 <= wc_count wc)%Z.
Proof.
  destruct (wordCloudItems_split ts) as [_ ->].
  destruct (values_counts ts) as (Hv & Hnd & Hall). cbv zeta in *.
  rewrite Hv. set (vs := (fold_left countTripWords ts Obj.empty).*2) in *.
  split; [apply StronglySorted_take, sortByCount_sorted|]. split.
  - rewrite fmap_take. eapply sublist_NoDup; [|apply sublist_take].
    rewrite sortByCount_perm. exact Hnd.
  - intros wc Hin. apply Hall.
    rewrite <- (sortByCount_perm vs).
    apply elem_of_take in Hin as (i & Hl & _).
    eapply list_elem_of_lookup_2, Hl.
Qed.

Section LabelFacts.
Context {ext : Externals}.

Lemma seededRandom_range seed : 0 <= seededRandom seed < 1.
Proof.
unfold seededRandom, Math_floor.
pose proof (Qfloor_le (Math_sin seed * 10000)) as H1.
pose proof (Qlt_floor (Math_sin seed * 10000)) as H2.
rewrite inject_Z_plus in H2. change (inject_Z 1) with 1 in H2.
split; lra.
Qed.

Lemma wordCloudLabels_fmap minCount range i items :
wce_key <$> wordCloudLabels minCount range i items = labelKey <$> items
/\ wce_text <$> wordCloudLabels minCount range i items = wc_text <$> items.
Proof.
revert i. induction items as [|item items IH]; intros i; simpl;
  [split; reflexivity|].
destruct (IH (S i)) as [H1 H2]. split; f_equal; assumption.
Qed.

Lemma elem_of_wordCloudLabels minCount range i items el :
el ∈ wordCloudLabels minCount range i items ->
exists item n,
  item ∈ items
  /\ wce_text el = wc_text item
  /\ wce_left el = 15 + seededRandom (inject_Z (Z.of_nat n) * 123) * 70
  /\ wce_top el = 20 + seededRandom (inject_Z (Z.of_nat n) * 789) * 60
  /\ wce_fontSize el
     = 0.8 + inject_Z (wc_count item - minCount) / inject_Z range * 3.
Proof.
revert i. induction items as [|item items IH]; intros i; simpl.
- intros H. apply elem_of_nil in H. destruct H.
- intros H. apply elem_of_cons in H as [->|H].
  + exists item, i. split; [apply list_elem_of_here|]. repeat split.
  + destruct (IH _ H) as (item' & n & Hin & Hrest).
    exists item', n. split; [apply list_elem_of_further, Hin|exact Hrest].
Qed.

Lemma weight_range (c m M : Z) :
(1 <= m <= c)%Z -> (c <= M)%Z ->
0 <= inject_Z (c - or_one m) / inject_Z (or_one (or_one M - or_one m)) <= 1.
Proof.
intros Hm HM.
assert (Em : or_one m = m)
  by (unfold or_one; destruct (Z.eqb_spec m 0); [lia|reflexivity]).
assert (EM : or_one M = M)
  by (unfold or_one; destruct (Z.eqb_spec M 0); [lia|reflexivity]).
rewrite Em, EM.
assert (Hr : (0 < or_one (M - m))%Z /\ (c - m <= or_one (M - m))%Z).
{ unfold or_one. destruct (Z.eqb_spec (M - m) 0); lia. }
destruct Hr as [Hpos Hle].
set (D := or_one (M - m)) in *.
assert (HposQ : 0 < inject_Z D)
  by (change 0 with (inject_Z 0); rewrite <- Zlt_Qlt; exact Hpos).
split.
- apply Qle_shift_div_l; [exact HposQ|]. rewrite Qmult_0_l.
  change 0 with (inject_Z 0). rewrite <- Zle_Qle. lia.
- apply Qle_shift_div_r; [exact HposQ|]. rewrite Qmult_1_l.
  rewrite <- Zle_Qle. exact Hle.
Qed.
End LabelFacts.

(** X15. Every label of the word cloud lies in the box: its left is in
    [15, 85), its top in [20, 80), its font size in [0.8, 3.8], and its text
    is not empty, whatever the sine function returns. *)
Theorem wordCloud_labels_in_box {ext : Externals} (p : Props)
    (el : WordCloudElement) :
  el ∈ wordCloudElements p ->
  15 <= wce_left el < 85
  /\ 20 <= wce_top el < 80
  /\ 0.8 <= wce_fontSize el <= 3.8
  /\ wce_text el <> EmptyString.
Proof.
  unfold wordCloudElements.
  destruct (_ && _); [intros H; apply elem_of_nil in H; destruct H|].
  destruct (bool_decide _); [intros H; apply elem_of_nil in H; destruct H|].
  unfold wordCloudLayout. intros Hin.
  apply elem_of_wordCloudLabels in Hin
    as (item & n & Hitem & Htext & Hleft & Htop & Hfont).
  destruct (wordCloudItems_facts (trips p)) as (Hs & _ & Hall).
  destruct (Hall item Hitem) as [Hne H1].
  pose proof (sorted_head_last _ item Hs Hitem) as [Hlo Hhi].
  assert (Hmin : (1 <= default 0%Z (wc_count <$> last (wordCloudItems (trips p))))%Z).
  { destruct (last (wordCloudItems (trips p))) as [z|] eqn:E.
    - simpl. apply (Hall z). apply last_Some_elem_of, E.
    - apply last_None in E. rewrite E in Hitem.
      apply elem_of_nil in Hitem. destruct Hitem. }
  pose proof (weight_range (wc_count item) _ _ (conj Hmin Hlo) Hhi) as Hw.
  pose proof (seededRandom_range (inject_Z (Z.of_nat n) * 123)) as Hx.
  pose proof (seededRandom_range (inject_Z (Z.of_nat n) * 789)) as Hy.
  rewrite Hleft, Htop, Hfont, Htext.
  set (w := inject_Z _ / inject_Z _) in *.
  repeat split; try lra. exact Hne.
Qed.

Lemma wordCloud_labels_in_box_witness :
  wordCloudElements (ext := equator) (globe [quarter] None) <> []
  /\ Forall (fun el => 0.8 <= wce_fontSize el <= 3.8)
       (wordCloudElements (ext := equator) (globe [quarter] None)).
Proof.
  split; [discriminate|].
  apply Forall_forall. intros el Hin.
  apply (wordCloud_labels_in_box (ext := equator) (globe [quarter] None) el Hin).
Defined.

(** X16. The word cloud shows the most frequent words. The ranked list
    is a rearrangement of the entries counted, in order of non-increasing
    count; the items shown are its first 50; every entry left out counts at
    most as much as every entry shown; and the labels carry the texts of the
    items in the same order. *)
Theorem wordCloud_most_frequent_first {ext : Externals} (ts : list Trip) :
  let counts := fold_left countTripWords ts Obj.empty in
  let ranked := sortByCount (Obj.values counts) in
  ranked ≡ₚ counts.*2
  /\ StronglySorted byFrequency ranked
  /\ wordCloudItems ts = take 50 ranked
  /\ (forall kept dropped,
        kept ∈ wordCloudItems ts -> dropped ∈ drop 50 ranked ->
        (wc_count dropped <= wc_count kept)%Z)
  /\ wce_text <$> wordCloudLayout ts = wc_text <$> wordCloudItems ts.
Proof.
  intros counts ranked.
  destruct (values_counts ts) as (Hv & _ & _). cbv zeta in Hv. fold counts in Hv.
  destruct (wordCloudItems_split ts) as [_ Htake]. fold counts ranked in Htake.
  pose proof (sortByCount_sorted (Obj.values counts)) as Hs. fold ranked in Hs.
  split; [unfold ranked; rewrite sortByCount_perm, Hv; reflexivity|].
  split; [exact Hs|]. split; [exact Htake|]. split.
  - intros kept dropped Hk Hd. rewrite Htake in Hk.
    rewrite <- (take_drop 50 ranked) in Hs.
    apply (StronglySorted_app_cross _ _ _ Hs kept dropped Hk Hd).
  - unfold wordCloudLayout. apply wordCloudLabels_fmap.
Qed.

Lemma wordCloud_most_frequent_first_witness :
  wordCloudItems sixty
  = take 50 (sortByCount (Obj.values (fold_left countTripWords sixty Obj.empty))).
Proof.
  apply (wordCloud_most_frequent_first (ext := equator) sixty).
Defined.

(** X17. The React keys of the labels of the word cloud are pairwise
    distinct. *)
Theorem wordCloud_keys_distinct {ext : Externals} (p : Props) :
  NoDup (wce_key <$> wordCloudElements p).
Proof.
  unfold wordCloudElements.
  destruct (_ && _); [constructor|]. destruct (bool_decide _); [constructor|].
  unfold wordCloudLayout.
  destruct (wordCloudLabels_fmap
              (or_one (default 0%Z (wc_count <$> last (wordCloudItems (trips p)))))
              (or_one (or_one (default 0%Z (wc_count <$> head (wordCloudItems (trips p))))
                       - or_one (default 0%Z (wc_count <$> last (wordCloudItems (trips p))))))
              0 (wordCloudItems (trips p))) as [-> _].
  destruct (wordCloudItems_facts (trips p)) as (_ & Hnd & _).
  eapply NoDup_fmap_finer; [apply labelKey_finer|exact Hnd].
Qed.

(** ** The loader, continued *)

Section LoaderMore.
Context {Geometry : Type}.
Implicit Types (w : Loader.World Geometry) (c i : nat).

Lemma reachable_foldl w evs :
Loader.reachable w -> Loader.reachable (foldl Loader.step w evs).
Proof.
revert w. induction evs as [|ev evs IH]; intros w Hr; [exact Hr|].
simpl. apply IH. constructor. exact Hr.
Qed.

Lemma cached_step w ev data :
Loader.single_flight w ->
Loader.cachedWorldData w = Some data ->
Loader.cachedWorldData (Loader.step w ev) = Some data
/\ Loader.fetches (Loader.step w ev) = Loader.fetches w
/\ Loader.chains (Loader.step w ev) = Loader.chains w.
Proof.
intros Hsf Hc. destruct ev as [i|c result]; simpl.
- unfold Loader.mount, Loader.fetches. rewrite Hc. simpl. auto.
- unfold Loader.settle.
  destruct (Loader.chains w !! c) as [[ws|d]|] eqn:E; auto.
  destruct (Hsf c) as [_ Hn]; [eexists; exact E|]. congruence.
Qed.

Lemma mount_cache_agrees w i :
Loader.single_flight w -> cache_agrees w -> cache_agrees (Loader.mount w i).
Proof.
intros Hsf [Hd Hs]. unfold Loader.mount.
destruct (Loader.cachedWorldData w) as [data|] eqn:Hc.
- split; simpl.
  + intros j d Hin. apply elem_of_app in Hin as [Hin|Hin].
    * specialize (Hd j d Hin). congruence.
    * apply list_elem_of_singleton in Hin. congruence.
  + intros c d Hl. specialize (Hs c d Hl). congruence.
- assert (Hnone : forall j d, (j, d) ∈ Loader.delivered w -> False)
    by (intros j d Hin; specialize (Hd j d Hin); congruence).
  assert (Hnos : forall c d,
             Loader.chains w !! c = Some (Loader.Settled (Some d)) -> False)
    by (intros c d Hl; specialize (Hs c d Hl); congruence).
  unfold Loader.subscribe, Loader.ensureFetch.
  destruct (Loader.dataFetchPromise w) as [c0|] eqn:Hp; simpl.
  + rewrite Hp.
    destruct (Loader.chains w !! c0) as [[ws|[d|]]|] eqn:E; simpl;
      try (split; [intros j d' Hin; destruct (Hnone j d' Hin)
                  |intros c d' Hl; destruct (Hnos c d' Hl)]).
    * split; simpl; [intros j d' Hin; destruct (Hnone j d' Hin)|].
      intros c d' Hl. destruct (decide (c = c0)) as [->|Hne].
      -- rewrite list_lookup_insert_eq in Hl
           by (eapply lookup_lt_Some, E). discriminate.
      -- rewrite list_lookup_insert_ne in Hl by congruence.
         destruct (Hnos c d' Hl).
    * destruct (Hnos c0 d E).
  + rewrite lookup_app_r, Nat.sub_diag by lia. simpl.
    split; simpl; [intros j d' Hin; destruct (Hnone j d' Hin)|].
    intros c d' Hl.
    destruct (decide (c = length (Loader.chains w))) as [->|Hne].
    * rewrite list_lookup_insert_eq in Hl
        by (rewrite length_app; simpl; lia). discriminate.
    * rewrite list_lookup_insert_ne in Hl by congruence.
      destruct (decide (c < length (Loader.chains w))%nat) as [Hlt|Hge].
      -- rewrite lookup_app_l in Hl by exact Hlt. destruct (Hnos c d' Hl).
      -- apply lookup_lt_Some in Hl. rewrite length_app in Hl.
         simpl in Hl. lia.
Qed.

Lemma settle_cache_agrees w c result :
Loader.single_flight w -> cache_agrees w ->
cache_agrees (Loader.settle w c result).
Proof.
intros Hsf [Hd Hs]. unfold Loader.settle.
destruct (Loader.chains w !! c) as [[ws|d]|] eqn:E;
  try (split; assumption).
destruct (Hsf c) as [_ Hn]; [eexists; exact E|].
assert (Hnone : forall j d, (j, d) ∈ Loader.delivered w -> False)
  by (intros j d Hin; specialize (Hd j d Hin); congruence).
assert (Hnos : forall c d,
           Loader.chains w !! c = Some (Loader.Settled (Some d)) -> False)
  by (intros c' d Hl; specialize (Hs c' d Hl); congruence).
destruct result as [land|]; split; simpl.
- intros j d Hin. apply elem_of_app in Hin as [Hin|Hin];
    [destruct (Hnone j d Hin)|].
  apply list_elem_of_fmap in Hin as (j' & [= -> ->] & _). reflexivity.
- intros c' d Hl. destruct (decide (c' = c)) as [->|Hne].
  + rewrite list_lookup_insert_eq in Hl by (eapply lookup_lt_Some, E).
    congruence.
  + rewrite list_lookup_insert_ne in Hl by congruence.
    destruct (Hnos c' d Hl).
- intros j d Hin. destruct (Hnone j d Hin).
- intros c' d Hl. destruct (decide (c' = c)) as [->|Hne].
  + rewrite list_lookup_insert_eq in Hl by (eapply lookup_lt_Some, E).
    discriminate.
  + rewrite list_lookup_insert_ne in Hl by congruence.
    destruct (Hnos c' d Hl).
Qed.

Lemma reachable_cache_agrees w : Loader.reachable w -> cache_agrees w.
Proof.
induction 1 as [|w ev Hr IH].
- split; [intros i d H|intros c d H]; [apply elem_of_nil in H; destruct H|].
  discriminate.
- pose proof (LoaderFacts.reachable_single_flight w Hr) as Hsf.
  destruct ev; simpl;
    auto using mount_cache_agrees, settle_cache_agrees.
Qed.

Lemma step_notWaiting w ev i :
ev <> Loader.Mount i ->
notWaiting w i ->
notWaiting (Loader.step w ev) i
/\ deliveredTo (Loader.step w ev) i = deliveredTo w i.
Proof.
intros Hev Hnw. unfold deliveredTo.
assert (Hsnoc : forall (l : list (nat * Geometry)) j d, j <> i ->
           filter (fun x => x.1 = i) (l ++ [(j, d)])
           = filter (fun x => x.1 = i) l).
{ intros l j d Hj. rewrite filter_app, filter_cons_False by exact Hj.
  rewrite filter_nil, app_nil_r. reflexivity. }
destruct ev as [j|c result]; simpl.
- assert (Hj : j <> i) by congruence.
  unfold Loader.mount.
  destruct (Loader.cachedWorldData w) as [data|]; simpl.
  + split; [exact Hnw|]. rewrite Hsnoc by exact Hj. reflexivity.
  + unfold Loader.subscribe, Loader.ensureFetch.
    destruct (Loader.dataFetchPromise w) as [c0|] eqn:Hp; simpl.
    * rewrite Hp.
      destruct (Loader.chains w !! c0) as [[ws|[d|]]|] eqn:E; simpl;
        try (split; [exact Hnw|reflexivity]).
      -- split; [|reflexivity]. intros c ws' Hl. simpl in Hl.
         destruct (decide (c = c0)) as [->|Hne].
         ++ rewrite list_lookup_insert_eq in Hl
              by (eapply lookup_lt_Some, E).
            injection Hl as <-. rewrite not_elem_of_app. split.
            ** eapply Hnw, E.
            ** rewrite list_elem_of_singleton. congruence.
         ++ rewrite list_lookup_insert_ne in Hl by congruence.
            eapply Hnw, Hl.
      -- split; [exact Hnw|]. rewrite Hsnoc by exact Hj. reflexivity.
    * rewrite lookup_app_r, Nat.sub_diag by lia. simpl.
      split; [|reflexivity]. intros c ws' Hl. simpl in Hl.
      destruct (decide (c = length (Loader.chains w))) as [->|Hne].
      -- rewrite list_lookup_insert_eq in Hl
           by (rewrite length_app; simpl; lia).
         injection Hl as <-. simpl. rewrite list_elem_of_singleton.
         congruence.
      -- rewrite list_lookup_insert_ne in Hl by congruence.
         destruct (decide (c < length (Loader.chains w))%nat) as [Hlt|Hge].
         ++ rewrite lookup_app_l in Hl by exact Hlt. eapply Hnw, Hl.
         ++ apply lookup_lt_Some in Hl. rewrite length_app in Hl.
            simpl in Hl. lia.
- unfold Loader.settle.
  destruct (Loader.chains w !! c) as [[ws|d]|] eqn:E;
    try (split; [exact Hnw|reflexivity]).
  assert (Hi : i ∉ ws) by (eapply Hnw, E).
  assert (Hstill : forall v, notWaiting
            {| Loader.cachedWorldData := v.1; Loader.dataFetchPromise := v.2.1;
               Loader.chains := <[c := Loader.Settled v.2.2.1]> (Loader.chains w);
               Loader.delivered := v.2.2.2 |} i).
  { intros v c' ws' Hl. simpl in Hl.
    destruct (decide (c' = c)) as [->|Hne].
    - rewrite list_lookup_insert_eq in Hl by (eapply lookup_lt_Some, E).
      discriminate.
    - rewrite list_lookup_insert_ne in Hl by congruence. eapply Hnw, Hl. }
  destruct result as [land|].
  + split; [apply (Hstill (Some land, (Loader.dataFetchPromise w,
                                        (Some land, _))))|].
    simpl. rewrite filter_app. 
    assert (Hf : filter (fun x : nat * Geometry => x.1 = i)
                   ((fun j => (j, land)) <$> ws) = []).
    { clear -Hi. induction ws as [|j ws IH]; [reflexivity|].
      rewrite not_elem_of_cons in Hi. destruct Hi as [Hj Hi].
      rewrite fmap_cons, filter_cons_False by (simpl; congruence).
      apply IH, Hi. }
    rewrite Hf, app_nil_r. reflexivity.
  + split; [|reflexivity].
    apply (Hstill (Loader.cachedWorldData w, (None, (None, Loader.delivered w)))).
Qed.

Lemma foldl_notWaiting w evs i :
Loader.Mount i ∉ evs ->
notWaiting w i ->
deliveredTo (foldl Loader.step w evs) i = deliveredTo w i.
Proof.
revert w. induction evs as [|ev evs IH]; intros w Hev Hnw; [reflexivity|].
rewrite not_elem_of_cons in Hev. destruct Hev as [Hne Hev].
simpl. destruct (step_notWaiting w ev i) as [Hnw' Hd];
  [congruence|exact Hnw|].
rewrite (IH _ Hev Hnw'). exact Hd.
Qed.
End LoaderMore.

Section LoaderTheorems.
Context {Geometry : Type}.
Implicit Types (w : Loader.World Geometry) (c i : nat).

Lemma mounts_wait_together (ws js : list nat) :
foldl Loader.step
  ({| Loader.cachedWorldData := None; Loader.dataFetchPromise := Some 0%nat;
      Loader.chains := [Loader.InFlight ws]; Loader.delivered := [] |}
     : Loader.World Geometry)
  (Loader.Mount <$> js)
= {| Loader.cachedWorldData := None; Loader.dataFetchPromise := Some 0%nat;
     Loader.chains := [Loader.InFlight (ws ++ js)]; Loader.delivered := [] |}.
Proof.
revert ws. induction js as [|j js IH]; intros ws.
- rewrite app_nil_r. reflexivity.
- rewrite fmap_cons. simpl foldl.
  change (Loader.mount _ j) with
    ({| Loader.cachedWorldData := None; Loader.dataFetchPromise := Some 0%nat;
        Loader.chains := [Loader.InFlight (ws ++ [j])];
        Loader.delivered := [] |} : Loader.World Geometry).
  rewrite IH, <- app_assoc. reflexivity.
Qed.

Lemma in_flight_nothing_delivered w c :
Loader.reachable w -> Loader.inFlight w c -> Loader.delivered w = [].
Proof.
intros Hr Hc.
destruct (LoaderFacts.reachable_single_flight w Hr c Hc) as [_ Hn].
destruct (reachable_cache_agrees w Hr) as [Hd _].
destruct (Loader.delivered w) as [|[j d] l] eqn:E; [reflexivity|].
specialize (Hd j d ltac:(left)). congruence.
Qed.

(** X18. Once the land geometry is cached, it stays: whatever instances
  mount and whatever chains settle afterwards, the cache holds the same
  geometry, no further fetch is made, and every instance that mounts is
  handed that geometry at once, in the order of mounting. *)
Theorem geometry_cache_write_once w evs data :
Loader.reachable w ->
Loader.cachedWorldData w = Some data ->
Loader.cachedWorldData (foldl Loader.step w evs) = Some data
/\ Loader.fetches (foldl Loader.step w evs) = Loader.fetches w
/\ Loader.delivered (foldl Loader.step w evs)
   = Loader.delivered w ++ ((fun i => (i, data)) <$> mounted evs).
Proof.
revert w. induction evs as [|ev evs IH]; intros w Hr Hc.
- simpl. rewrite app_nil_r. auto.
- pose proof (LoaderFacts.reachable_single_flight w Hr) as Hsf.
  destruct (cached_step w ev data Hsf Hc) as (Hc' & Hf' & _).
  destruct (IH (Loader.step w ev) (Loader.reachable_step w ev Hr) Hc')
    as (IH1 & IH2 & IH3).
  simpl foldl. rewrite IH1, IH2, IH3, Hf'. repeat split.
  destruct ev as [i|c result]; simpl.
  + unfold Loader.mount. rewrite Hc. simpl. rewrite <- app_assoc.
    reflexivity.
  + unfold Loader.settle.
    destruct (Loader.chains w !! c) as [[ws|d]|] eqn:E; try reflexivity.
    destruct (Hsf c) as [_ Hn]; [eexists; exact E|]. congruence.
Qed.

(** X19. All instances are handed the same geometry: in every state the
  loader can reach, any two deliveries carry the same object, and it is
  the one the cache holds. *)
Theorem geometry_same_for_all w i j d1 d2 :
Loader.reachable w ->
(i, d1) ∈ Loader.delivered w ->
(j, d2) ∈ Loader.delivered w ->
d1 = d2 /\ Loader.cachedWorldData w = Some d1.
Proof.
intros Hr H1 H2. destruct (reachable_cache_agrees w Hr) as [Hd _].
pose proof (Hd i d1 H1). pose proof (Hd j d2 H2).
split; congruence.
Qed.

(** X20. When the chain in flight succeeds, the geometry is cached and
  handed to exactly the instances waiting on the chain, once per wait and
  in the order they subscribed; nothing had been delivered before, no
  chain is in flight afterwards, and no fetch is made. *)
Theorem settle_success_serves_waiters w c waiting land :
Loader.reachable w ->
Loader.chains w !! c = Some (Loader.InFlight waiting) ->
let w' := Loader.settle w c (Some land) in
Loader.cachedWorldData w' = Some land
/\ Loader.delivered w' = (fun i => (i, land)) <$> waiting
/\ (forall i, deliveredTo w' i
              = replicate (length (filter (fun j => j = i) waiting)) land)
/\ (forall c', ~ Loader.inFlight w' c')
/\ Loader.fetches w' = Loader.fetches w.
Proof.
intros Hr Hc w'.
assert (Hin : Loader.inFlight w c) by (eexists; exact Hc).
pose proof (in_flight_nothing_delivered w c Hr Hin) as Hnil.
assert (Hw' : w' = {| Loader.cachedWorldData := Some land;
                      Loader.dataFetchPromise := Loader.dataFetchPromise w;
                      Loader.chains :=
                        <[c := Loader.Settled (Some land)]> (Loader.chains w);
                      Loader.delivered :=
                        Loader.delivered w ++ ((fun i => (i, land)) <$> waiting) |}).
{ unfold w', Loader.settle. rewrite Hc. reflexivity. }
assert (Hr' : Loader.reachable w')
  by (apply (Loader.reachable_step w (Loader.Settle c (Some land))), Hr).
assert (Hd : Loader.delivered w' = (fun i => (i, land)) <$> waiting)
  by (rewrite Hw'; simpl; rewrite Hnil; reflexivity).
repeat apply conj.
- rewrite Hw'. reflexivity.
- exact Hd.
- intros i. unfold deliveredTo. rewrite Hd. clear.
  induction waiting as [|j ws IH]; [reflexivity|].
  rewrite fmap_cons. destruct (decide (j = i)) as [->|Hne].
  + rewrite !filter_cons_True by reflexivity. simpl. rewrite <- IH.
    reflexivity.
  + rewrite !filter_cons_False by (simpl; congruence). exact IH.
- intros c' Hc'.
  destruct (LoaderFacts.reachable_single_flight w' Hr' c' Hc') as [_ Hn].
  rewrite Hw' in Hn. discriminate.
- rewrite Hw'. unfold Loader.fetches. simpl. apply length_insert.
Qed.

(** X21. When the chain in flight fails, the instances waiting on it are
  never served: whatever happens afterwards (other instances mounting,
  a new fetch succeeding), an instance that does not mount again is
  handed no geometry. *)
Theorem failed_fetch_strands_waiters w c evs i :
Loader.reachable w ->
Loader.inFlight w c ->
Loader.Mount i ∉ evs ->
deliveredTo (foldl Loader.step (Loader.settle w c None) evs) i = [].
Proof.
intros Hr Hc Hev.
pose proof (LoaderFacts.reachable_single_flight w Hr) as Hsf.
pose proof (in_flight_nothing_delivered w c Hr Hc) as Hnil.
destruct Hc as [ws Hc].
assert (Hw' : Loader.settle w c None
              = {| Loader.cachedWorldData := Loader.cachedWorldData w;
                   Loader.dataFetchPromise := None;
                   Loader.chains :=
                     <[c := Loader.Settled None]> (Loader.chains w);
                   Loader.delivered := Loader.delivered w |}).
{ unfold Loader.settle. rewrite Hc. reflexivity. }
rewrite foldl_notWaiting; [| exact Hev |].
- unfold deliveredTo. rewrite Hw'. simpl. rewrite Hnil. reflexivity.
- intros c' ws' Hl. exfalso.
  assert (Hr' : Loader.reachable (Loader.settle w c None))
    by (apply (Loader.reachable_step w (Loader.Settle c None)), Hr).
  destruct (LoaderFacts.reachable_single_flight _ Hr' c') as [Hp _];
    [eexists; exact Hl|].
  rewrite Hw' in Hp. discriminate.
Qed.

(** X22. Instances that mount before the answer arrives share one fetch:
  from the start, after any non-empty sequence of mounts followed by the
  success of the fetch, exactly one fetch was made and every mount was
  handed the geometry, in the order of mounting. *)
Theorem mounts_share_one_fetch (js : list nat) (land : Geometry) :
js <> [] ->
let w := foldl Loader.step Loader.initialWorld
           ((Loader.Mount <$> js) ++ [Loader.Settle 0 (Some land)]) in
Loader.fetches w = 1%nat
/\ Loader.delivered w = (fun i => (i, land)) <$> js
/\ Loader.cachedWorldData w = Some land.
Proof.
intros Hjs w. destruct js as [|j js]; [congruence|].
assert (Hw : w = Loader.settle
                   {| Loader.cachedWorldData := None;
                      Loader.dataFetchPromise := Some 0%nat;
                      Loader.chains := [Loader.InFlight ([j] ++ js)];
                      Loader.delivered := [] |} 0 (Some land)).
{ unfold w. rewrite foldl_app, fmap_cons. simpl.
  change (Loader.mount Loader.initialWorld j) with
    ({| Loader.cachedWorldData := None; Loader.dataFetchPromise := Some 0%nat;
        Loader.chains := [Loader.InFlight [j]];
        Loader.delivered := [] |} : Loader.World Geometry).
  rewrite mounts_wait_together. reflexivity. }
rewrite Hw. repeat split.
Qed.
End LoaderTheorems.

Lemma geometry_cache_write_once_witness :
  let w := Loader.settle twoWaiting 0 (Some "land"%string) in
  let evs := [Loader.Mount 3%nat; Loader.Settle 0%nat (Some "sea"%string);
              Loader.Mount 1%nat] in
  Loader.cachedWorldData (foldl Loader.step w evs) = Some "land"%string
  /\ Loader.fetches (foldl Loader.step w evs) = Loader.fetches w
  /\ Loader.delivered (foldl Loader.step w evs)
     = Loader.delivered w
       ++ ((fun i => (i, "land"%string)) <$> mounted evs).
Proof.
  apply geometry_cache_write_once.
  - unfold twoWaiting.
    apply (Loader.reachable_step _ (Loader.Settle 0 (Some "land"%string))).
    apply (Loader.reachable_step _ (Loader.Mount 2)).
    apply (Loader.reachable_step _ (Loader.Mount 1)).
    apply Loader.reachable_init.
  - reflexivity.
Defined.

Lemma geometry_same_for_all_witness :
  let w := Loader.mount (Loader.settle twoWaiting 0 (Some "land"%string)) 3 in
  "land"%string = "land"%string
  /\ Loader.cachedWorldData w = Some "land"%string.
Proof.
  apply (geometry_same_for_all _ 1%nat 3%nat).
  - unfold twoWaiting.
    apply (Loader.reachable_step _ (Loader.Mount 3)).
    apply (Loader.reachable_step _ (Loader.Settle 0 (Some "land"%string))).
    apply (Loader.reachable_step _ (Loader.Mount 2)).
    apply (Loader.reachable_step _ (Loader.Mount 1)).
    apply Loader.reachable_init.
  - vm_compute. repeat constructor.
  - vm_compute. repeat constructor.
Defined.

Lemma settle_success_serves_waiters_witness :
  Loader.delivered (Loader.settle twoWaiting 0 (Some "land"%string))
  = [(1%nat, "land"%string); (2%nat, "land"%string)].
Proof.
  destruct (settle_success_serves_waiters twoWaiting 0%nat [1%nat; 2%nat]
              "land"%string) as (_ & H & _).
  - unfold twoWaiting.
    apply (Loader.reachable_step _ (Loader.Mount 2)).
    apply (Loader.reachable_step _ (Loader.Mount 1)).
    apply Loader.reachable_init.
  - reflexivity.
  - exact H.
Defined.

Lemma failed_fetch_strands_waiters_witness :
  let evs := [Loader.Mount 3%nat; Loader.Settle 1%nat (Some "land"%string)] in
  let w := foldl Loader.step (Loader.settle twoWaiting 0 None) evs in
  deliveredTo w 1 = [] /\ deliveredTo w 3 = ["land"%string].
Proof.
  split; [|reflexivity].
  apply (failed_fetch_strands_waiters twoWaiting 0%nat).
  - unfold twoWaiting.
    apply (Loader.reachable_step _ (Loader.Mount 2)).
    apply (Loader.reachable_step _ (Loader.Mount 1)).
    apply Loader.reachable_init.
  - exists [1%nat; 2%nat]. reflexivity.
  - intros H. repeat (apply elem_of_cons in H as [H|H]; [discriminate H|]).
    apply elem_of_nil in H. exact H.
Defined.

Lemma mounts_share_one_fetch_witness :
  let w := foldl Loader.step Loader.initialWorld
             ((Loader.Mount <$> [4%nat; 7%nat; 4%nat])
                ++ [Loader.Settle 0 (Some "land"%string)]) in
  Loader.fetches w = 1%nat
  /\ Loader.delivered w
     = (fun i => (i, "land"%string)) <$> [4%nat; 7%nat; 4%nat]
  /\ Loader.cachedWorldData w = Some "land"%string.
Proof.
  apply (mounts_share_one_fetch [4%nat; 7%nat; 4%nat] "land"%string).
  discriminate.
Defined.

(** ** The routes and their keys *)

Lemma append_inj_length (a a' b b' : string) :
  String.length a = String.length a' ->
  a +:+ b = a' +:+ b' -> a = a' /\ b = b'.
Proof.
  revert a'. induction a as [|c a IH]; intros [|c' a'] Hl H;
    try discriminate Hl.
  - split; [reflexivity|exact H].
  - simpl in Hl, H. injection H as -> H. injection Hl as Hl.
    destruct (IH a' Hl H) as [-> ->]. split; reflexivity.
Qed.

Lemma append_assoc (x a b : string) : (x +:+ a) +:+ b = x +:+ (a +:+ b).
Proof.
  induction x as [|c x IH]; [reflexivity|].
  change (String c ((x +:+ a) +:+ b) = String c (x +:+ (a +:+ b))).
  rewrite IH. reflexivity.
Qed.

Lemma NoDup_imap_keys (ids : list string) (n : nat) :
  (forall a b, a ∈ ids -> b ∈ ids -> String.length a = String.length b) ->
  NoDup (imap (fun i a => a +:+ pretty (n + i)%nat) ids).
Proof.
  intros Hlen. apply NoDup_alt. intros i j k Hi Hj.
  rewrite list_lookup_imap in Hi, Hj.
  destruct (ids !! i) as [a|] eqn:Ea; [|discriminate Hi].
  destruct (ids !! j) as [b|] eqn:Eb; [|discriminate Hj].
  simpl in Hi, Hj. injection Hi as Hi. injection Hj as Hj.
  rewrite <- Hj in Hi.
  apply append_inj_length in Hi as [_ Hi].
  - apply (inj pretty) in Hi. lia.
  - apply Hlen; eapply list_elem_of_lookup_2; eassumption.
Qed.

Section RouteFacts.
Context {ext : Externals} {dom : DOM} {paths : PathGenerator}.

Lemma routeKeys_ids (p : Props) (s : State) :
routeKeys p s
= imap (fun i a => a +:+ pretty i)
    (id <$> match highlightTrip p with
            | Some ht => [ht]
            | None => trips p
            end).
Proof.
unfold routeKeys, renderRoutes. rewrite !imap_fmap. reflexivity.
Qed.

(** X23. The routes drawn are the highlighted trip alone when there is
  one, whatever [trips] holds, and all trips in order otherwise; every
  route is marked as highlight exactly when a trip is highlighted.  The
  React key of a route is its id followed by its index: when the ids of
  the trips have one length (as generated ids have), the keys are
  pairwise distinct, even among trips with the same id. *)
Theorem route_keys_distinct (p : Props) (s : State) :
route_id <$> renderRoutes p s
= match highlightTrip p with
  | Some ht => [id ht]
  | None => id <$> trips p
  end
/\ Forall (fun route =>
     route_isHighlight route = bool_decide (is_Some (highlightTrip p)))
     (renderRoutes p s)
/\ (is_Some (highlightTrip p) -> NoDup (routeKeys p s))
/\ ((forall a b, a ∈ trips p -> b ∈ trips p ->
       String.length (id a) = String.length (id b)) ->
    NoDup (routeKeys p s)).
Proof.
repeat apply conj.
- unfold renderRoutes. rewrite <- list_fmap_compose.
  destruct (highlightTrip p); reflexivity.
- unfold renderRoutes. apply Forall_fmap, Forall_true. reflexivity.
- intros [ht Hh]. rewrite routeKeys_ids, Hh.
  apply (NoDup_imap_keys _ 0).
  intros a b Ha Hb. apply list_elem_of_singleton in Ha, Hb. congruence.
- intros Hlen. rewrite routeKeys_ids.
  apply (NoDup_imap_keys _ 0).
  destruct (highlightTrip p) as [ht|].
  + intros a b Ha Hb. apply list_elem_of_singleton in Ha, Hb.
    congruence.
  + intros a b Ha Hb.
    apply list_elem_of_fmap in Ha as (ta & -> & Ha).
    apply list_elem_of_fmap in Hb as (tb & -> & Hb).
    apply Hlen; assumption.
Qed.
End RouteFacts.

Lemma route_keys_distinct_witness :
  let p := globe [trip "ab" (place "A" 0 0) (place "B" 0 10);
                  trip "ab" (place "B" 0 10) (place "A" 0 0)] None in
  NoDup (routeKeys (ext := equator) (paths := blank) p idle)
  /\ route_id <$> renderRoutes (ext := equator) (paths := blank) p idle
     = ["ab"; "ab"]%string.
Proof.
  intros p.
  destruct (route_keys_distinct (ext := equator) (paths := blank) p idle)
    as (Hids & _ & _ & H).
  split; [|exact Hids]. apply H.
  intros a b Ha Hb.
  repeat (apply elem_of_cons in Ha as [->|Ha]);
    repeat (apply elem_of_cons in Hb as [->|Hb]);
    try reflexivity;
    try (apply elem_of_nil in Ha; destruct Ha);
    try (apply elem_of_nil in Hb; destruct Hb).
Defined.

(** X24. Distinct trip ids are not enough for distinct route keys: the key
    is the id followed by the index with nothing in between, so whenever
    the id of the trip at index 1 is the id of the trip at index 11
    followed by the digit 1, the two routes get the same key. *)
Theorem route_keys_can_collide {ext : Externals} {dom : DOM}
    {paths : PathGenerator} (p : Props) (s : State) (t1 t11 : Trip) :
  highlightTrip p = None ->
  trips p !! 1%nat = Some t1 ->
  trips p !! 11%nat = Some t11 ->
  id t1 = id t11 +:+ "1" ->
  routeKeys p s !! 1%nat = routeKeys p s !! 11%nat
  /\ ~ NoDup (routeKeys p s).
Proof.
  intros Hh H1 H11 Hid.
  assert (Hk : routeKeys p s !! 1%nat = routeKeys p s !! 11%nat).
  { rewrite routeKeys_ids, Hh, !list_lookup_imap, !list_lookup_fmap, H1, H11.
    simpl. rewrite Hid. f_equal.
    change (pretty 1%nat) with "1"%string.
    change (pretty 11%nat) with ("1" +:+ "1")%string.
    apply append_assoc. }
  split; [exact Hk|]. intros Hnd.
  assert (Hlt : is_Some (routeKeys p s !! 11%nat)).
  { rewrite routeKeys_ids, Hh, list_lookup_imap, list_lookup_fmap, H11.
    eexists. reflexivity. }
  destruct Hlt as [k Hk11].
  assert (H : 1%nat = 11%nat); [|discriminate H].
  eapply (proj1 (NoDup_alt _) Hnd); [|exact Hk11]. rewrite Hk. exact Hk11.
Qed.

Lemma route_keys_can_collide_witness :
  NoDup (id <$> twelveTrips)
  /\ ~ NoDup (routeKeys (ext := equator) (paths := blank)
                (globe twelveTrips None) idle).
Proof.
  split.
  - unfold twelveTrips. rewrite <- list_fmap_compose.
    apply NoDup_fmap_2_strong with (l := _).
    + intros a b _ _ H. exact H.
    + repeat (apply NoDup_cons; split;
        [intros H; repeat (apply elem_of_cons in H as [H|H];
                           [discriminate H|]);
         apply elem_of_nil in H; exact H|]).
      apply NoDup_nil. exact I.
  - eapply (route_keys_can_collide (ext := equator) (paths := blank));
      reflexivity.
Defined.

(** ** A map that takes no input *)

Section Static.
Context {ext : Externals} {dom : DOM}.

Lemma step_noninteractive (p : Props) (innerHeight : Q) (s : State)
  (ev : Event) :
interactionEnabled p = false ->
step p innerHeight s ev
= match ev with
  | AutoCenter => (autoCenter p s).1
  | Resize d => with_dimensions d s
  | _ => s
  end.
Proof.
intros Hi. unfold step.
destruct ev; simpl;
  unfold handlePointerDown, handlePointerMove, handlePointerUp,
    handleWheel, handleDoubleClick, handleTouchGatekeeper;
  rewrite ?Hi; reflexivity.
Qed.

Lemma run_snoc (s : State) (evs : list (Props * Q * Event)) x :
run s (evs ++ [x]) = step x.1.1 x.1.2 (run s evs) x.2.
Proof. unfold run. rewrite fold_left_app. reflexivity. Qed.

(** X25. A map that takes no input shows its frame. When every event
  arrives under props with interaction disabled (as the maps of the trip
  cards and of the overview are mounted), no pointer is ever cached, no
  drag is ever on, and the view is the one of the last framing, computed
  from the props of that moment; before the first framing it is the
  initial view, zoom 1 and rotation (0, 0). *)
Theorem noninteractive_view_is_its_frame (evs : list (Props * Q * Event)) :
Forall (fun x => interactionEnabled x.1.1 = false) evs ->
let s := run initialState evs in
evCache s = [] /\ isDragging s = false /\ lastPos s = None
/\ prevDiff s = -1
/\ match last (filter (fun x => isAutoCenter x.2 = true) evs) with
   | None =>
       zoom s = 1 /\ rotation s = (0, 0) /\ defaultState s = None
   | Some x =>
       (rotation s, zoom s) = autoCenter_target x.1.1
       /\ defaultState s = Some (zoom s, rotation s)
   end.
Proof.
induction evs as [|x evs IH] using rev_ind; intros Hall s.
- repeat split.
- apply Forall_app in Hall as [Hall Hx].
  apply (proj1 (Forall_singleton _ _)) in Hx.
  specialize (IH Hall). simpl in IH.
  destruct IH as (H1 & H2 & H3 & H4 & H5).
  unfold s. rewrite run_snoc, step_noninteractive by exact Hx.
  rewrite filter_app.
  destruct x as [[p ih] ev]. simpl in *.
  destruct ev; simpl;
    try (rewrite filter_cons_False, filter_nil, app_nil_r
           by (simpl; discriminate);
         repeat split; assumption).
  rewrite filter_cons_True, filter_nil, last_snoc by reflexivity.
  unfold autoCenter. cbn [fst snd].
  destruct (autoCenter_target p) as [r z]. simpl.
  repeat split; assumption || reflexivity.
Qed.
End Static.

Lemma noninteractive_view_is_its_frame_witness :
  let t := trip "t1" (place "A" 0 0) (place "B" 0 90) in
  let evs := [(card t, 800, AutoCenter);
              (card t, 800, PointerDown (pointer 1 10 400));
              (card t, 800, Wheel {| deltaY := -1 |});
              (card t, 800, DoubleClick)] in
  let s := run (ext := equator) idle evs in
  evCache s = [] /\ (rotation s, zoom s) = autoCenter_target (ext := equator) (card t).
Proof.
  intros t evs s.
  destruct (noninteractive_view_is_its_frame (ext := equator) evs)
    as (H1 & _ & _ & _ & H5).
  - repeat constructor.
  - split; [exact H1|]. apply H5.
Defined.
